(** * bitsery archive: a Rocq model of the serializer core

    The development embeds the archive dispatch machinery
    ([include/bitsery/details/archive.h]), the polymorphic registry, the
    registration helper [register_types] and the compile-time identifier
    hash ([include/bitsery/details/registry.h]), the wrapper of
    [include/bitsery/details/polymorphic.h], the integer helpers of
    [include/bitsery/details/common.h] and the use of the two user-facing
    archives on one vector in [examples/archive.cpp]. It proves the
    properties the specification states about them, and further properties
    of the code.

    Conventions.
    - A fixed-width unsigned integer is a [Z]; every conversion to a
      [w]-bit type is written out as a reduction modulo [2^w].
    - A byte is a [Z] in [0, 256); a buffer is a [list Z].
    - Buffer positions ([m_size], [m_offset]) are [nat]: they are bounded by
      the length of a buffer that exists in memory, so the [size_t]
      additions in which they occur cannot wrap.
    - The object representation of a multi-byte scalar depends on the host;
      the byte order of the host is a parameter of the model.
    - A container is the list of its elements in the order of iteration.
      What the standard library leaves open is a parameter of the model
      too: the comparison of the containers that iterate in key order, and
      the insertion into a hash table, which decides where the table lists
      the new element. *)

From stdpp Require Import gmap strings list fin_maps.
From Stdlib Require Import ZArith Lia Bool Ascii.

Local Open Scope Z_scope.
Set Warnings "-register-all".

(** ** Fixed-width integers ([common.h]) *)

Module detail.

Definition u8 (x : Z) : Z := x mod 2 ^ 8.
Definition u16 (x : Z) : Z := x mod 2 ^ 16.
Definition u32 (x : Z) : Z := x mod 2 ^ 32.
Definition u64 (x : Z) : Z := x mod 2 ^ 64.

(** [swap_byte_order(std::uint8_t)]: a no operation. *)
Definition swap_byte_order8 (value : Z) : Z := value.

(** [swap_byte_order(std::uint16_t)]. The operands are promoted to [int],
    the result is converted back to [uint16_t] on return. *)
Definition swap_byte_order16 (value : Z) : Z :=
  u16 (Z.lor (Z.shiftl (u16 (swap_byte_order8 (u8 value))) 8)
             (swap_byte_order8 (u8 (Z.shiftr value 8)))).

(** [swap_byte_order(std::uint32_t)]: the left operand is a [uint32_t], so
    the shift is reduced modulo [2^32]. *)
Definition swap_byte_order32 (value : Z) : Z :=
  u32 (Z.lor (u32 (Z.shiftl (u32 (swap_byte_order16 (u16 value))) 16))
             (swap_byte_order16 (u16 (Z.shiftr value 16)))).

(** [swap_byte_order(std::uint64_t)]. *)
Definition swap_byte_order64 (value : Z) : Z :=
  u64 (Z.lor (u64 (Z.shiftl (u64 (swap_byte_order32 (u32 value))) 32))
             (swap_byte_order32 (u32 (Z.shiftr value 32)))).

(** [rotate_left<std::uint32_t>(number, count)]:
    [(number << count) | (number >> (sizeof(number) * 8 - count))]. *)
Definition rotate_left (number : Z) (count : Z) : Z :=
  Z.lor (u32 (Z.shiftl number count)) (Z.shiftr number (4 * 8 - count)).

End detail.

(** [size_type = std::uint32_t], [id_type = std::uint64_t]. *)
Definition size_type (x : Z) : Z := detail.u32 x.
Definition id_type (x : Z) : Z := detail.u64 x.

(** ** The identifier hash [make_id] ([registry.h]) *)

(** The value of a plain [char] holding the character [c]: plain [char] is
    signed on some platforms and unsigned on others. *)
Definition char_value (char_is_signed : bool) (c : ascii) : Z :=
  let n := Z.of_N (N_of_ascii c) in
  if char_is_signed && (128 <=? n) then n - 256 else n.

(** The characters of a string literal, terminating zero excluded. *)
Definition literal_chars (char_is_signed : bool) (name : string) : list Z :=
  map (char_value char_is_signed) (String.list_ascii_of_string name).

(** [a[k] |= x] on an array of words. *)
Definition or_at (k : nat) (x : Z) (a : list Z) : list Z :=
  <[k := Z.lor (nth k a 0) x]> a.

Module make_id_impl.
Import detail.

(** The five running hash values [h0 .. h4]. *)
Definition hash_state : Type := Z * Z * Z * Z * Z.

Definition initial_state : hash_state :=
  (0x67452301, 0xEFCDAB89, 0x98BADCFE, 0x10325476, 0xC3D2E1F0).

(** [(((size + sizeof(std::uint64_t)) + 63) / 64) * 64]. *)
Definition aligned_message_size (size : nat) : nat :=
  (((size + 8) + 63) / 64 * 64)%nat.

(** The contribution of the byte [c] at index [i]:
    [swap_byte_order(std::uint32_t(c) << ((sizeof(std::uint32_t) - 1 - (i % 4)) * 8))]. *)
Definition message_byte (c : Z) (i : nat) : Z :=
  swap_byte_order32 (u32 (Z.shiftl (u32 c) (Z.of_nat ((4 - 1 - i mod 4) * 8)))).

(** The pre-processed message: the bytes of the name, the byte [0x80] and
    the length in bits, in that order of assignment. *)
Definition preprocessed_message (chars : list Z) : list Z :=
  let size := S (length chars) in
  let message_size := u64 (Z.of_nat ((size - 1) * 8)) in
  let words := (aligned_message_size size / 4)%nat in
  let m0 := repeat 0 words in
  let m1 := fold_left (fun m i => or_at (i / 4) (message_byte (nth i chars 0) i) m)
                      (seq 0 (size - 1)) m0 in
  let m2 := or_at ((size - 1) / 4) (message_byte 0x80 (size - 1)) m1 in
  let m3 := <[(words - 2)%nat := swap_byte_order32 (u32 (Z.shiftr message_size 32))]> m2 in
  <[(words - 1)%nat := swap_byte_order32 (u32 message_size)]> m3.

(** The eighty words [w] of the chunk that starts at word [i]. *)
Definition chunk_words (message : list Z) (i : nat) : list Z :=
  let w0 := repeat 0 80%nat in
  let w1 := fold_left (fun w j => <[j := nth (i + j) message 0]> w) (seq 0 16) w0 in
  fold_left
    (fun w j =>
       <[j := swap_byte_order32
                (rotate_left
                   (swap_byte_order32
                      (Z.lxor (Z.lxor (Z.lxor (nth (j - 3) w 0) (nth (j - 8) w 0))
                                      (nth (j - 14) w 0))
                              (nth (j - 16) w 0))) 1)]> w)
    (seq 16 64) w1.

(** [~b] on a [uint32_t]. *)
Definition not32 (b : Z) : Z := u32 (Z.lnot b).

(** One iteration of the main loop. *)
Definition round (w : list Z) (s : hash_state) (j : nat) : hash_state :=
  let '(a, b, c, d, e) := s in
  let '(f, k) :=
    if (j <=? 19)%nat then (Z.lor (Z.land b c) (Z.land (not32 b) d), 0x5A827999)
    else if (j <=? 39)%nat then (Z.lxor (Z.lxor b c) d, 0x6ED9EBA1)
    else if (j <=? 59)%nat then
      (Z.lor (Z.lor (Z.land b c) (Z.land b d)) (Z.land c d), 0x8F1BBCDC)
    else (Z.lxor (Z.lxor b c) d, 0xCA62C1D6) in
  let temp := u32 (rotate_left a 5 + f + e + k + swap_byte_order32 (nth j w 0)) in
  (temp, a, rotate_left b 30, c, d).

(** The body of the loop over the 512-bit chunks. *)
Definition process_chunk (message : list Z) (h : hash_state) (i : nat) : hash_state :=
  let w := chunk_words message i in
  let '(h0, h1, h2, h3, h4) := h in
  let '(a, b, c, d, e) := fold_left (round w) (seq 0 80) h in
  (u32 (h0 + a), u32 (h1 + b), u32 (h2 + c), u32 (h3 + d), u32 (h4 + e)).

(** The chunk loop: [for (i = 0; i < words; i += 16)]. *)
Definition chunk_starts (words : nat) : list nat :=
  map (fun n => (16 * n)%nat) (seq 0 ((words + 15) / 16)).

End make_id_impl.

(** [make_id(name)]: the first eight bytes of the SHA-1 of the name. *)
Definition make_id (char_is_signed : bool) (name : string) : Z :=
  let chars := literal_chars char_is_signed name in
  let message := make_id_impl.preprocessed_message chars in
  let '(h0, h1, _, _, _) :=
    fold_left (make_id_impl.process_chunk message)
              (make_id_impl.chunk_starts (length message))
              make_id_impl.initial_state in
  detail.swap_byte_order64 (Z.lor (detail.u64 (Z.shiftl (detail.u64 h0) 32)) h1).

(** ** Exceptions and outcomes ([common.h]) *)

(** The four exceptions of the serializer, and [std::bad_cast], which the
    [dynamic_cast] of a saving serialization method can raise. *)
Inductive exn : Type :=
  | out_of_range
  | undeclared_polymorphic_type_error
  | attempt_to_serialize_null_pointer_error
  | polymorphic_type_mismatch_error
  | bad_cast.

(** How a call ends. [ill_formed] stands for a call that overload resolution
    rejects (no [serialize] is viable for the item, or the item does not have
    the shape of its type): such a program does not compile. [out_of_fuel]
    is produced by the loader only, when its recursion budget is used up. *)
Inductive outcome : Type :=
  | normal
  | thrown (e : exn)
  | ill_formed
  | out_of_fuel.

#[global] Instance exn_eq_dec : EqDecision exn.
Proof. solve_decision. Defined.

#[global] Instance outcome_eq_dec : EqDecision outcome.
Proof. solve_decision. Defined.

(** ** Object representation of scalars *)

Inductive byte_order : Type := little_endian | big_endian.

(** The [n] low-order bytes of [x], least significant first. *)
Fixpoint le_bytes (n : nat) (x : Z) : list Z :=
  match n with
  | O => []
  | S n' => x mod 256 :: le_bytes n' (x / 256)
  end.

(** The value of a little-endian byte sequence. *)
Fixpoint le_value (bs : list Z) : Z :=
  match bs with
  | [] => 0
  | b :: bs' => b + 256 * le_value bs'
  end.

(** The [n] bytes that [std::addressof(item)] points to, for an [n]-byte
    scalar of bit pattern [x]. *)
Definition object_bytes (host : byte_order) (n : nat) (x : Z) : list Z :=
  match host with
  | little_endian => le_bytes n x
  | big_endian => rev (le_bytes n x)
  end.

(** The bit pattern of the scalar whose object representation is [bs]. *)
Definition object_value (host : byte_order) (bs : list Z) : Z :=
  match host with
  | little_endian => le_value bs
  | big_endian => le_value (rev bs)
  end.

(** ** [std::vector] operations used by the archives *)

(** [v.resize(n)]: truncates, or appends value-initialised elements. *)
Definition vector_resize {A : Type} (d : A) (n : nat) (v : list A) : list A :=
  firstn n v ++ repeat d (n - length v).

(** [std::copy_n(src, |src|, v.data() + pos)]. *)
Definition copy_n_at (src : list Z) (pos : nat) (v : list Z) : list Z :=
  firstn pos v ++ src ++ skipn (pos + length src) v.

(** [v.erase(v.begin(), v.begin() + n)]. *)
Definition vector_erase_front {A : Type} (n : nat) (v : list A) : list A :=
  skipn n v.

(** ** The output archives ([archive.h]) *)

Module lazy_vector_memory_output_archive.

(** [m_output] is the vector the archive points to. *)
Record t : Type := mk { m_output : list Z; m_size : nat }.

(** The constructor: [m_size(output.size())]. *)
Definition make (output : list Z) : t :=
  {| m_output := output; m_size := length output |}.

(** [serialize(Item && item)], for an item whose object representation is
    [bytes] (so [sizeof(item) = length bytes]). *)
Definition serialize (bytes : list Z) (a : t) : t :=
  let n := length bytes in
  let output :=
    if (length (m_output a) <? m_size a + n)%nat
    then vector_resize 0 ((m_size a + n) * 3 / 2)%nat (m_output a)
    else m_output a in
  {| m_output := copy_n_at bytes (m_size a) output;
     m_size := (m_size a + n)%nat |}.

(** [serialize(const void * data, size_type size)]: [size] bytes are
    copied from [data]. *)
Definition serialize_binary (data : list Z) (size : Z) (a : t) : t :=
  serialize (firstn (Z.to_nat size) data) a.

(** [fit_vector()]. *)
Definition fit_vector (a : t) : t :=
  {| m_output := vector_resize 0 (m_size a) (m_output a); m_size := m_size a |}.

(** The bytes written so far: the first [m_size] bytes of the vector. *)
Definition written (a : t) : list Z := firstn (m_size a) (m_output a).

End lazy_vector_memory_output_archive.

(** ** The input archives ([archive.h]) *)

Module memory_view_input_archive.

(** [m_input] lists the [m_size] bytes the archive views. *)
Record t : Type := mk { m_input : list Z; m_offset : nat }.

Definition m_size (a : t) : nat := length (m_input a).

(** The constructor: the offset starts at zero. *)
Definition make (input : list Z) : t := {| m_input := input; m_offset := 0 |}.

Definition reset (a : t) : t := {| m_input := m_input a; m_offset := 0 |}.

Definition get_offset (a : t) : nat := m_offset a.

(** [serialize(Item && item)] for an item of [sizeof_item] bytes: the
    bytes copied into the item, or the exception. *)
Definition serialize (sizeof_item : nat) (a : t) : (exn + list Z) * t :=
  if (m_size a <? sizeof_item + m_offset a)%nat then (inl out_of_range, a)
  else (inr (firstn sizeof_item (skipn (m_offset a) (m_input a))),
        {| m_input := m_input a; m_offset := (m_offset a + sizeof_item)%nat |}).

(** [serialize(void * data, size_type size)]. *)
Definition serialize_binary (size : Z) (a : t) : (exn + list Z) * t :=
  serialize (Z.to_nat size) a.

End memory_view_input_archive.

(** ** The polymorphic registry ([registry.h]) *)

Module registry.

(** The two maps of [registry<Archive>]. A serialization method is the
    closure [make_serialization_method<Archive, Type>()], which [Type]
    determines: the map stores a description [M] of that type. *)
Record t (M : Type) : Type := mk {
  m_serialization_id_to_method : gmap Z M;
  m_type_information_to_serialization_id : gmap string Z
}.
Arguments mk {M} _ _.
Arguments m_serialization_id_to_method {M} _.
Arguments m_type_information_to_serialization_id {M} _.

(** [std::unordered_map::emplace]: inserts only when the key is absent. *)
Definition emplace {K : Type} `{Countable K} {V : Type}
    (k : K) (v : V) (m : gmap K V) : gmap K V :=
  match m !! k with
  | Some _ => m
  | None => <[k := v]> m
  end.

(** The registry of a fresh process. *)
Definition empty {M : Type} : t M := mk ∅ ∅.

(** [add(id, type_information_string, serialization_method)]. *)
Definition add {M : Type} (id : Z) (type_information_string : string)
    (serialization_method : M) (r : t M) : t M :=
  mk (emplace id serialization_method (m_serialization_id_to_method r))
     (emplace type_information_string id (m_type_information_to_serialization_id r)).

End registry.

(** ** Serializable types and their values *)

(** What the overloads look at in a resizable container: the iterator
    category and the presence of a [data()] member function, which decide
    the overload, and whether dereferencing an iterator gives an lvalue, to
    which the [auto & item] of the per-element loops binds. It does in every
    standard container but [std::vector<bool>], whose iterators give proxy
    objects (and whose constant iterators give a [bool]) by value. *)
Record container_traits : Type := {
  random_access : bool;
  has_data : bool;
  lvalue_items : bool
}.

(** An associative container: unique or equivalent keys, and whether the
    element is a key/mapped pair (a map) or the key itself (a set). *)
Record associative_traits : Type := {
  unique_keys : bool;
  is_map : bool
}.

Inductive array_kind : Type := c_array | std_array.

Inductive handle_kind : Type := unique_ptr | shared_ptr.

(** The types the dispatcher accepts. A class is given by the name
    [typeid] reports for it, the names of its base classes (all of them,
    transitively) and the types of the members its [serialize] hook hands to
    the archive, in the order of the calls; the hook of a derived class
    serializes the members of its base first. [associative] stands for the
    containers that iterate in the order of their keys ([std::set],
    [std::map] and their [multi] forms), [unordered] for the hash tables
    ([std::unordered_set], [std::unordered_map] and their [multi] forms). *)
Inductive ty : Type :=
  | fundamental (sizeof : nat)
  | enumeration (sizeof : nat)
  | resizable (c : container_traits) (value_type : ty)
  | associative (c : associative_traits) (value_type : ty)
  | unordered (c : associative_traits) (value_type : ty)
  | array (k : array_kind) (size : nat) (item : ty)
  | pair (first second : ty)
  | tuple (items : list ty)
  | handle (k : handle_kind) (type : ty)
  | class_ (name : string) (bases : list string) (members : list ty).

(** Values. A scalar is its bit pattern, read as an unsigned integer; a
    container, array, pair or tuple lists its elements in iteration order; a
    handle holds nothing or one object; an object carries its dynamic
    type. *)
Inductive value : Type :=
  | scalar (bits : Z)
  | items (vs : list value)
  | pointer (target : option value)
  | object (dynamic_type : ty) (members : list value).

(** The name of the marker base class [bitsery::archive::polymorphic]. *)
Definition polymorphic : string := "bitsery::archive::polymorphic".

Definition class_name (t : ty) : option string :=
  match t with
  | class_ name _ _ => Some name
  | _ => None
  end.

(** [std::is_base_of<Base, t>], for a class named [base]. *)
Definition is_base_of (base : string) (t : ty) : bool :=
  match t with
  | class_ name bases _ => bool_decide (base = name) || bool_decide (base ∈ bases)
  | _ => false
  end.

Definition is_fundamental (t : ty) : bool :=
  match t with fundamental _ => true | _ => false end.

Definition is_enum (t : ty) : bool :=
  match t with enumeration _ => true | _ => false end.

(** [std::is_class]: the standard containers, pairs, tuples, handles and
    [std::array] are classes; scalars and built-in arrays are not. *)
Definition is_class (t : ty) : bool :=
  match t with
  | fundamental _ | enumeration _ | array c_array _ _ => false
  | _ => true
  end.

(** [sizeof] of a scalar type. *)
Definition sizeof (t : ty) : nat :=
  match t with
  | fundamental n | enumeration n => n
  | _ => 0%nat
  end.

(** The value-initialised object of a type. *)
Fixpoint default (t : ty) : value :=
  match t with
  | fundamental _ | enumeration _ => scalar 0
  | resizable _ _ | associative _ _ | unordered _ _ => items []
  | array _ n e => items (repeat (default e) n)
  | pair a b => items [default a; default b]
  | tuple ts => items (map default ts)
  | handle _ _ => pointer None
  | class_ name bases ms => object (class_ name bases ms) (map default ms)
  end.

(** [dynamic_cast<const Type &>(obj)] succeeds when the dynamic type of the
    object is [Type] or derives from it. *)
Definition dynamic_cast_ok (target : ty) (obj : value) : bool :=
  match obj, class_name target with
  | object dyn _, Some name => is_base_of name dyn
  | _, _ => false
  end.

(** ** Overload resolution for resizable containers ([archive.h]) *)

Inductive direction : Type := saving | loading.

Inductive resizable_overload : Type :=
  | per_element             (* "Serialize resizable containers" *)
  | contiguous_fundamental. (* "Serialize resizable, continuous containers, of
                               fundamental or enumeration types" *)

(** The [enable_if] guard of the per-element overload. The saving overload
    has a third disjunct that the loading overload lacks. *)
Definition per_element_guard (d : direction) (c : container_traits) (e : ty) : bool :=
  match d with
  | loading => is_class e || negb (random_access c)
  | saving => is_class e || negb (random_access c) || negb (has_data c)
  end.

(** The requirements of the contiguous overload, the same in both
    directions. *)
Definition contiguous_guard (c : container_traits) (e : ty) : bool :=
  has_data c && (is_fundamental e || is_enum e) && random_access c.

(** The overload the call resolves to: the only viable one, if any. *)
Definition select_resizable (d : direction) (c : container_traits) (e : ty)
    : option resizable_overload :=
  match per_element_guard d c e, contiguous_guard c e with
  | true, false => Some per_element
  | false, true => Some contiguous_fundamental
  | _, _ => None
  end.

(** The overload the call runs, if the call compiles: the loop
    [for (auto & item : container)] of the per-element overload needs
    lvalues. *)
Definition resizable_call (d : direction) (c : container_traits) (e : ty)
    : option resizable_overload :=
  match select_resizable d c e with
  | Some per_element => if lvalue_items c then Some per_element else None
  | overload => overload
  end.

(** [binary<Item>::size_in_bytes()]: [m_count * sizeof(Item)], returned as a
    [size_type]. *)
Definition size_in_bytes (m_count : Z) (sizeof_item : nat) : Z :=
  size_type (m_count * Z.of_nat sizeof_item).

(** The storage of a contiguous container of scalars: the object
    representations of its elements, one after the other. *)
Fixpoint storage_bytes (host : byte_order) (n : nat) (vs : list value) : option (list Z) :=
  match vs with
  | [] => Some []
  | scalar x :: vs' =>
      match storage_bytes host n vs' with
      | Some bs => Some (object_bytes host n x ++ bs)
      | None => None
      end
  | _ :: _ => None
  end.

(** The [count] scalars of [n] bytes each that a storage holds. *)
Fixpoint storage_values (host : byte_order) (n : nat) (count : nat) (bs : list Z) : list value :=
  match count with
  | O => []
  | S count' => scalar (object_value host (firstn n bs))
                  :: storage_values host n count' (skipn n bs)
  end.

(** ** Associative containers *)

(** The key of an element: the first component of the pair for a map, the
    element itself for a set. *)
Definition key_of (c : associative_traits) (x : value) : value :=
  if is_map c then match x with items (k :: _) => k | _ => x end else x.

(** [container.insert(std::move(item))] on a container kept in key order by
    the comparison [less] ([std::set], [std::map], [std::multiset],
    [std::multimap]): the item goes before the first element with a
    greater key; a container with unique keys drops an item whose key is
    already present. *)
Fixpoint container_insert (less : value -> value -> bool) (c : associative_traits)
    (x : value) (l : list value) : list value :=
  match l with
  | [] => [x]
  | y :: l' =>
      if less (key_of c x) (key_of c y) then x :: y :: l'
      else if unique_keys c && negb (less (key_of c y) (key_of c x)) then y :: l'
      else y :: container_insert less c x l'
  end.

(** ** The dispatcher: [archive::operator()] and the [serialize] overloads *)

Module lvmoa := lazy_vector_memory_output_archive.
Module mvia := memory_view_input_archive.

Section dispatch.

(** The byte order of the host. *)
Variable host : byte_order.

(** [std::less<key_type>] of the associative container whose element type
    is given. *)
Variable key_less : ty -> value -> value -> bool.

(** [container.insert(std::move(item))] on a hash table with elements of
    the given type: the elements in the order of iteration, after the
    insertion into a table that iterates in the order given. Where a hash
    table links an element, and how it orders its elements when it grows, is
    left to the implementation of the standard library. *)
Variable unordered_insert : ty -> associative_traits -> value -> list value -> list value.

(** [registry<lazy_vector_memory_output_archive>::get_instance()] and
    [registry<memory_view_input_archive>::get_instance()]. *)
Variable saving_registry : registry.t ty.
Variable loading_registry : registry.t ty.

(** *** Saving *)

(** The range-based [for] loop [for (auto & item : container) archive(item)]. *)
Fixpoint save_each (sv : value -> lvmoa.t -> outcome * lvmoa.t)
    (vs : list value) (a : lvmoa.t) {struct vs} : outcome * lvmoa.t :=
  match vs with
  | [] => (normal, a)
  | v :: vs' =>
      match sv v a with
      | (normal, a') => save_each sv vs' a'
      | r => r
      end
  end.

(** [serialize_items(first, items...)], for items of the given types. *)
Fixpoint save_items (sv : ty -> value -> lvmoa.t -> outcome * lvmoa.t)
    (ts : list ty) (vs : list value) (a : lvmoa.t) {struct vs} : outcome * lvmoa.t :=
  match vs, ts with
  | [], [] => (normal, a)
  | v :: vs', t :: ts' =>
      match sv t v a with
      | (normal, a') => save_items sv ts' vs' a'
      | r => r
      end
  | _, _ => (ill_formed, a)
  end.

(** The [serialize] hook of a class applied to an object: the members of
    the class are serialized in order; the members that a derived dynamic
    type adds are not touched. *)
Fixpoint save_members (sv : ty -> value -> lvmoa.t -> outcome * lvmoa.t)
    (ts : list ty) (vs : list value) (a : lvmoa.t) {struct vs} : outcome * lvmoa.t :=
  match ts, vs with
  | [], _ => (normal, a)
  | t :: ts', v :: vs' =>
      match sv t v a with
      | (normal, a') => save_members sv ts' vs' a'
      | r => r
      end
  | _ :: _, [] => (ill_formed, a)
  end.

(** [serialize_item] of a saving archive, by the type of the item. *)
Fixpoint save (t : ty) (v : value) (a : lvmoa.t) {struct v} : outcome * lvmoa.t :=
  match t, v with
  | fundamental n, scalar x
  | enumeration n, scalar x =>
      (normal, lvmoa.serialize (object_bytes host n x) a)
  | resizable c e, items vs =>
      match select_resizable saving c e with
      | Some per_element =>
          if lvalue_items c then
            let a1 := lvmoa.serialize
                        (object_bytes host 4 (size_type (Z.of_nat (length vs)))) a in
            save_each (save e) vs a1
          else (ill_formed, a)
      | Some contiguous_fundamental =>
          let size := size_type (Z.of_nat (length vs)) in
          let a1 := lvmoa.serialize (object_bytes host 4 size) a in
          if size =? 0 then (normal, a1)
          else
            match storage_bytes host (sizeof e) vs with
            | Some data =>
                (normal,
                 lvmoa.serialize_binary data
                   (size_in_bytes (size_type (Z.of_nat (length vs))) (sizeof e)) a1)
            | None => (ill_formed, a1)
            end
      | None => (ill_formed, a)
      end
  | associative c e, items vs
  | unordered c e, items vs =>
      let a1 := lvmoa.serialize
                  (object_bytes host 4 (size_type (Z.of_nat (length vs)))) a in
      save_each (save e) vs a1
  | array _ n e, items vs =>
      if (length vs =? n)%nat then save_each (save e) vs a else (ill_formed, a)
  | pair t1 t2, items vs => save_items save [t1; t2] vs a
  | tuple ts, items vs => save_items save ts vs a
  | handle _ type, pointer p =>
      match p with
      | None => (thrown attempt_to_serialize_null_pointer_error, a)
      | Some obj =>
          if is_base_of polymorphic type then
            (* registry<Archive>::serialize(archive, *object) *)
            match obj with
            | object dyn _ =>
                match class_name dyn with
                | Some info =>
                    match registry.m_type_information_to_serialization_id
                            saving_registry !! info with
                    | None => (thrown undeclared_polymorphic_type_error, a)
                    | Some id =>
                        match registry.m_serialization_id_to_method
                                saving_registry !! id with
                        | None => (thrown undeclared_polymorphic_type_error, a)
                        | Some method_type =>
                            let a1 := lvmoa.serialize (object_bytes host 8 id) a in
                            if dynamic_cast_ok method_type obj
                            then save method_type obj a1
                            else (thrown bad_cast, a1)
                        end
                    end
                | None => (ill_formed, a)
                end
            | _ => (ill_formed, a)
            end
          else save type obj a
      end
  | class_ _ _ ms, object _ mvs => save_members save ms mvs a
  | _, _ => (ill_formed, a)
  end.

(** [archive::operator()(items...)] of the saving archive. *)
Definition save_call (args : list (ty * value)) (a : lvmoa.t) : outcome * lvmoa.t :=
  save_items save (map fst args) (map snd args) a.

(** *** Loading *)

Definition load_result : Type := outcome * value * mvia.t.

(** [serialize_item] for a scalar of [n] bytes. *)
Definition load_scalar (n : nat) (target : value) (a : mvia.t) : load_result :=
  match mvia.serialize n a with
  | (inl e, a') => (thrown e, target, a')
  | (inr bs, a') => (normal, scalar (object_value host bs), a')
  end.

(** [for (auto & item : container) archive(item)], loading in place. *)
Fixpoint load_each (ld : value -> mvia.t -> load_result)
    (targets : list value) (a : mvia.t) : outcome * list value * mvia.t :=
  match targets with
  | [] => (normal, [], a)
  | x :: xs =>
      match ld x a with
      | (normal, x', a') =>
          let '(o, xs', a'') := load_each ld xs a' in (o, x' :: xs', a'')
      | (o, x', a') => (o, x' :: xs, a')
      end
  end.

(** [serialize_items(first, items...)], loading in place. *)
Fixpoint load_items (ld : ty -> value -> mvia.t -> load_result)
    (ts : list ty) (targets : list value) (a : mvia.t) : outcome * list value * mvia.t :=
  match targets, ts with
  | [], [] => (normal, [], a)
  | x :: xs, t :: ts' =>
      match ld t x a with
      | (normal, x', a') =>
          let '(o, xs', a'') := load_items ld ts' xs a' in (o, x' :: xs', a'')
      | (o, x', a') => (o, x' :: xs, a')
      end
  | _, _ => (ill_formed, targets, a)
  end.

(** The [serialize] hook of a class, loading the members of the class. *)
Fixpoint load_members (ld : ty -> value -> mvia.t -> load_result)
    (ts : list ty) (targets : list value) (a : mvia.t) : outcome * list value * mvia.t :=
  match ts, targets with
  | [], _ => (normal, targets, a)
  | t :: ts', x :: xs =>
      match ld t x a with
      | (normal, x', a') =>
          let '(o, xs', a'') := load_members ld ts' xs a' in (o, x' :: xs', a'')
      | (o, x', a') => (o, x' :: xs, a')
      end
  | _ :: _, [] => (ill_formed, targets, a)
  end.

(** The loop of the associative overload: each item is default
    constructed, loaded and inserted; [load_item] loads one item. *)
Fixpoint load_inserting (load_item : mvia.t -> load_result)
    (insert_item : value -> list value -> list value)
    (count : nat) (container : list value) (a : mvia.t)
    : outcome * list value * mvia.t :=
  match count with
  | O => (normal, container, a)
  | S count' =>
      match load_item a with
      | (normal, item, a') =>
          load_inserting load_item insert_item count' (insert_item item container) a'
      | (o, _, a') => (o, container, a')
      end
  end.

(** What the loading of a handle leaves behind: the outcome, the caller's
    handle, the objects the call deleted (in order) and the archive. *)
Record handle_load : Type := {
  hl_outcome : outcome;
  hl_object : option value;
  hl_destroyed : list value;
  hl_archive : mvia.t
}.

(** The loading method [make_serialization_method<Archive, Type>()], and
    the non-polymorphic loading overloads for [std::unique_ptr<Type>] and
    [std::shared_ptr<Type>], which have the same body: a new object is
    constructed and loaded; [object.reset] installs it and deletes what
    the handle held. If the load throws, the new object is deleted and the
    handle is left alone. *)
Definition load_new_object (ld : ty -> value -> mvia.t -> load_result)
    (type : ty) (object : option value) (a : mvia.t) : handle_load :=
  match ld type (default type) a with
  | (normal, loaded_object, a') =>
      {| hl_outcome := normal; hl_object := Some loaded_object;
         hl_destroyed := option_list object; hl_archive := a' |}
  | (o, loaded_object, a') =>
      {| hl_outcome := o; hl_object := object;
         hl_destroyed := [loaded_object]; hl_archive := a' |}
  end.

(** [registry<Archive>::serialize(archive, object)], loading. *)
Definition registry_load (ld : ty -> value -> mvia.t -> load_result)
    (object : option value) (a : mvia.t) : handle_load :=
  match load_scalar 8 (scalar 0) a with
  | (normal, scalar id, a1) =>
      match registry.m_serialization_id_to_method loading_registry !! id with
      | None =>
          {| hl_outcome := thrown undeclared_polymorphic_type_error;
             hl_object := object; hl_destroyed := []; hl_archive := a1 |}
      | Some method_type => load_new_object ld method_type object a1
      end
  | (o, _, a1) =>
      {| hl_outcome := o; hl_object := object; hl_destroyed := []; hl_archive := a1 |}
  end.

(** The polymorphic loading overloads for [std::unique_ptr<Type>] and
    [std::shared_ptr<Type>]: the registry loads into the local handle
    [loaded_type]; the [dynamic_cast] to [Type] decides between handing
    the object to the caller and throwing, in which case the destructor of
    [loaded_type] deletes the object. *)
Definition load_polymorphic (ld : ty -> value -> mvia.t -> load_result)
    (type : ty) (object : option value) (a : mvia.t) : handle_load :=
  let r := registry_load ld None a in
  match hl_outcome r, hl_object r with
  | normal, Some loaded =>
      if dynamic_cast_ok type loaded then
        {| hl_outcome := normal; hl_object := Some loaded;
           hl_destroyed := hl_destroyed r ++ option_list object;
           hl_archive := hl_archive r |}
      else
        {| hl_outcome := thrown polymorphic_type_mismatch_error; hl_object := object;
           hl_destroyed := hl_destroyed r ++ [loaded];
           hl_archive := hl_archive r |}
  | normal, None =>
      {| hl_outcome := ill_formed; hl_object := object;
         hl_destroyed := hl_destroyed r; hl_archive := hl_archive r |}
  | o, loaded_type =>
      {| hl_outcome := o; hl_object := object;
         hl_destroyed := hl_destroyed r ++ option_list loaded_type;
         hl_archive := hl_archive r |}
  end.

(** [serialize_item] of a loading archive, by the type of the item. The
    item is loaded in place: the result carries the item as the call
    leaves it, also when the call throws. *)
Fixpoint load (fuel : nat) (t : ty) (target : value) (a : mvia.t) : load_result :=
  match fuel with
  | O => (out_of_fuel, target, a)
  | S fuel' =>
      match t, target with
      | fundamental n, scalar _
      | enumeration n, scalar _ => load_scalar n target a
      | resizable c e, items xs =>
          match select_resizable loading c e with
          | Some per_element =>
              if lvalue_items c then
                match load_scalar 4 (scalar 0) a with
                | (normal, scalar size, a1) =>
                    let '(o, xs', a2) :=
                      load_each (load fuel' e)
                                (vector_resize (default e) (Z.to_nat size) xs) a1 in
                    (o, items xs', a2)
                | (o, _, a1) => (o, target, a1)
                end
              else (ill_formed, target, a)
          | Some contiguous_fundamental =>
              match load_scalar 4 (scalar 0) a with
              | (normal, scalar size, a1) =>
                  let xs1 := vector_resize (default e) (Z.to_nat size) xs in
                  if size =? 0 then (normal, items xs1, a1)
                  else
                    match storage_bytes host (sizeof e) xs1 with
                    | Some storage =>
                        match mvia.serialize_binary
                                (size_in_bytes (size_type (Z.of_nat (length xs1)))
                                               (sizeof e)) a1 with
                        | (inl e', a2) => (thrown e', items xs1, a2)
                        | (inr bs, a2) =>
                            (normal,
                             items (storage_values host (sizeof e) (length xs1)
                                      (bs ++ skipn (length bs) storage)), a2)
                        end
                    | None => (ill_formed, items xs1, a1)
                    end
              | (o, _, a1) => (o, target, a1)
              end
          | None => (ill_formed, target, a)
          end
      | associative c e, items xs =>
          match load_scalar 4 (scalar 0) a with
          | (normal, scalar size, a1) =>
              let '(o, xs', a2) :=
                load_inserting (load fuel' e (default e))
                               (container_insert (key_less e) c)
                               (Z.to_nat size) xs a1 in
              (o, items xs', a2)
          | (o, _, a1) => (o, target, a1)
          end
      | unordered c e, items xs =>
          match load_scalar 4 (scalar 0) a with
          | (normal, scalar size, a1) =>
              let '(o, xs', a2) :=
                load_inserting (load fuel' e (default e))
                               (unordered_insert e c)
                               (Z.to_nat size) xs a1 in
              (o, items xs', a2)
          | (o, _, a1) => (o, target, a1)
          end
      | array _ n e, items xs =>
          if (length xs =? n)%nat then
            let '(o, xs', a') := load_each (load fuel' e) xs a in (o, items xs', a')
          else (ill_formed, target, a)
      | pair t1 t2, items xs =>
          let '(o, xs', a') := load_items (load fuel') [t1; t2] xs a in (o, items xs', a')
      | tuple ts, items xs =>
          let '(o, xs', a') := load_items (load fuel') ts xs a in (o, items xs', a')
      | handle _ type, pointer p =>
          let r := if is_base_of polymorphic type
                   then load_polymorphic (load fuel') type p a
                   else load_new_object (load fuel') type p a in
          (hl_outcome r, pointer (hl_object r), hl_archive r)
      | class_ _ _ ms, object dyn mvs =>
          let '(o, mvs', a') := load_members (load fuel') ms mvs a in
          (o, object dyn mvs', a')
      | _, _ => (ill_formed, target, a)
      end
  end.

(** [archive::operator()(items...)] of the loading archive. *)
Definition load_call (fuel : nat) (args : list (ty * value)) (a : mvia.t)
    : outcome * list value * mvia.t :=
  load_items (load fuel) (map fst args) (map snd args) a.

(** *** The archives the user constructs *)

(** [memory_output_archive::operator()]: the items are saved and the
    vector is fitted, whether the save returns or throws. *)
Definition memory_output_archive_call (args : list (ty * value)) (a : lvmoa.t)
    : outcome * lvmoa.t :=
  let '(o, a') := save_call args a in (o, lvmoa.fit_vector a').

(** [memory_input_archive]: the vector it loads from and its view. *)
Record memory_input_archive : Type := {
  mia_input : list Z;
  mia_view : mvia.t
}.

Definition memory_input_archive_make (input : list Z) : memory_input_archive :=
  {| mia_input := input; mia_view := mvia.make input |}.

(** [memory_input_archive::operator()]: the view is set to the whole
    vector, the items are loaded, and - whether the load returns or
    throws - the loaded bytes are erased and the offset is reset. *)
Definition memory_input_archive_call (fuel : nat) (args : list (ty * value))
    (a : memory_input_archive) : outcome * list value * memory_input_archive :=
  let view := mvia.make (mia_input a) in
  let '(o, targets, view') := load_call fuel args view in
  (o, targets,
   {| mia_input := vector_erase_front (mvia.get_offset view') (mia_input a);
      mia_view := mvia.reset view' |}).

End dispatch.

(** ** [as_polymorphic] ([polymorphic.h], [archive.h]) *)

(** [registry<Archive>::serialize(archive, object)] of a saving archive:
    the identifier registered for the dynamic type of the object is saved,
    then the method registered under the identifier is run. *)
Definition registry_save (host : byte_order) (saving_registry : registry.t ty)
    (obj : value) (a : lvmoa.t) : outcome * lvmoa.t :=
  match obj with
  | object dyn _ =>
      match class_name dyn with
      | Some info =>
          match registry.m_type_information_to_serialization_id saving_registry !! info with
          | None => (thrown undeclared_polymorphic_type_error, a)
          | Some id =>
              match registry.m_serialization_id_to_method saving_registry !! id with
              | None => (thrown undeclared_polymorphic_type_error, a)
              | Some method_type =>
                  let a1 := lvmoa.serialize (object_bytes host 8 id) a in
                  if dynamic_cast_ok method_type obj
                  then save host saving_registry method_type obj a1
                  else (thrown bad_cast, a1)
              end
          end
      | None => (ill_formed, a)
      end
  | _ => (ill_formed, a)
  end.

(** [serialize(Archive &, const polymorphic_wrapper<Type> &)], for the item
    [as_polymorphic(object)] with an object of static type [type]: the
    wrapper asserts that [type] derives from [polymorphic]; the overload
    exists for saving archives only, and does not test for null - the
    wrapper holds a reference. *)
Definition save_polymorphic_wrapper (host : byte_order) (saving_registry : registry.t ty)
    (type : ty) (obj : value) (a : lvmoa.t) : outcome * lvmoa.t :=
  if is_base_of polymorphic type then registry_save host saving_registry obj a
  else (ill_formed, a).

(** [out(as_polymorphic(object))] on a [memory_output_archive]. *)
Definition memory_output_archive_call_as_polymorphic (host : byte_order)
    (saving_registry : registry.t ty) (type : ty) (obj : value) (a : lvmoa.t)
    : outcome * lvmoa.t :=
  let '(o, a') := save_polymorphic_wrapper host saving_registry type obj a in
  (o, lvmoa.fit_vector a').

(** ** [register_types] ([registry.h]) *)

(** The archives of [builtin_archives], each with a registry of its own. *)
Inductive archive_type : Type :=
  | the_memory_view_input_archive
  | the_lazy_vector_memory_output_archive.

Definition builtin_archives : list archive_type :=
  [the_memory_view_input_archive; the_lazy_vector_memory_output_archive].

(** [registry<memory_view_input_archive>::get_instance()] and
    [registry<lazy_vector_memory_output_archive>::get_instance()]. *)
Record registries : Type := {
  loading_instance : registry.t ty;
  saving_instance : registry.t ty
}.

(** [register_type_to_archive<Archive>()]:
    [registry<Archive>::get_instance().add<Type, id>()], which is
    [add(id, typeid(Type).name(), make_serialization_method<Archive, Type>())].
    [None] stands for a program that does not compile: the loading method
    converts a [Type *] to a [polymorphic *], the saving method casts to
    [const Type &]. The [catch (...)] around the call is for a failed
    allocation, which the model does not have. *)
Definition register_type_to_archive (archive : archive_type) (type : ty) (id : Z)
    (rs : registries) : option registries :=
  match class_name type, archive with
  | Some info, the_memory_view_input_archive =>
      if is_base_of polymorphic type then
        Some {| loading_instance := registry.add id info type (loading_instance rs);
                saving_instance := saving_instance rs |}
      else None
  | Some info, the_lazy_vector_memory_output_archive =>
      Some {| loading_instance := loading_instance rs;
              saving_instance := registry.add id info type (saving_instance rs) |}
  | None, _ => None
  end.

(** [register_type_to_archives(archive_sequence<Archive, Archives...>)]. *)
Fixpoint register_type_to_archives (archives : list archive_type) (type : ty) (id : Z)
    (rs : registries) : option registries :=
  match archives with
  | [] => Some rs
  | archive :: archives' =>
      match register_type_to_archive archive type id rs with
      | Some rs' => register_type_to_archives archives' type id rs'
      | None => None
      end
  end.

(** The constructor [register_types(archive_sequence<Archives...>)] of
    [register_types<make_type<Type, id>, ExtraTypes...>]. The base class
    [register_types<ExtraTypes...>] is constructed first, by its default
    constructor, which delegates to [register_types(builtin_archives())];
    then the body registers [Type]. *)
Fixpoint register_types (archives : list archive_type) (types : list (ty * Z))
    (rs : registries) : option registries :=
  match types with
  | [] => Some rs
  | (type, id) :: extra_types =>
      match register_types builtin_archives extra_types rs with
      | Some rs' => register_type_to_archives archives type id rs'
      | None => None
      end
  end.

(** ** The two archives on one vector ([examples/archive.cpp]) *)

(** [std::vector<unsigned char> data; memory_input_archive in(data);
    memory_output_archive out(data);]: both archives point to [data]. The
    output archive counts the bytes in use in its own [m_size], set from
    [data.size()] by the constructor and advanced by every save; the input
    archive reads [data.data()] and [data.size()] anew in every call. *)
Module shared_vector.

Record t : Type := mk { data : list Z; out_m_size : nat }.

(** The three declarations, for a vector that holds [data]. *)
Definition make (data : list Z) : t := {| data := data; out_m_size := length data |}.

(** [out(items...)]. *)
Definition out_call (host : byte_order) (saving_registry : registry.t ty)
    (args : list (ty * value)) (s : t) : outcome * t :=
  let '(o, a') :=
    memory_output_archive_call host saving_registry args
      (lvmoa.mk (data s) (out_m_size s)) in
  (o, {| data := lvmoa.m_output a'; out_m_size := lvmoa.m_size a' |}).

(** [in(items...)]. *)
Definition in_call (host : byte_order) (key_less : ty -> value -> value -> bool)
    (unordered_insert : ty -> associative_traits -> value -> list value -> list value)
    (loading_registry : registry.t ty) (fuel : nat) (args : list (ty * value)) (s : t)
    : outcome * list value * t :=
  let '(o, targets, a') :=
    memory_input_archive_call host key_less unordered_insert loading_registry fuel args
      (memory_input_archive_make (data s)) in
  (o, targets, {| data := mia_input a'; out_m_size := out_m_size s |}).

End shared_vector.

(** ** What the round-trip law ranges over *)

(** [P] holds of every element. *)
Fixpoint all_items (P : value -> Prop) (vs : list value) : Prop :=
  match vs with
  | [] => True
  | v :: vs' => P v /\ all_items P vs'
  end.

(** [P] holds of every item at its type; the two lists have one length. *)
Fixpoint all_items2 (P : ty -> value -> Prop) (ts : list ty) (vs : list value)
    {struct vs} : Prop :=
  match vs, ts with
  | [], [] => True
  | v :: vs', t :: ts' => P t v /\ all_items2 P ts' vs'
  | _, _ => False
  end.

(** [y] may follow [x] in the iteration of an associative container: its
    key is not less, and it is greater when keys are unique. *)
Definition may_follow (less : value -> value -> bool) (c : associative_traits)
    (x y : value) : Prop :=
  less (key_of c y) (key_of c x) = false /\
  (unique_keys c = true -> less (key_of c x) (key_of c y) = true).

(** The elements are listed in key order. *)
Fixpoint key_ordered (less : value -> value -> bool) (c : associative_traits)
    (vs : list value) : Prop :=
  match vs with
  | [] => True
  | x :: vs' => all_items (may_follow less c x) vs' /\ key_ordered less c vs'
  end.

(** The nesting depth of a value: the recursion budget its load needs. *)
Fixpoint depth (v : value) : nat :=
  match v with
  | scalar _ => 1
  | items vs => S (fold_right Nat.max 0 (map depth vs))
  | pointer None => 1
  | pointer (Some obj) => S (depth obj)
  | object _ mvs => S (fold_right Nat.max 0 (map depth mvs))
  end%nat.

Section round_trip.

Variable host : byte_order.
Variable key_less : ty -> value -> value -> bool.
Variable unordered_insert : ty -> associative_traits -> value -> list value -> list value.
Variable saving_registry : registry.t ty.
Variable loading_registry : registry.t ty.

(** The class [dyn] is registered for both directions under one
    identifier, with the serialization methods made for [dyn] itself. *)
Definition registered (dyn : ty) : Prop :=
  match class_name dyn with
  | Some info =>
      match registry.m_type_information_to_serialization_id saving_registry !! info with
      | Some id =>
          0 <= id < 2 ^ 64 /\
          registry.m_serialization_id_to_method saving_registry !! id = Some dyn /\
          registry.m_serialization_id_to_method loading_registry !! id = Some dyn
      | None => False
      end
  | None => False
  end.

(** The values that come back as they are: a value of the type, without
    hash tables, in which
    - every scalar fits its size,
    - every container has less than [2^32] elements (and, on the
      contiguous path, less than [2^32] bytes of elements), and both the
      saving and the loading call of a resizable container compile,
    - associative containers are listed in key order,
    - no handle is empty,
    - a non-polymorphic handle holds an object of exactly its type,
    - a polymorphic handle holds an object of a registered class that
      derives from the type of the handle. *)
Fixpoint round_trippable (t : ty) (v : value) {struct v} : Prop :=
  match t, v with
  | fundamental n, scalar x
  | enumeration n, scalar x => 0 <= x < 256 ^ Z.of_nat n
  | resizable c e, items vs =>
      Z.of_nat (length vs) < 2 ^ 32 /\
      match resizable_call loading c e with
      | Some per_element => all_items (round_trippable e) vs
      | Some contiguous_fundamental =>
          Z.of_nat (length vs) * Z.of_nat (sizeof e) < 2 ^ 32 /\
          all_items (round_trippable e) vs
      | None => False
      end
  | associative c e, items vs =>
      Z.of_nat (length vs) < 2 ^ 32 /\
      all_items (round_trippable e) vs /\
      key_ordered (key_less e) c vs
  | array _ n e, items vs => length vs = n /\ all_items (round_trippable e) vs
  | pair t1 t2, items vs => all_items2 round_trippable [t1; t2] vs
  | tuple ts, items vs => all_items2 round_trippable ts vs
  | handle _ type, pointer (Some obj) =>
      if is_base_of polymorphic type then
        match obj with
        | object dyn _ =>
            registered dyn /\ dynamic_cast_ok type obj = true /\ round_trippable dyn obj
        | _ => False
        end
      else round_trippable type obj
  | class_ name bases ms, object dyn mvs =>
      dyn = class_ name bases ms /\ all_items2 round_trippable ms mvs
  | _, _ => False
  end.

(** The round trip of one value through the two user-facing archives:
    [out(v)] on an empty vector returns, and [in(x)] on the vector it
    leaves, for a value-initialised [x], returns with [x] being [v]
    itself. *)
Definition round_trip (t : ty) (v : value) : Prop :=
  exists a',
    memory_output_archive_call host saving_registry [(t, v)] (lvmoa.make []) = (normal, a') /\
    forall fuel, (depth v <= fuel)%nat ->
      exists a'',
        memory_input_archive_call host key_less unordered_insert loading_registry fuel
          [(t, default t)] (memory_input_archive_make (lvmoa.m_output a'))
        = (normal, [v], a'').

(** The bytes that saving [v] appends to the sink. *)
Definition saved_bytes (t : ty) (v : value) : list Z :=
  lvmoa.written (snd (save host saving_registry t v (lvmoa.make []))).

End round_trip.

(** ** Equality of values *)

(** [R] holds of the elements of two lists, pair by pair, and the lists
    have one length. *)
Fixpoint all_pairs (R : value -> value -> Prop) (xs ys : list value) {struct xs} : Prop :=
  match xs, ys with
  | [], [] => True
  | x :: xs', y :: ys' => R x y /\ all_pairs R xs' ys'
  | _, _ => False
  end.

(** The same, for items of the given types. *)
Fixpoint all_pairs2 (R : ty -> value -> value -> Prop) (ts : list ty)
    (xs ys : list value) {struct xs} : Prop :=
  match xs, ts, ys with
  | [], [], [] => True
  | x :: xs', t :: ts', y :: ys' => R t x y /\ all_pairs2 R ts' xs' ys'
  | _, _, _ => False
  end.

(** [P] holds of the members that a class declares: the first members of
    an object of the class or of a class derived from it. *)
Fixpoint all_members (P : ty -> value -> Prop) (ts : list ty) (vs : list value)
    {struct vs} : Prop :=
  match ts, vs with
  | [], _ => True
  | t :: ts', v :: vs' => P t v /\ all_members P ts' vs'
  | _ :: _, [] => False
  end.

(** The same, for the members of two objects. *)
Fixpoint all_member_pairs (R : ty -> value -> value -> Prop) (ts : list ty)
    (xs ys : list value) {struct xs} : Prop :=
  match ts, xs, ys with
  | [], _, _ => True
  | t :: ts', x :: xs', y :: ys' => R t x y /\ all_member_pairs R ts' xs' ys'
  | _, _, _ => False
  end.

(** [operator==] of a type, on the state that serialization sees:
    - scalars are equal when their bits are;
    - sequences, arrays and containers in key order are equal when they
      have one length and equal elements, in order ([std::equal]);
    - hash tables are equal when one lists the elements of the other, in
      any order ([std::is_permutation]);
    - pairs and tuples are equal component by component, objects of a
      class member by member, over the members the class declares;
    - owning handles are equal when both are empty, or both hold equal
      objects: objects of one dynamic type, equal at that type, behind a
      handle to a polymorphic class; objects equal at the static type of
      the handle otherwise. *)
Fixpoint equal (t : ty) (v1 v2 : value) {struct v1} : Prop :=
  match t, v1, v2 with
  | fundamental _, scalar x, scalar y
  | enumeration _, scalar x, scalar y => x = y
  | resizable _ e, items xs, items ys
  | associative _ e, items xs, items ys
  | array _ _ e, items xs, items ys => all_pairs (equal e) xs ys
  | unordered _ e, items xs, items ys =>
      exists ys', ys' ≡ₚ ys /\ all_pairs (equal e) xs ys'
  | pair t1 t2, items xs, items ys => all_pairs2 equal [t1; t2] xs ys
  | tuple ts, items xs, items ys => all_pairs2 equal ts xs ys
  | handle _ type, pointer None, pointer None => True
  | handle _ type, pointer (Some x), pointer (Some y) =>
      if is_base_of polymorphic type then
        match x, y with
        | object d1 _, object d2 _ => d1 = d2 /\ equal d1 x y
        | _, _ => False
        end
      else equal type x y
  | class_ _ _ ms, object _ xs, object _ ys => all_member_pairs equal ms xs ys
  | _, _, _ => False
  end.

(** [Container::key_type]: the first component of the element of a map,
    the element of a set. *)
Definition key_type (c : associative_traits) (e : ty) : option ty :=
  if is_map c then match e with pair k _ => Some k | _ => None end else Some e.

(** No element has a key equal to the key of an element before it. *)
Fixpoint keys_differ (key_eq : value -> value -> bool) (c : associative_traits)
    (vs : list value) : Prop :=
  match vs with
  | [] => True
  | x :: vs' =>
      all_items (fun y => key_eq (key_of c y) (key_of c x) = false) vs' /\
      keys_differ key_eq c vs'
  end.

Section covered_values.

Variable host : byte_order.
Variable key_less : ty -> value -> value -> bool.
Variable unordered_insert : ty -> associative_traits -> value -> list value -> list value.

(** [KeyEqual] of the hash table whose element type is given. *)
Variable key_equal : ty -> value -> value -> bool.

Variable saving_registry : registry.t ty.
Variable loading_registry : registry.t ty.

(** The values of a type that the round-trip law covers. A value of the
    type: every scalar fits its size, the call of every resizable container
    compiles, arrays, pairs and tuples have their number of elements, the
    elements of a map are pairs, a container in key order lists its
    elements in key order, a hash table with unique keys lists no key
    twice, an object is of its class or of a class derived from it and has
    the members of the class. And, in that value,
    - no handle is empty,
    - every handle to a polymorphic class holds an object of a class that
      is registered in both registries,
    - every container has less than [2^32] elements, and less than [2^32]
      bytes of elements on the contiguous path. *)
Fixpoint covered (t : ty) (v : value) {struct v} : Prop :=
  match t, v with
  | fundamental n, scalar x
  | enumeration n, scalar x => 0 <= x < 256 ^ Z.of_nat n
  | resizable c e, items vs =>
      Z.of_nat (length vs) < 2 ^ 32 /\
      match resizable_call loading c e with
      | Some per_element => all_items (covered e) vs
      | Some contiguous_fundamental =>
          Z.of_nat (length vs) * Z.of_nat (sizeof e) < 2 ^ 32 /\
          all_items (covered e) vs
      | None => False
      end
  | associative c e, items vs =>
      Z.of_nat (length vs) < 2 ^ 32 /\
      all_items (covered e) vs /\
      is_Some (key_type c e) /\
      key_ordered (key_less e) c vs
  | unordered c e, items vs =>
      Z.of_nat (length vs) < 2 ^ 32 /\
      all_items (covered e) vs /\
      is_Some (key_type c e) /\
      (unique_keys c = true -> keys_differ (key_equal e) c vs)
  | array _ n e, items vs => length vs = n /\ all_items (covered e) vs
  | pair t1 t2, items vs => all_items2 covered [t1; t2] vs
  | tuple ts, items vs => all_items2 covered ts vs
  | handle _ type, pointer (Some obj) =>
      if is_base_of polymorphic type then
        match obj with
        | object dyn _ =>
            registered saving_registry loading_registry dyn /\
            dynamic_cast_ok type obj = true /\
            covered dyn obj
        | _ => False
        end
      else covered type obj
  | class_ name bases ms, object dyn mvs =>
      is_base_of name dyn = true /\ all_members covered ms mvs
  | _, _ => False
  end.

(** The round trip of one value through the two user-facing archives, up
    to the equality of its type: [out(v)] on an empty vector returns, and
    [in(x)] on the vector it leaves, for a value-initialised [x], returns
    with an [x] equal to [v], and leaves the vector empty. *)
Definition round_trip_equal (t : ty) (v : value) : Prop :=
  exists a',
    memory_output_archive_call host saving_registry [(t, v)] (lvmoa.make []) = (normal, a') /\
    exists x,
      equal t x v /\
      forall fuel, (depth v <= fuel)%nat ->
        exists a'',
          memory_input_archive_call host key_less unordered_insert loading_registry fuel
            [(t, default t)] (memory_input_archive_make (lvmoa.m_output a'))
          = (normal, [x], a'') /\
          mia_input a'' = [].

End covered_values.

(** The archive has not run past its vector. *)
Definition fitted (a : lvmoa.t) : Prop :=
  lvmoa.m_size a = length (lvmoa.m_output a).

Definition within (a : lvmoa.t) : Prop :=
  (lvmoa.m_size a <= length (lvmoa.m_output a))%nat.

(** ** SHA-1, as the specification describes it

    The reference the identifier hash is compared with. It is written from
    the description of the algorithm (padding with [0x80], zeros and the
    64-bit big-endian length; big-endian words; the eighty-round compression
    function), not from [make_id]. *)

Module SHA1.

Definition word : Z := 2 ^ 32.

(** The [n] bytes of [x], most significant first. *)
Definition be_bytes (n : nat) (x : Z) : list Z := rev (le_bytes n x).

(** The number of zero bytes of the padding: the least [k] that makes
    [len + 1 + k + 8] a multiple of 64. *)
Definition zeros (len : nat) : nat := ((64 - (len + 9) mod 64) mod 64)%nat.

Definition pad (msg : list Z) : list Z :=
  msg ++ [0x80] ++ repeat 0 (zeros (length msg))
      ++ be_bytes 8 (8 * Z.of_nat (length msg)).

(** Four bytes as a big-endian word. *)
Definition be_word (b0 b1 b2 b3 : Z) : Z :=
  Z.lor (Z.lor (Z.lor (Z.shiftl b0 24) (Z.shiftl b1 16)) (Z.shiftl b2 8)) b3.

Fixpoint words (bs : list Z) : list Z :=
  match bs with
  | b0 :: b1 :: b2 :: b3 :: bs' => be_word b0 b1 b2 b3 :: words bs'
  | _ => []
  end.

(** Circular left shift of a 32-bit word. *)
Definition rotl (n : Z) (x : Z) : Z :=
  Z.lor ((x * 2 ^ n) mod word) (x / 2 ^ (32 - n)).

(** Bitwise complement of a 32-bit word. *)
Definition complement (x : Z) : Z := word - 1 - x.

Definition f (t : nat) (b c d : Z) : Z :=
  if (t <? 20)%nat then Z.lor (Z.land b c) (Z.land (complement b) d)
  else if (t <? 40)%nat then Z.lxor (Z.lxor b c) d
  else if (t <? 60)%nat then Z.lor (Z.lor (Z.land b c) (Z.land b d)) (Z.land c d)
  else Z.lxor (Z.lxor b c) d.

Definition K (t : nat) : Z :=
  if (t <? 20)%nat then 0x5A827999
  else if (t <? 40)%nat then 0x6ED9EBA1
  else if (t <? 60)%nat then 0x8F1BBCDC
  else 0xCA62C1D6.

(** The message schedule: [W_t] is the word of the block for [t < 16] and
    [rotl 1 (W_(t-3) xor W_(t-8) xor W_(t-14) xor W_(t-16))] after. *)
Fixpoint extend (n : nat) (w : list Z) : list Z :=
  match n with
  | O => w
  | S n' =>
      let t := length w in
      extend n'
        (w ++ [rotl 1 (Z.lxor (Z.lxor (Z.lxor (nth (t - 3) w 0) (nth (t - 8) w 0))
                                      (nth (t - 14) w 0))
                              (nth (t - 16) w 0))])
  end.

Definition schedule (block : list Z) : list Z := extend 64 block.

Definition state : Type := Z * Z * Z * Z * Z.

Definition H0 : state :=
  (0x67452301, 0xEFCDAB89, 0x98BADCFE, 0x10325476, 0xC3D2E1F0).

Definition step (w : list Z) (s : state) (t : nat) : state :=
  let '(a, b, c, d, e) := s in
  ((rotl 5 a + f t b c d + e + K t + nth t w 0) mod word, a, rotl 30 b, c, d).

Definition compress (h : state) (block : list Z) : state :=
  let '(h0, h1, h2, h3, h4) := h in
  let '(a, b, c, d, e) := fold_left (step (schedule block)) (seq 0 80) h in
  ((h0 + a) mod word, (h1 + b) mod word, (h2 + c) mod word,
   (h3 + d) mod word, (h4 + e) mod word).

(** The first [n] blocks of sixteen words. *)
Fixpoint blocks (n : nat) (ws : list Z) : list (list Z) :=
  match n with
  | O => []
  | S n' => firstn 16 ws :: blocks n' (skipn 16 ws)
  end.

(** The hash state after the whole padded message. *)
Definition final_state (msg : list Z) : state :=
  let ws := words (pad msg) in
  fold_left compress (blocks (length ws / 16) ws) H0.

(** The twenty bytes of the digest. *)
Definition digest (msg : list Z) : list Z :=
  let '(h0, h1, h2, h3, h4) := final_state msg in
  be_bytes 4 h0 ++ be_bytes 4 h1 ++ be_bytes 4 h2 ++ be_bytes 4 h3 ++ be_bytes 4 h4.

End SHA1.

(** The bytes of an ASCII name. *)
Definition ascii_bytes (name : string) : list Z :=
  map (fun c => Z.of_N (N_of_ascii c)) (String.list_ascii_of_string name).

(** Every character of the name is an ASCII character. *)
Definition is_ascii (name : string) : Prop :=
  Forall (fun b => 0 <= b < 128) (ascii_bytes name).

(** * Properties *)

(** ** Object representation *)

Lemma length_le_bytes (n : nat) (x : Z) : length (le_bytes n x) = n.
Proof. revert x; induction n as [|n IH]; intros x; simpl; [reflexivity | by rewrite IH]. Qed.

Lemma le_value_le_bytes (n : nat) (x : Z) :
  le_value (le_bytes n x) = x mod 256 ^ Z.of_nat n.
Proof.
  revert x; induction n as [|n IH]; intros x.
  - simpl. by rewrite Z.mod_1_r.
  - cbn [le_bytes le_value]. rewrite IH, Nat2Z.inj_succ, Z.pow_succ_r by lia.
    rewrite Z.rem_mul_r by lia. reflexivity.
Qed.

Lemma length_object_bytes (host : byte_order) (n : nat) (x : Z) :
  length (object_bytes host n x) = n.
Proof. destruct host; simpl; rewrite ?length_rev; apply length_le_bytes. Qed.

Lemma object_value_object_bytes (host : byte_order) (n : nat) (x : Z) :
  object_value host (object_bytes host n x) = x mod 256 ^ Z.of_nat n.
Proof. destruct host; simpl; rewrite ?rev_involutive; apply le_value_le_bytes. Qed.

Lemma object_value_small (host : byte_order) (n : nat) (x : Z) :
  0 <= x < 256 ^ Z.of_nat n ->
  object_value host (object_bytes host n x) = x.
Proof. intros Hx. rewrite object_value_object_bytes. by apply Z.mod_small. Qed.

Lemma size_type_small (x : Z) : 0 <= x < 2 ^ 32 -> size_type x = x.
Proof. intros Hx. unfold size_type, detail.u32. by apply Z.mod_small. Qed.

Lemma size_type_range (x : Z) : 0 <= size_type x < 2 ^ 32.
Proof. unfold size_type, detail.u32. apply Z.mod_pos_bound. lia. Qed.

(** ** The saving archive appends *)

Lemma vector_resize_fitted {A : Type} (d : A) (v : list A) :
  vector_resize d (length v) v = v.
Proof.
  unfold vector_resize. rewrite firstn_all, Nat.sub_diag. simpl. apply app_nil_r.
Qed.

Lemma vector_resize_length {A : Type} (d : A) (n : nat) (v : list A) :
  length (vector_resize d n v) = n.
Proof. unfold vector_resize. rewrite length_app, length_take, repeat_length. lia. Qed.

Lemma vector_resize_prefix {A : Type} (d : A) (n : nat) (v : list A) :
  (n <= length v)%nat -> vector_resize d n v = firstn n v.
Proof.
  intros Hn. unfold vector_resize. replace (n - length v)%nat with 0%nat by lia.
  simpl. apply app_nil_r.
Qed.

Lemma serialize_appends (bs : list Z) (a : lvmoa.t) :
  within a ->
  within (lvmoa.serialize bs a) /\
  lvmoa.written (lvmoa.serialize bs a) = lvmoa.written a ++ bs.
Proof.
  destruct a as [out m]. unfold within, lvmoa.written, lvmoa.serialize.
  cbn [lvmoa.m_output lvmoa.m_size]. intros Hm.
  assert (Hgrow : (m + length bs <= (m + length bs) * 3 / 2)%nat)
    by (apply Nat.div_le_lower_bound; lia).
  set (out' := if (length out <? m + length bs)%nat
               then vector_resize 0 ((m + length bs) * 3 / 2)%nat out else out).
  assert (Hout' : (m + length bs <= length out')%nat /\ firstn m out' = firstn m out).
  { subst out'. destruct (Nat.ltb_spec (length out) (m + length bs)).
    - rewrite vector_resize_length. split; [done|].
      unfold vector_resize. rewrite firstn_app, firstn_firstn.
      replace (m - length (firstn _ out))%nat with 0%nat
        by (rewrite length_take; lia).
      rewrite Nat.min_l by lia. simpl. apply app_nil_r.
    - done. }
  destruct Hout' as [Hlen Hpre]. unfold copy_n_at. split.
  - rewrite !length_app, length_take, length_drop. lia.
  - rewrite app_assoc, firstn_app.
    rewrite length_app, length_take, Nat.min_l by lia.
    rewrite Nat.sub_diag. simpl. rewrite app_nil_r.
    rewrite firstn_all2 by (rewrite length_app, length_take; lia).
    by rewrite Hpre.
Qed.

Lemma within_make (output : list Z) : within (lvmoa.make output).
Proof. unfold within, lvmoa.make. simpl. lia. Qed.

Lemma written_make (output : list Z) : lvmoa.written (lvmoa.make output) = output.
Proof. unfold lvmoa.written, lvmoa.make. simpl. apply firstn_all. Qed.

Lemma fit_vector_written (a : lvmoa.t) :
  within a ->
  lvmoa.fit_vector a
  = {| lvmoa.m_output := lvmoa.written a; lvmoa.m_size := length (lvmoa.written a) |}.
Proof.
  destruct a as [out m]. unfold within, lvmoa.fit_vector, lvmoa.written. simpl.
  intros Hm. rewrite vector_resize_prefix by done. rewrite length_take.
  f_equal. lia.
Qed.

Lemma fit_vector_fitted (a : lvmoa.t) : fitted a -> lvmoa.fit_vector a = a.
Proof.
  destruct a as [out m]. unfold fitted, lvmoa.fit_vector. simpl. intros ->.
  by rewrite vector_resize_fitted.
Qed.

(** ** Induction on values *)

Lemma value_ind' (P : value -> Prop) :
  (forall x, P (scalar x)) ->
  (forall vs, Forall P vs -> P (items vs)) ->
  P (pointer None) ->
  (forall obj, P obj -> P (pointer (Some obj))) ->
  (forall dyn mvs, Forall P mvs -> P (object dyn mvs)) ->
  forall v, P v.
Proof.
  intros Hscalar Hitems Hnull Hptr Hobj.
  fix IH 1. intros [x | vs | [obj |] | dyn mvs].
  - apply Hscalar.
  - apply Hitems. induction vs as [| v vs IHvs]; constructor; [apply IH | exact IHvs].
  - apply Hptr, IH.
  - apply Hnull.
  - apply Hobj. induction mvs as [| v vs IHvs]; constructor; [apply IH | exact IHvs].
Qed.

(** ** Saving appends to the sink, whatever the state of the archive *)

(** [f] ends with outcome [o] after appending [w]. *)
Definition appends (f : lvmoa.t -> outcome * lvmoa.t) (o : outcome) (w : list Z) : Prop :=
  forall a, within a ->
    exists a', f a = (o, a') /\ within a' /\ lvmoa.written a' = lvmoa.written a ++ w.

Lemma appends_ret (o : outcome) : appends (fun a => (o, a)) o [].
Proof. intros a Ha. exists a. by rewrite app_nil_r. Qed.

Lemma appends_serialize (bs : list Z) :
  appends (fun a => (normal, lvmoa.serialize bs a)) normal bs.
Proof.
  intros a Ha. destruct (serialize_appends bs a Ha) as [H1 H2]. eauto.
Qed.

Lemma appends_then (f g : lvmoa.t -> outcome * lvmoa.t) (o : outcome) (w1 w2 : list Z) :
  appends f normal w1 -> appends g o w2 ->
  appends (fun a => match f a with (normal, a') => g a' | r => r end) o (w1 ++ w2).
Proof.
  intros Hf Hg a Ha. destruct (Hf a Ha) as (a1 & -> & Ha1 & Hw1).
  destruct (Hg a1 Ha1) as (a2 & -> & Ha2 & Hw2).
  exists a2. by rewrite Hw2, Hw1, app_assoc.
Qed.

Lemma appends_stop (f g : lvmoa.t -> outcome * lvmoa.t) (o : outcome) (w : list Z) :
  appends f o w -> o <> normal ->
  appends (fun a => match f a with (normal, a') => g a' | r => r end) o w.
Proof.
  intros Hf Ho a Ha. destruct (Hf a Ha) as (a1 & -> & Ha1 & Hw1).
  exists a1. by destruct o.
Qed.

Lemma appends_after (bs : list Z) (g : lvmoa.t -> outcome * lvmoa.t) (o : outcome) (w : list Z) :
  appends g o w -> appends (fun a => g (lvmoa.serialize bs a)) o (bs ++ w).
Proof.
  intros Hg a Ha. destruct (serialize_appends bs a Ha) as [H1 H2].
  destruct (Hg _ H1) as (a2 & -> & Ha2 & Hw2).
  exists a2. by rewrite Hw2, H2, app_assoc.
Qed.

Lemma appends_ext (f g : lvmoa.t -> outcome * lvmoa.t) (o : outcome) (w : list Z) :
  (forall a, g a = f a) -> appends f o w -> appends g o w.
Proof. intros E Hf a Ha. rewrite E. by apply Hf. Qed.

Lemma appends_unique (f : lvmoa.t -> outcome * lvmoa.t) (o o' : outcome) (w w' : list Z) :
  appends f o w -> appends f o' w' -> o = o' /\ w = w'.
Proof.
  intros H1 H2.
  destruct (H1 _ (within_make [])) as (a1 & E1 & _ & W1).
  destruct (H2 _ (within_make [])) as (a2 & E2 & _ & W2).
  rewrite E1 in E2. injection E2 as -> ->.
  rewrite written_make in W1, W2. simpl in *. by rewrite <- W1, <- W2.
Qed.

(** Either a step ends normally, and then the rest runs, or it ends the
    whole sequence. *)
Lemma appends_step (f g : lvmoa.t -> outcome * lvmoa.t) :
  (exists o w, appends f o w) ->
  (exists o w, appends g o w) ->
  exists o w, appends (fun a => match f a with (normal, a') => g a' | r => r end) o w.
Proof.
  intros (o1 & w1 & H1) (o2 & w2 & H2).
  destruct (decide (o1 = normal)) as [-> | Hne].
  - exists o2, (w1 ++ w2). by apply appends_then.
  - exists o1, w1. by apply appends_stop.
Qed.

Section save_frame.

Variable host : byte_order.
Variable saving_registry : registry.t ty.

Lemma save_each_appends (sv : value -> lvmoa.t -> outcome * lvmoa.t) (vs : list value) :
  Forall (fun v => exists o w, appends (sv v) o w) vs ->
  exists o w, appends (save_each sv vs) o w.
Proof.
  induction 1 as [| v vs Hv _ IH].
  - exists normal, []. apply appends_ret.
  - destruct (appends_step _ _ Hv IH) as (o & w & H). exists o, w.
    eapply appends_ext; [| exact H]. reflexivity.
Qed.

Lemma save_items_appends (sv : ty -> value -> lvmoa.t -> outcome * lvmoa.t) (vs : list value) :
  Forall (fun v => forall t, exists o w, appends (sv t v) o w) vs ->
  forall ts, exists o w, appends (save_items sv ts vs) o w.
Proof.
  induction 1 as [| v vs Hv _ IH]; intros [| t ts].
  - exists normal, []. apply appends_ret.
  - exists ill_formed, []. apply appends_ret.
  - exists ill_formed, []. apply appends_ret.
  - destruct (appends_step _ _ (Hv t) (IH ts)) as (o & w & H). exists o, w.
    eapply appends_ext; [| exact H]. reflexivity.
Qed.

Lemma save_members_appends (sv : ty -> value -> lvmoa.t -> outcome * lvmoa.t) (vs : list value) :
  Forall (fun v => forall t, exists o w, appends (sv t v) o w) vs ->
  forall ts, exists o w, appends (save_members sv ts vs) o w.
Proof.
  induction 1 as [| v vs Hv _ IH]; intros [| t ts].
  - exists normal, []. apply appends_ret.
  - exists ill_formed, []. apply appends_ret.
  - exists normal, []. apply appends_ret.
  - destruct (appends_step _ _ (Hv t) (IH ts)) as (o & w & H). exists o, w.
    eapply appends_ext; [| exact H]. reflexivity.
Qed.

Local Ltac trivial_appends o :=
  exists o, []; apply appends_ret.

Local Ltac prefix_appends H :=
  let o := fresh "o" in let w := fresh "w" in let Hw := fresh "Hw" in
  destruct H as (o & w & Hw);
  eexists o, (_ ++ w); eapply appends_ext; [| eapply appends_after; exact Hw];
  reflexivity.

(** Every save ends with an outcome and an appended byte string that do
    not depend on the archive it is given. *)
Lemma save_appends (v : value) :
  forall t, exists o w, appends (save host saving_registry t v) o w.
Proof.
  induction v as [x | vs IH | | obj IH | dyn mvs IH] using value_ind'; intros t.
  - destruct t; try (trivial_appends ill_formed);
      (eexists normal, _; eapply appends_ext; [| apply appends_serialize]; reflexivity).
  - assert (Heach : forall e, exists o w, appends (save_each (save host saving_registry e) vs) o w).
    { intros e. apply save_each_appends. eapply Forall_impl; [exact IH |]. intros v Hv. apply Hv. }
    assert (Hitems : forall ts, exists o w, appends (save_items (save host saving_registry) ts vs) o w).
    { intros ts. apply save_items_appends. exact IH. }
    destruct t as [n | n | c e | c e | c e | k n e | t1 t2 | ts | k type | name bases ms];
      try (trivial_appends ill_formed).
    + (* resizable *)
      cbn [save]. destruct (select_resizable saving c e) as [[|] |].
      * destruct (lvalue_items c); [| trivial_appends ill_formed].
        prefix_appends (Heach e).
      * destruct (size_type (Z.of_nat (length vs)) =? 0) eqn:Hsize.
        -- eexists normal, _. eapply appends_ext; [| apply appends_serialize].
           intros a. reflexivity.
        -- destruct (storage_bytes host (sizeof e) vs) as [data |] eqn:Hdata.
           ++ eexists normal, (_ ++ _). eapply appends_ext;
                [| eapply appends_after; apply appends_serialize].
              intros a. reflexivity.
           ++ eexists ill_formed, (_ ++ []). eapply appends_ext;
                [| eapply appends_after; apply (appends_ret ill_formed)].
              intros a. reflexivity.
      * trivial_appends ill_formed.
    + (* associative *)
      cbn [save]. prefix_appends (Heach e).
    + (* unordered *)
      cbn [save]. prefix_appends (Heach e).
    + (* array *)
      cbn [save]. destruct (length vs =? n)%nat.
      * apply Heach.
      * trivial_appends ill_formed.
    + apply Hitems.
    + apply Hitems.
  - destruct t; try (trivial_appends ill_formed).
    trivial_appends (thrown attempt_to_serialize_null_pointer_error).
  - destruct t as [n | n | c e | c e | c e | k n e | t1 t2 | ts | k type | name bases ms];
      try (trivial_appends ill_formed).
    cbn [save]. destruct (is_base_of polymorphic type); [| apply IH].
    destruct obj as [x | vs | p | dyn mvs]; try (trivial_appends ill_formed).
    destruct (class_name dyn) as [info |]; [| trivial_appends ill_formed].
    destruct (registry.m_type_information_to_serialization_id saving_registry !! info)
      as [id |]; [| trivial_appends (thrown undeclared_polymorphic_type_error)].
    destruct (registry.m_serialization_id_to_method saving_registry !! id)
      as [method_type |]; [| trivial_appends (thrown undeclared_polymorphic_type_error)].
    destruct (dynamic_cast_ok method_type (object dyn mvs)).
    + prefix_appends (IH method_type).
    + eexists (thrown bad_cast), (_ ++ []). eapply appends_ext;
        [| eapply appends_after; apply (appends_ret (thrown bad_cast))].
      reflexivity.
  - destruct t as [n | n | c e | c e | c e | k n e | t1 t2 | ts | k type | name bases ms];
      try (trivial_appends ill_formed).
    cbn [save]. apply save_members_appends. exact IH.
Qed.

End save_frame.

(** ** Reading from the view *)

(** The bytes [w] lie in [input] at offset [off]. *)
Definition occurs (w : list Z) (off : nat) (input : list Z) : Prop :=
  exists pre rest, input = pre ++ w ++ rest /\ off = length pre.

(** [ld] returns [v] after consuming exactly [w], wherever [w] lies. *)
Definition reads {A : Type} (ld : mvia.t -> outcome * A * mvia.t) (w : list Z) (v : A) : Prop :=
  forall input off, occurs w off input ->
    ld (mvia.mk input off) = (normal, v, mvia.mk input (off + length w)).

Lemma occurs_app (w1 w2 : list Z) (off : nat) (input : list Z) :
  occurs (w1 ++ w2) off input ->
  occurs w1 off input /\ occurs w2 (off + length w1) input.
Proof.
  intros (pre & rest & -> & ->). split.
  - exists pre, (w2 ++ rest). by rewrite <- app_assoc.
  - exists (pre ++ w1), rest. rewrite length_app. split; [| done].
    by rewrite <- !app_assoc.
Qed.

Lemma occurs_nil (off : nat) (input : list Z) :
  (off <= length input)%nat -> occurs [] off input.
Proof.
  intros H. exists (firstn off input), (skipn off input). simpl.
  rewrite firstn_skipn, length_take. split; [done | lia].
Qed.

Lemma occurs_bound (w : list Z) (off : nat) (input : list Z) :
  occurs w off input -> (off + length w <= length input)%nat.
Proof. intros (pre & rest & -> & ->). rewrite !length_app. lia. Qed.

Lemma serialize_occurs (w : list Z) (off : nat) (input : list Z) :
  occurs w off input ->
  mvia.serialize (length w) (mvia.mk input off)
  = (inr w, mvia.mk input (off + length w)).
Proof.
  intros (pre & rest & -> & ->). unfold mvia.serialize, mvia.m_size.
  cbn [mvia.m_input mvia.m_offset].
  destruct (Nat.ltb_spec (length (pre ++ w ++ rest)) (length w + length pre)) as [H | _].
  - rewrite !length_app in H. lia.
  - by rewrite drop_app_length, take_app_length.
Qed.

Lemma reads_scalar (host : byte_order) (n : nat) (x : Z) (target : value) :
  0 <= x < 256 ^ Z.of_nat n ->
  reads (load_scalar host n target) (object_bytes host n x) (scalar x).
Proof.
  intros Hx input off Hocc. unfold load_scalar.
  pose proof (serialize_occurs _ _ _ Hocc) as E.
  rewrite length_object_bytes in E |- *. rewrite E.
  by rewrite object_value_small.
Qed.

Lemma reads_nil {A : Type} (v : A) : reads (fun a => (normal, v, a)) [] v.
Proof. intros input off _. simpl. by rewrite Nat.add_0_r. Qed.

(** Sequencing two reads. *)
Lemma reads_then {A B C : Type} (ld1 : mvia.t -> outcome * A * mvia.t)
    (ld2 : mvia.t -> outcome * B * mvia.t) (k : A -> B -> C)
    (ld : mvia.t -> outcome * C * mvia.t) (w1 w2 : list Z) (v1 : A) (v2 : B) :
  reads ld1 w1 v1 -> reads ld2 w2 v2 ->
  (forall a a1 a2, ld1 a = (normal, v1, a1) -> ld2 a1 = (normal, v2, a2) ->
                   ld a = (normal, k v1 v2, a2)) ->
  reads ld (w1 ++ w2) (k v1 v2).
Proof.
  intros H1 H2 Hld input off Hocc.
  destruct (occurs_app _ _ _ _ Hocc) as [O1 O2].
  rewrite length_app, Nat.add_assoc.
  eapply Hld; [apply H1, O1 | apply H2, O2].
Qed.

(** ** Overload resolution *)

Lemma select_saving_of_loading (c : container_traits) (e : ty) (ov : resizable_overload) :
  select_resizable loading c e = Some ov -> select_resizable saving c e = Some ov.
Proof.
  unfold select_resizable, per_element_guard, contiguous_guard.
  destruct c as [[] [] ?]; destruct e as [| | | | | [] | | | |]; simpl; congruence.
Qed.

Lemma select_contiguous_scalar (d : direction) (c : container_traits) (e : ty) :
  select_resizable d c e = Some contiguous_fundamental ->
  is_fundamental e || is_enum e = true.
Proof.
  unfold select_resizable, per_element_guard, contiguous_guard.
  destruct d; destruct c as [[] [] ?]; destruct e as [| | | | | [] | | | |]; simpl; congruence.
Qed.

Lemma resizable_call_compiles (d : direction) (c : container_traits) (e : ty)
    (ov : resizable_overload) :
  resizable_call d c e = Some ov ->
  select_resizable d c e = Some ov /\ (ov = per_element -> lvalue_items c = true).
Proof.
  unfold resizable_call. destruct (select_resizable d c e) as [[|] |]; [| | done].
  - destruct (lvalue_items c); [| done]. by intros [= <-].
  - by intros [= <-].
Qed.

(** ** Associative containers in key order *)

Lemma all_items_Forall (P : value -> Prop) (vs : list value) :
  all_items P vs <-> Forall P vs.
Proof.
  induction vs as [| v vs IH]; simpl.
  - split; [constructor | done].
  - rewrite Forall_cons. by rewrite IH.
Qed.

Lemma container_insert_last (less : value -> value -> bool) (c : associative_traits)
    (v : value) (l : list value) :
  Forall (fun x => may_follow less c x v) l ->
  container_insert less c v l = l ++ [v].
Proof.
  induction 1 as [| y l [Hnot Hlt] _ IH]; simpl; [done |].
  rewrite Hnot. destruct (unique_keys c); simpl.
  - rewrite Hlt by done. simpl. by rewrite IH.
  - by rewrite IH.
Qed.

Lemma key_ordered_before (less : value -> value -> bool) (c : associative_traits)
    (l1 l2 : list value) (x : value) :
  key_ordered less c (l1 ++ x :: l2) ->
  Forall (fun y => may_follow less c y x) l1.
Proof.
  induction l1 as [| y l1 IH]; simpl; [constructor |].
  intros [Hy Hrest]. constructor; [| by apply IH].
  apply all_items_Forall in Hy. rewrite Forall_app, Forall_cons in Hy. tauto.
Qed.

(** ** Contiguous storage *)

Section storage.

Variable host : byte_order.
Variable key_less : ty -> value -> value -> bool.
Variable unordered_insert : ty -> associative_traits -> value -> list value -> list value.
Variable saving_registry : registry.t ty.
Variable loading_registry : registry.t ty.

Lemma storage_round_trip (e : ty) (vs : list value) :
  is_fundamental e || is_enum e = true ->
  all_items (round_trippable key_less saving_registry loading_registry e) vs ->
  exists data,
    storage_bytes host (sizeof e) vs = Some data /\
    length data = (length vs * sizeof e)%nat /\
    forall tail, storage_values host (sizeof e) (length vs) (data ++ tail) = vs.
Proof.
  intros He. induction vs as [| v vs IH]; intros Hvs.
  - exists []. by repeat split.
  - destruct Hvs as [Hv Hvs]. destruct (IH Hvs) as (data & Hdata & Hlen & Hval).
    assert (exists x, v = scalar x /\ 0 <= x < 256 ^ Z.of_nat (sizeof e)) as (x & -> & Hx).
    { destruct e; try discriminate; destruct v; simpl in Hv; try contradiction; eauto. }
    exists (object_bytes host (sizeof e) x ++ data). cbn [storage_bytes]. rewrite Hdata.
    split; [done |]. split.
    + rewrite length_app, length_object_bytes, Hlen. simpl. lia.
    + intros tail. cbn [length storage_values]. rewrite <- app_assoc.
      rewrite take_app_length' by (by rewrite length_object_bytes).
      rewrite drop_app_length' by (by rewrite length_object_bytes).
      by rewrite Hval, object_value_small.
Qed.

Lemma storage_default (e : ty) (n : nat) :
  is_fundamental e || is_enum e = true ->
  exists zeros,
    storage_bytes host (sizeof e) (repeat (default e) n) = Some zeros /\
    length zeros = (n * sizeof e)%nat.
Proof.
  intros He. assert (default e = scalar 0) as -> by (by destruct e).
  induction n as [| n (zeros & Hz & Hlen)].
  - by exists [].
  - exists (object_bytes host (sizeof e) 0 ++ zeros). cbn [repeat storage_bytes].
    rewrite Hz, length_app, length_object_bytes, Hlen. split; [done | simpl; lia].
Qed.

End storage.

(** ** The round trip of a value *)

Section round_trip_proof.

Variable host : byte_order.
Variable key_less : ty -> value -> value -> bool.
Variable unordered_insert : ty -> associative_traits -> value -> list value -> list value.
Variable saving_registry : registry.t ty.
Variable loading_registry : registry.t ty.

Local Abbreviation sv := (save host saving_registry).
Local Abbreviation ld := (load host key_less unordered_insert loading_registry).
Local Abbreviation rt := (round_trippable key_less saving_registry loading_registry).

(** The value [v] makes the trip at every type at which the law covers it:
    its save returns after appending some bytes [w], and a load with enough
    fuel reads [v] back from [w] into a value-initialised target. *)
Definition trips (v : value) : Prop :=
  forall t, rt t v ->
    exists w, appends (sv t v) normal w /\
      forall fuel, (depth v <= fuel)%nat -> reads (ld fuel t (default t)) w v.

Lemma each_trips (e : ty) (vs : list value) :
  Forall trips vs -> all_items (rt e) vs ->
  exists w, appends (save_each (sv e) vs) normal w /\
    forall fuel, Forall (fun v => (depth v <= fuel)%nat) vs ->
      reads (load_each (ld fuel e) (repeat (default e) (length vs))) w vs.
Proof.
  induction 1 as [| v vs Hv _ IH]; intros Hall.
  - exists []. split; [apply appends_ret |]. intros fuel _. apply reads_nil.
  - destruct Hall as [Hrt Hall]. destruct (Hv e Hrt) as (w1 & A1 & R1).
    destruct (IH Hall) as (w2 & A2 & R2). exists (w1 ++ w2). split.
    + eapply appends_ext; [| exact (appends_then _ _ _ _ _ A1 A2)]. reflexivity.
    + intros fuel Hfuel. apply Forall_cons in Hfuel as [Hf1 Hf2].
      eapply (reads_then _ _ cons); [exact (R1 fuel Hf1) | exact (R2 fuel Hf2) |].
      intros a a1 a2 E1 E2. cbn [length repeat load_each]. by rewrite E1, E2.
Qed.

Lemma items_trips (vs : list value) :
  Forall trips vs -> forall ts, all_items2 rt ts vs ->
  exists w,
    appends (save_items sv ts vs) normal w /\
    appends (save_members sv ts vs) normal w /\
    forall fuel, Forall (fun v => (depth v <= fuel)%nat) vs ->
      reads (load_items (ld fuel) ts (map default ts)) w vs /\
      reads (load_members (ld fuel) ts (map default ts)) w vs.
Proof.
  induction 1 as [| v vs Hv _ IH]; intros [| t ts] Hall; try contradiction.
  - exists []. repeat split; try apply appends_ret; apply reads_nil.
  - destruct Hall as [Hrt Hall]. destruct (Hv t Hrt) as (w1 & A1 & R1).
    destruct (IH ts Hall) as (w2 & A2 & A2' & R2). exists (w1 ++ w2).
    split; [| split].
    + eapply appends_ext; [| exact (appends_then _ _ _ _ _ A1 A2)]. reflexivity.
    + eapply appends_ext; [| exact (appends_then _ _ _ _ _ A1 A2')]. reflexivity.
    + intros fuel Hfuel. apply Forall_cons in Hfuel as [Hf1 Hf2].
      destruct (R2 fuel Hf2) as [R2i R2m]. split.
      * eapply (reads_then _ _ cons); [exact (R1 fuel Hf1) | exact R2i |].
        intros a a1 a2 E1 E2. cbn [map load_items]. by rewrite E1, E2.
      * eapply (reads_then _ _ cons); [exact (R1 fuel Hf1) | exact R2m |].
        intros a a1 a2 E1 E2. cbn [map load_members]. by rewrite E1, E2.
Qed.

Lemma inserting_trips (e : ty) (c : associative_traits) (todo : list value) :
  Forall trips todo -> all_items (rt e) todo ->
  forall done, key_ordered (key_less e) c (done ++ todo) ->
  exists w, appends (save_each (sv e) todo) normal w /\
    forall fuel, Forall (fun v => (depth v <= fuel)%nat) todo ->
      reads (load_inserting (ld fuel e (default e)) (container_insert (key_less e) c)
               (length todo) done) w (done ++ todo).
Proof.
  induction 1 as [| v todo Hv _ IH]; intros Hall done Hord.
  - exists []. split; [apply appends_ret |]. intros fuel _.
    rewrite app_nil_r. apply reads_nil.
  - destruct Hall as [Hrt Hall]. destruct (Hv e Hrt) as (w1 & A1 & R1).
    assert (Hlast : container_insert (key_less e) c v done = done ++ [v])
      by (eapply container_insert_last, key_ordered_before; exact Hord).
    assert (Hord' : key_ordered (key_less e) c ((done ++ [v]) ++ todo))
      by (by rewrite <- app_assoc).
    destruct (IH Hall _ Hord') as (w2 & A2 & R2). exists (w1 ++ w2). split.
    + eapply appends_ext; [| exact (appends_then _ _ _ _ _ A1 A2)]. reflexivity.
    + intros fuel Hfuel. apply Forall_cons in Hfuel as [Hf1 Hf2].
      replace (done ++ v :: todo) with ((done ++ [v]) ++ todo) by (by rewrite <- app_assoc).
      eapply (reads_then _ _ (fun _ l => l)); [exact (R1 fuel Hf1) | exact (R2 fuel Hf2) |].
      intros a a1 a2 E1 E2. cbn [length load_inserting]. by rewrite E1, Hlast, E2.
Qed.

Lemma depth_items_fuel (vs : list value) (fuel : nat) :
  (S (fold_right Nat.max 0 (map depth vs)) <= S fuel)%nat ->
  Forall (fun v => (depth v <= fuel)%nat) vs.
Proof.
  intros H. apply Nat.succ_le_mono in H.
  induction vs as [| v vs IH]; [constructor |]. simpl in H.
  constructor; [lia | apply IH; lia].
Qed.

Lemma dynamic_cast_self (dyn : ty) (info : string) (mvs : list value) :
  class_name dyn = Some info -> dynamic_cast_ok dyn (object dyn mvs) = true.
Proof.
  destruct dyn; try discriminate. intros [= <-]. simpl.
  by rewrite bool_decide_eq_true_2.
Qed.

Lemma resize_empty {A : Type} (d : A) (n : nat) :
  vector_resize d (Z.to_nat (Z.of_nat n)) [] = repeat d n.
Proof. unfold vector_resize. rewrite Nat2Z.id, firstn_nil, Nat.sub_0_r. done. Qed.

Lemma prefix_range (n : nat) : Z.of_nat n < 2 ^ 32 -> 0 <= Z.of_nat n < 256 ^ Z.of_nat 4.
Proof. change (256 ^ Z.of_nat 4) with (2 ^ 32). lia. Qed.

Lemma id_range (id : Z) : 0 <= id < 2 ^ 64 -> 0 <= id < 256 ^ Z.of_nat 8.
Proof. change (256 ^ Z.of_nat 8) with (2 ^ 64). lia. Qed.

Lemma scalar_trips (x : Z) : trips (scalar x).
Proof.
  intros t Hrt.
  destruct t; simpl in Hrt; try contradiction;
    (exists (object_bytes host sizeof0 x); split;
     [ eapply appends_ext; [| apply appends_serialize]; reflexivity
     | intros [| fuel] Hf; [simpl in Hf; lia |];
       intros input off Hocc; cbn [load default];
       by apply reads_scalar ]).
Qed.

Lemma null_trips : trips (pointer None).
Proof. intros t Hrt. destruct t; simpl in Hrt; contradiction. Qed.

Lemma pointer_trips (obj : value) : trips obj -> trips (pointer (Some obj)).
Proof.
  intros IH t Hrt.
  destruct t as [| | | | | | | | k type |]; simpl in Hrt; try contradiction.
  destruct (is_base_of polymorphic type) eqn:Hpoly.
  - destruct obj as [| | | dyn mvs]; try contradiction.
    destruct Hrt as (Hreg & Hcast & Hrt). unfold registered in Hreg.
    destruct (class_name dyn) as [info |] eqn:Hname; [| contradiction].
    destruct (registry.m_type_information_to_serialization_id saving_registry !! info)
      as [id |] eqn:Hid; [| contradiction].
    destruct Hreg as (Hrange & Hsm & Hlm).
    destruct (IH dyn Hrt) as (w & A & R).
    exists (object_bytes host 8 id ++ w). split.
    + eapply appends_ext; [| eapply appends_after; exact A].
      intros a. cbn [save]. rewrite Hpoly, Hname, Hid, Hsm.
      by rewrite (dynamic_cast_self _ _ _ Hname).
    + intros [| fuel] Hf; [simpl in Hf; lia |].
      intros input off Hocc. destruct (occurs_app _ _ _ _ Hocc) as [O1 O2].
      cbn [load default]. rewrite Hpoly. unfold load_polymorphic, registry_load.
      rewrite (reads_scalar host 8 id _ (id_range _ Hrange) _ _ O1), Hlm.
      unfold load_new_object.
      rewrite (R fuel ltac:(cbn [depth] in Hf |- *; lia) _ _ O2).
      cbn [hl_outcome hl_object hl_archive]. rewrite Hcast.
      cbn [hl_outcome hl_object hl_archive].
      by rewrite length_app, Nat.add_assoc.
  - destruct (IH type Hrt) as (w & A & R). exists w. split.
    + eapply appends_ext; [| exact A]. intros a. cbn [save]. by rewrite Hpoly.
    + intros [| fuel] Hf; [simpl in Hf; lia |].
      intros input off Hocc. cbn [load default]. rewrite Hpoly.
      unfold load_new_object.
      by rewrite (R fuel ltac:(cbn [depth] in Hf |- *; lia) _ _ Hocc).
Qed.

Lemma object_trips (dyn : ty) (mvs : list value) :
  Forall trips mvs -> trips (object dyn mvs).
Proof.
  intros IH t Hrt.
  destruct t as [| | | | | | | | | name bases ms]; simpl in Hrt; try contradiction.
  destruct Hrt as [-> Hall].
  destruct (items_trips mvs IH ms Hall) as (w & _ & A & R). exists w. split.
  - eapply appends_ext; [| exact A]. reflexivity.
  - intros [| fuel] Hf; [simpl in Hf; lia |].
    intros input off Hocc. cbn [load default].
    destruct (R fuel (depth_items_fuel _ _ Hf)) as [_ Rm].
    by rewrite (Rm _ _ Hocc).
Qed.

(** The wrappers of the loading overloads around the loop over the items. *)
Lemma reads_wrapped (f : mvia.t -> load_result) (g : mvia.t -> outcome * list value * mvia.t)
    (w : list Z) (vs : list value) :
  reads g w vs ->
  (forall a, f a = let '(o, xs, a') := g a in (o, items xs, a')) ->
  reads f w (items vs).
Proof. intros Hg Hf input off Hocc. by rewrite Hf, (Hg _ _ Hocc). Qed.

(** After the length prefix. *)
Lemma reads_prefixed (f : mvia.t -> load_result) (g : mvia.t -> outcome * list value * mvia.t)
    (n : nat) (w : list Z) (vs : list value) :
  Z.of_nat n < 2 ^ 32 ->
  reads g w vs ->
  (forall a a1, load_scalar host 4 (scalar 0) a = (normal, scalar (Z.of_nat n), a1) ->
                f a = let '(o, xs, a') := g a1 in (o, items xs, a')) ->
  reads f (object_bytes host 4 (Z.of_nat n) ++ w) (items vs).
Proof.
  intros Hn Hg Hf input off Hocc. destruct (occurs_app _ _ _ _ Hocc) as [O1 O2].
  rewrite (Hf _ _ (reads_scalar host 4 _ _ (prefix_range _ Hn) _ _ O1)).
  rewrite (Hg _ _ O2). by rewrite length_app, Nat.add_assoc.
Qed.

Lemma contiguous_trips (c : container_traits) (e : ty) (vs : list value) :
  select_resizable loading c e = Some contiguous_fundamental ->
  Z.of_nat (length vs) < 2 ^ 32 ->
  Z.of_nat (length vs) * Z.of_nat (sizeof e) < 2 ^ 32 ->
  all_items (rt e) vs ->
  exists w, appends (sv (resizable c e) (items vs)) normal w /\
    forall fuel, (1 <= fuel)%nat -> reads (ld fuel (resizable c e) (items [])) w (items vs).
Proof.
  intros Hsel Hlen Hbytes Hall.
  pose proof (select_contiguous_scalar _ _ _ Hsel) as He.
  destruct (storage_round_trip host key_less saving_registry loading_registry e vs He Hall)
    as (data & Hdata & Hdlen & Hval).
  destruct (storage_default host e (length vs) He) as (zeros & Hzeros & Hzlen).
  assert (Hsib : size_in_bytes (size_type (Z.of_nat (length vs))) (sizeof e)
                 = Z.of_nat (length data)).
  { unfold size_in_bytes. rewrite (size_type_small (Z.of_nat (length vs))) by lia.
    rewrite size_type_small by (split; [apply Z.mul_nonneg_nonneg; lia | done]).
    rewrite Hdlen. lia. }
  destruct (Z.eqb_spec (Z.of_nat (length vs)) 0) as [Hzero | Hpos].
  - assert (vs = []) as -> by (destruct vs; [done | simpl in Hzero; lia]).
    exists (object_bytes host 4 0). split.
    + eapply appends_ext; [| apply appends_serialize]. intros a. cbn [save].
      by rewrite (select_saving_of_loading _ _ _ Hsel).
    + intros [| fuel] Hf; [lia |]. intros input off Hocc. cbn [load]. rewrite Hsel.
      by rewrite (reads_scalar host 4 0 _ (prefix_range 0 Hlen) _ _ Hocc).
  - exists (object_bytes host 4 (Z.of_nat (length vs)) ++ data). split.
    + eapply appends_ext; [| eapply appends_after; apply appends_serialize].
      intros a. cbn [save]. rewrite (select_saving_of_loading _ _ _ Hsel), Hdata, Hsib.
      rewrite size_type_small by lia.
      destruct (Z.eqb_spec (Z.of_nat (length vs)) 0); [done |].
      unfold lvmoa.serialize_binary. by rewrite Nat2Z.id, firstn_all.
    + intros [| fuel] Hf; [lia |]. intros input off Hocc.
      destruct (occurs_app _ _ _ _ Hocc) as [O1 O2]. cbn [load]. rewrite Hsel.
      rewrite (reads_scalar host 4 _ _ (prefix_range _ Hlen) _ _ O1).
      destruct (Z.eqb_spec (Z.of_nat (length vs)) 0); [done |].
      rewrite resize_empty, Hzeros, repeat_length, Hsib.
      unfold mvia.serialize_binary. rewrite Nat2Z.id, (serialize_occurs _ _ _ O2).
      by rewrite Hval, length_app, Nat.add_assoc.
Qed.

Lemma items_value_trips (vs : list value) : Forall trips vs -> trips (items vs).
Proof.
  intros IH t Hrt.
  destruct t as [| | c e | c e | c e | k n e | t1 t2 | ts | |]; simpl in Hrt; try contradiction.
  - (* resizable *)
    destruct Hrt as [Hlen Hrt].
    destruct (resizable_call loading c e) as [[|] |] eqn:Hcall; [| | contradiction];
      destruct (resizable_call_compiles _ _ _ _ Hcall) as [Hsel Hlvalue].
    + specialize (Hlvalue eq_refl). destruct (each_trips e vs IH Hrt) as (w & A & R).
      exists (object_bytes host 4 (Z.of_nat (length vs)) ++ w). split.
      * eapply appends_ext; [| eapply appends_after; exact A].
        intros a. cbn [save]. rewrite (select_saving_of_loading _ _ _ Hsel), Hlvalue.
        by rewrite size_type_small by lia.
      * intros [| fuel] Hf; [simpl in Hf; lia |].
        eapply reads_prefixed; [done | exact (R fuel (depth_items_fuel _ _ Hf)) |].
        intros a a1 E. cbn [load default]. by rewrite Hsel, Hlvalue, E, resize_empty.
    + destruct Hrt as [Hbytes Hall].
      destruct (contiguous_trips c e vs Hsel Hlen Hbytes Hall) as (w & A & R).
      exists w. split; [done |]. intros fuel Hf. apply R. simpl in Hf. lia.
  - (* associative *)
    destruct Hrt as (Hlen & Hall & Hord).
    destruct (inserting_trips e c vs IH Hall [] Hord) as (w & A & R).
    exists (object_bytes host 4 (Z.of_nat (length vs)) ++ w). split.
    + eapply appends_ext; [| eapply appends_after; exact A].
      intros a. cbn [save]. by rewrite size_type_small by lia.
    + intros [| fuel] Hf; [simpl in Hf; lia |].
      eapply reads_prefixed; [done | exact (R fuel (depth_items_fuel _ _ Hf)) |].
      intros a a1 E. cbn [load default]. by rewrite E, Nat2Z.id.
  - (* array *)
    destruct Hrt as [<- Hall]. destruct (each_trips e vs IH Hall) as (w & A & R).
    exists w. split.
    + eapply appends_ext; [| exact A]. intros a. cbn [save]. by rewrite Nat.eqb_refl.
    + intros [| fuel] Hf; [simpl in Hf; lia |].
      eapply reads_wrapped; [exact (R fuel (depth_items_fuel _ _ Hf)) |].
      intros a. cbn [load default]. by rewrite repeat_length, Nat.eqb_refl.
  - (* pair *)
    destruct (items_trips vs IH [t1; t2] Hrt) as (w & A & _ & R). exists w. split.
    + eapply appends_ext; [| exact A]. reflexivity.
    + intros [| fuel] Hf; [simpl in Hf; lia |].
      destruct (R fuel (depth_items_fuel _ _ Hf)) as [Ri _].
      eapply reads_wrapped; [exact Ri |]. reflexivity.
  - (* tuple *)
    destruct (items_trips vs IH ts Hrt) as (w & A & _ & R). exists w. split.
    + eapply appends_ext; [| exact A]. reflexivity.
    + intros [| fuel] Hf; [simpl in Hf; lia |].
      destruct (R fuel (depth_items_fuel _ _ Hf)) as [Ri _].
      eapply reads_wrapped; [exact Ri |]. reflexivity.
Qed.

(** Every value the law covers makes the trip. *)
Lemma value_trips (v : value) : trips v.
Proof.
  induction v using value_ind'.
  - apply scalar_trips.
  - by apply items_value_trips.
  - apply null_trips.
  - by apply pointer_trips.
  - by apply object_trips.
Qed.

End round_trip_proof.

(** The method registered for a class loads an object of that class. *)
Lemma load_object_type (host : byte_order) (key_less : ty -> value -> value -> bool)
    (unordered_insert : ty -> associative_traits -> value -> list value -> list value)
    (lr : registry.t ty) (fuel : nat) (T : ty) (info : string) (a : mvia.t) :
  class_name T = Some info ->
  exists mvs',
    snd (fst (load host key_less unordered_insert lr fuel T (default T) a)) = object T mvs'.
Proof.
  destruct T as [| | | | | | | | | name bases ms]; try discriminate. intros _.
  destruct fuel as [| fuel]; cbn [load default]; [eauto |].
  destruct (load_members _ _ _ a) as [[o mvs'] a']. eauto.
Qed.

(** ** The round trip of a value, up to equality *)

Lemma all_pairs_length (R : value -> value -> Prop) (xs ys : list value) :
  all_pairs R xs ys -> length xs = length ys.
Proof.
  revert ys. induction xs as [| x xs IH]; intros [| y ys]; cbn; try done.
  intros [_ H]. f_equal. by apply IH.
Qed.

Lemma all_pairs_Forall2 (R : value -> value -> Prop) (xs ys : list value) :
  all_pairs R xs ys <-> Forall2 R xs ys.
Proof.
  revert ys. induction xs as [| x xs IH]; intros [| y ys]; cbn.
  - split; [constructor | done].
  - split; [done | inversion 1].
  - split; [done | inversion 1].
  - rewrite Forall2_cons. by rewrite IH.
Qed.

(** The keys of equal elements are equal. *)
Lemma equal_key (c : associative_traits) (e k : ty) (x y : value) :
  key_type c e = Some k -> equal e x y -> equal k (key_of c x) (key_of c y).
Proof.
  unfold key_type, key_of. destruct (is_map c); [| by intros [= <-]].
  destruct e as [| | | | | | k' m | | |]; try done. intros [= <-] E.
  destruct x as [| [| x1 [| x2 [|]]] | |], y as [| [| y1 [| y2 [|]]] | |];
    cbn in E; try done; tauto.
Qed.

Section covered_proof.

Variable host : byte_order.
Variable key_less : ty -> value -> value -> bool.
Variable unordered_insert : ty -> associative_traits -> value -> list value -> list value.
Variable key_equal : ty -> value -> value -> bool.
Variable saving_registry : registry.t ty.
Variable loading_registry : registry.t ty.

(** The comparison of a container in key order, and the [KeyEqual] of a
    hash table, give one answer on equal keys. *)
Hypothesis key_less_equal :
  forall c e k a a' b b', key_type c e = Some k ->
    equal k a' a -> equal k b' b -> key_less e a' b' = key_less e a b.
Hypothesis key_equal_equal :
  forall c e k a a' b b', key_type c e = Some k ->
    equal k a' a -> equal k b' b -> key_equal e a' b' = key_equal e a b.

(** What the standard asks of the insertion into a hash table: the element
    is added, unless the keys are unique and an element with an equal key
    is there. *)
Hypothesis unordered_insert_adds :
  forall e c x l,
    (unique_keys c = true ->
     Forall (fun y => key_equal e (key_of c x) (key_of c y) = false) l) ->
    unordered_insert e c x l ≡ₚ x :: l.

Local Abbreviation sv := (save host saving_registry).
Local Abbreviation ld := (load host key_less unordered_insert loading_registry).
Local Abbreviation cv := (covered key_less key_equal saving_registry loading_registry).

(** The value [v] makes the trip at every type at which the law covers it:
    its save returns after appending some bytes [w], and a load with enough
    fuel reads from [w], into a value-initialised target, a value equal to
    [v]. *)
Definition trips_equal (v : value) : Prop :=
  forall t, cv t v ->
    exists w x, appends (sv t v) normal w /\ equal t x v /\
      forall fuel, (depth v <= fuel)%nat -> reads (ld fuel t (default t)) w x.

Lemma each_trips_equal (e : ty) (vs : list value) :
  Forall trips_equal vs -> all_items (cv e) vs ->
  exists w xs, appends (save_each (sv e) vs) normal w /\ all_pairs (equal e) xs vs /\
    forall fuel, Forall (fun v => (depth v <= fuel)%nat) vs ->
      reads (load_each (ld fuel e) (repeat (default e) (length vs))) w xs.
Proof.
  induction 1 as [| v vs Hv _ IH]; intros Hall.
  - exists [], []. split; [apply appends_ret |]. split; [done |].
    intros fuel _. apply reads_nil.
  - destruct Hall as [Hcv Hall]. destruct (Hv e Hcv) as (w1 & x & A1 & E1 & R1).
    destruct (IH Hall) as (w2 & xs & A2 & E2 & R2). exists (w1 ++ w2), (x :: xs).
    split; [| split; [done |]].
    + eapply appends_ext; [| exact (appends_then _ _ _ _ _ A1 A2)]. reflexivity.
    + intros fuel Hfuel. apply Forall_cons in Hfuel as [Hf1 Hf2].
      eapply (reads_then _ _ cons); [exact (R1 fuel Hf1) | exact (R2 fuel Hf2) |].
      intros a a1 a2 L1 L2. cbn [length repeat load_each]. by rewrite L1, L2.
Qed.

Lemma items_trips_equal (vs : list value) :
  Forall trips_equal vs -> forall ts, all_items2 cv ts vs ->
  exists w xs,
    appends (save_items sv ts vs) normal w /\ all_pairs2 equal ts xs vs /\
    forall fuel, Forall (fun v => (depth v <= fuel)%nat) vs ->
      reads (load_items (ld fuel) ts (map default ts)) w xs.
Proof.
  induction 1 as [| v vs Hv _ IH]; intros [| t ts] Hall; try contradiction.
  - exists [], []. split; [apply appends_ret |]. split; [done |].
    intros fuel _. apply reads_nil.
  - destruct Hall as [Hcv Hall]. destruct (Hv t Hcv) as (w1 & x & A1 & E1 & R1).
    destruct (IH ts Hall) as (w2 & xs & A2 & E2 & R2). exists (w1 ++ w2), (x :: xs).
    split; [| split; [done |]].
    + eapply appends_ext; [| exact (appends_then _ _ _ _ _ A1 A2)]. reflexivity.
    + intros fuel Hfuel. apply Forall_cons in Hfuel as [Hf1 Hf2].
      eapply (reads_then _ _ cons); [exact (R1 fuel Hf1) | exact (R2 fuel Hf2) |].
      intros a a1 a2 L1 L2. cbn [map load_items]. by rewrite L1, L2.
Qed.

(** The members that the class declares, of an object that may have
    more. *)
Lemma members_trips_equal (vs : list value) :
  Forall trips_equal vs -> forall ts, all_members cv ts vs ->
  exists w xs,
    appends (save_members sv ts vs) normal w /\ all_member_pairs equal ts xs vs /\
    forall fuel, Forall (fun v => (depth v <= fuel)%nat) vs ->
      reads (load_members (ld fuel) ts (map default ts)) w xs.
Proof.
  assert (Hnil : forall vs, exists w xs,
            appends (save_members sv [] vs) normal w /\ all_member_pairs equal [] xs vs /\
            forall fuel, Forall (fun v => (depth v <= fuel)%nat) vs ->
              reads (load_members (ld fuel) [] (map default [])) w xs).
  { intros vs'. exists [], []. split.
    - destruct vs'; apply appends_ret.
    - split; [done |]. intros fuel _. apply reads_nil. }
  induction 1 as [| v vs Hv _ IH]; intros [| t ts] Hall; try contradiction;
    try apply Hnil.
  destruct Hall as [Hcv Hall]. destruct (Hv t Hcv) as (w1 & x & A1 & E1 & R1).
  destruct (IH ts Hall) as (w2 & xs & A2 & E2 & R2). exists (w1 ++ w2), (x :: xs).
  split; [| split; [done |]].
  + eapply appends_ext; [| exact (appends_then _ _ _ _ _ A1 A2)]. reflexivity.
  + intros fuel Hfuel. apply Forall_cons in Hfuel as [Hf1 Hf2].
    eapply (reads_then _ _ cons); [exact (R1 fuel Hf1) | exact (R2 fuel Hf2) |].
    intros a a1 a2 L1 L2. cbn [map load_members]. by rewrite L1, L2.
Qed.

(** The loop of the associative overloads, for any insertion: the loaded
    elements are inserted one after the other. *)
Lemma inserting_trips_equal (e : ty) (insert : value -> list value -> list value)
    (vs : list value) :
  Forall trips_equal vs -> all_items (cv e) vs ->
  exists w xs, appends (save_each (sv e) vs) normal w /\ all_pairs (equal e) xs vs /\
    forall fuel, Forall (fun v => (depth v <= fuel)%nat) vs ->
      forall container,
        reads (load_inserting (ld fuel e (default e)) insert (length vs) container) w
              (fold_left (fun l x => insert x l) xs container).
Proof.
  induction 1 as [| v vs Hv _ IH]; intros Hall.
  - exists [], []. split; [apply appends_ret |]. split; [done |].
    intros fuel _ container. apply reads_nil.
  - destruct Hall as [Hcv Hall]. destruct (Hv e Hcv) as (w1 & x & A1 & E1 & R1).
    destruct (IH Hall) as (w2 & xs & A2 & E2 & R2). exists (w1 ++ w2), (x :: xs).
    split; [| split; [done |]].
    + eapply appends_ext; [| exact (appends_then _ _ _ _ _ A1 A2)]. reflexivity.
    + intros fuel Hfuel container. apply Forall_cons in Hfuel as [Hf1 Hf2].
      cbn [fold_left].
      eapply (reads_then _ _ (fun _ l => l));
        [exact (R1 fuel Hf1) | exact (R2 fuel Hf2 (insert x container)) |].
      intros a a1 a2 L1 L2. cbn [length load_inserting]. by rewrite L1, L2.
Qed.

(** Elements in key order are inserted at the end, one after the other. *)
Lemma insert_key_ordered (less : value -> value -> bool) (c : associative_traits)
    (todo : list value) :
  forall done, key_ordered less c (done ++ todo) ->
    fold_left (fun l x => container_insert less c x l) todo done = done ++ todo.
Proof.
  induction todo as [| v todo IH]; intros done Hord; cbn [fold_left].
  - by rewrite app_nil_r.
  - rewrite (container_insert_last less c v done)
      by (eapply key_ordered_before; exact Hord).
    rewrite IH; by rewrite <- app_assoc.
Qed.

Lemma key_ordered_equal (c : associative_traits) (e k : ty) (xs vs : list value) :
  key_type c e = Some k -> all_pairs (equal e) xs vs ->
  key_ordered (key_less e) c vs -> key_ordered (key_less e) c xs.
Proof.
  intros Hk. revert vs. induction xs as [| x xs IH]; intros [| v vs]; cbn; try done.
  intros [Ex Exs] [Hv Hord]. split; [| by apply (IH vs)].
  clear IH Hord. revert vs Exs Hv.
  induction xs as [| y xs IH]; intros [| u vs]; cbn; try done.
  intros [Ey Exs] [[H1 H2] Hv]. split; [| by apply (IH vs)].
  pose proof (equal_key c e k _ _ Hk Ex) as Kx.
  pose proof (equal_key c e k _ _ Hk Ey) as Ky.
  unfold may_follow.
  rewrite (key_less_equal c e k _ _ _ _ Hk Ky Kx).
  by rewrite (key_less_equal c e k _ _ _ _ Hk Kx Ky).
Qed.

Lemma keys_differ_equal (c : associative_traits) (e k : ty) (xs vs : list value) :
  key_type c e = Some k -> all_pairs (equal e) xs vs ->
  keys_differ (key_equal e) c vs -> keys_differ (key_equal e) c xs.
Proof.
  intros Hk. revert vs. induction xs as [| x xs IH]; intros [| v vs]; cbn; try done.
  intros [Ex Exs] [Hv Hord]. split; [| by apply (IH vs)].
  clear IH Hord. revert vs Exs Hv.
  induction xs as [| y xs IH]; intros [| u vs]; cbn; try done.
  intros [Ey Exs] [H1 Hv]. split; [| by apply (IH vs)].
  pose proof (equal_key c e k _ _ Hk Ex) as Kx.
  pose proof (equal_key c e k _ _ Hk Ey) as Ky.
  by rewrite (key_equal_equal c e k _ _ _ _ Hk Ky Kx).
Qed.

Lemma keys_differ_before (key_eq : value -> value -> bool) (c : associative_traits)
    (l1 l2 : list value) (x : value) :
  keys_differ key_eq c (l1 ++ x :: l2) ->
  Forall (fun y => key_eq (key_of c x) (key_of c y) = false) l1.
Proof.
  induction l1 as [| y l1 IH]; cbn; [constructor |].
  intros [Hy Hrest]. constructor; [| by apply IH].
  apply all_items_Forall in Hy. rewrite Forall_app, Forall_cons in Hy. tauto.
Qed.

(** The elements of a hash table are inserted, each of them, in some
    order. *)
Lemma insert_keys_differ (e : ty) (c : associative_traits) (todo : list value) :
  forall done container,
    container ≡ₚ done ->
    (unique_keys c = true -> keys_differ (key_equal e) c (done ++ todo)) ->
    fold_left (fun l x => unordered_insert e c x l) todo container ≡ₚ done ++ todo.
Proof.
  induction todo as [| v todo IH]; intros done container Hperm Hkeys; cbn [fold_left].
  - by rewrite app_nil_r.
  - replace (done ++ v :: todo) with ((done ++ [v]) ++ todo) by (by rewrite <- app_assoc).
    apply IH.
    + rewrite unordered_insert_adds.
      * rewrite Hperm. by rewrite Permutation_cons_append.
      * intros Hu. rewrite Hperm. eapply keys_differ_before. exact (Hkeys Hu).
    + by rewrite <- app_assoc.
Qed.


Lemma scalar_trips_equal (x : Z) : trips_equal (scalar x).
Proof.
  intros t Hcv.
  destruct t as [n | n | | | | | | | |]; simpl in Hcv; try contradiction;
    (exists (object_bytes host n x), (scalar x); split;
     [ eapply appends_ext; [| apply appends_serialize]; reflexivity
     | split; [done |];
       intros [| fuel] Hf; [simpl in Hf; lia |];
       intros input off Hocc; cbn [load default];
       by apply reads_scalar ]).
Qed.

(** Scalars are covered as they were, and equal to themselves. *)
Lemma covered_scalars (e : ty) (vs : list value) :
  is_fundamental e || is_enum e = true -> all_items (cv e) vs ->
  all_items (round_trippable key_less saving_registry loading_registry e) vs /\
  all_pairs (equal e) vs vs.
Proof.
  intros He. induction vs as [| v vs IH]; [done |]. intros [Hv Hvs].
  destruct (IH Hvs) as [IH1 IH2].
  destruct e; try discriminate; destruct v; simpl in Hv; try contradiction;
    cbn; tauto.
Qed.

Lemma items_value_trips_equal (vs : list value) :
  Forall trips_equal vs -> trips_equal (items vs).
Proof.
  intros IH t Hcv.
  destruct t as [| | c e | c e | c e | k n e | t1 t2 | ts | |]; simpl in Hcv;
    try contradiction.
  - (* resizable *)
    destruct Hcv as [Hlen Hcv].
    destruct (resizable_call loading c e) as [[|] |] eqn:Hcall; [| | contradiction];
      destruct (resizable_call_compiles _ _ _ _ Hcall) as [Hsel Hlvalue].
    + specialize (Hlvalue eq_refl).
      destruct (each_trips_equal e vs IH Hcv) as (w & xs & A & E & R).
      exists (object_bytes host 4 (Z.of_nat (length vs)) ++ w), (items xs).
      split; [| split; [done |]].
      * eapply appends_ext; [| eapply appends_after; exact A].
        intros a. cbn [save]. rewrite (select_saving_of_loading _ _ _ Hsel), Hlvalue.
        by rewrite size_type_small by lia.
      * intros [| fuel] Hf; [simpl in Hf; lia |].
        eapply reads_prefixed; [done | exact (R fuel (depth_items_fuel _ _ Hf)) |].
        intros a a1 L. cbn [load default]. by rewrite Hsel, Hlvalue, L, resize_empty.
    + destruct Hcv as [Hbytes Hall].
      destruct (covered_scalars e vs (select_contiguous_scalar _ _ _ Hsel) Hall)
        as [Hrt Hrefl].
      destruct (contiguous_trips host key_less unordered_insert saving_registry
                  loading_registry c e vs Hsel Hlen Hbytes Hrt) as (w & A & R).
      exists w, (items vs). split; [done |]. split; [done |].
      intros fuel Hf. apply R. simpl in Hf. lia.
  - (* associative *)
    destruct Hcv as (Hlen & Hall & [k Hk] & Hord).
    destruct (inserting_trips_equal e (container_insert (key_less e) c) vs IH Hall)
      as (w & xs & A & E & R).
    exists (object_bytes host 4 (Z.of_nat (length vs)) ++ w), (items xs).
    split; [| split; [done |]].
    + eapply appends_ext; [| eapply appends_after; exact A].
      intros a. cbn [save]. by rewrite size_type_small by lia.
    + intros [| fuel] Hf; [simpl in Hf; lia |].
      pose proof (R fuel (depth_items_fuel _ _ Hf) []) as R'.
      rewrite (insert_key_ordered (key_less e) c xs [])
        in R' by exact (key_ordered_equal c e k xs vs Hk E Hord).
      eapply reads_prefixed; [done | exact R' |].
      intros a a1 L. cbn [load default]. by rewrite L, Nat2Z.id.
  - (* unordered *)
    destruct Hcv as (Hlen & Hall & [k Hk] & Hkeys).
    destruct (inserting_trips_equal e (unordered_insert e c) vs IH Hall)
      as (w & xs & A & E & R).
    exists (object_bytes host 4 (Z.of_nat (length vs)) ++ w),
           (items (fold_left (fun l x => unordered_insert e c x l) xs [])).
    split; [| split].
    + eapply appends_ext; [| eapply appends_after; exact A].
      intros a. cbn [save]. by rewrite size_type_small by lia.
    + cbn [equal].
      assert (Hperm : fold_left (fun l x => unordered_insert e c x l) xs [] ≡ₚ xs).
      { apply (insert_keys_differ e c xs [] []); [done |].
        intros Hu. exact (keys_differ_equal c e k xs vs Hk E (Hkeys Hu)). }
      apply all_pairs_Forall2 in E.
      destruct (Permutation_Forall2 (Permutation_sym Hperm) E)
        as (ys & Hys & E').
      exists ys. split; [by symmetry |]. by apply all_pairs_Forall2.
    + intros [| fuel] Hf; [simpl in Hf; lia |].
      eapply reads_prefixed; [done | exact (R fuel (depth_items_fuel _ _ Hf) []) |].
      intros a a1 L. cbn [load default]. by rewrite L, Nat2Z.id.
  - (* array *)
    destruct Hcv as [<- Hall]. destruct (each_trips_equal e vs IH Hall) as (w & xs & A & E & R).
    exists w, (items xs). split; [| split; [done |]].
    + eapply appends_ext; [| exact A]. intros a. cbn [save]. by rewrite Nat.eqb_refl.
    + intros [| fuel] Hf; [simpl in Hf; lia |].
      eapply reads_wrapped; [exact (R fuel (depth_items_fuel _ _ Hf)) |].
      intros a. cbn [load default]. by rewrite repeat_length, Nat.eqb_refl.
  - (* pair *)
    destruct (items_trips_equal vs IH [t1; t2] Hcv) as (w & xs & A & E & R).
    exists w, (items xs). split; [| split; [done |]].
    + eapply appends_ext; [| exact A]. reflexivity.
    + intros [| fuel] Hf; [simpl in Hf; lia |].
      eapply reads_wrapped; [exact (R fuel (depth_items_fuel _ _ Hf)) |]. reflexivity.
  - (* tuple *)
    destruct (items_trips_equal vs IH ts Hcv) as (w & xs & A & E & R).
    exists w, (items xs). split; [| split; [done |]].
    + eapply appends_ext; [| exact A]. reflexivity.
    + intros [| fuel] Hf; [simpl in Hf; lia |].
      eapply reads_wrapped; [exact (R fuel (depth_items_fuel _ _ Hf)) |]. reflexivity.
Qed.

Lemma object_trips_equal (dyn : ty) (mvs : list value) :
  Forall trips_equal mvs -> trips_equal (object dyn mvs).
Proof.
  intros IH t Hcv.
  destruct t as [| | | | | | | | | name bases ms]; simpl in Hcv; try contradiction.
  destruct Hcv as [_ Hall].
  destruct (members_trips_equal mvs IH ms Hall) as (w & xs & A & E & R).
  exists w, (object (class_ name bases ms) xs). split; [| split; [done |]].
  - eapply appends_ext; [| exact A]. reflexivity.
  - intros [| fuel] Hf; [simpl in Hf; lia |].
    intros input off Hocc. cbn [load default].
    by rewrite (R fuel (depth_items_fuel _ _ Hf) _ _ Hocc).
Qed.

Lemma pointer_trips_equal (obj : value) :
  trips_equal obj -> trips_equal (pointer (Some obj)).
Proof.
  intros IH t Hcv.
  destruct t as [| | | | | | | | k type |]; simpl in Hcv; try contradiction.
  destruct (is_base_of polymorphic type) eqn:Hpoly.
  - destruct obj as [| | | dyn mvs]; try contradiction.
    destruct Hcv as (Hreg & Hcast & Hcv). unfold registered in Hreg.
    destruct (class_name dyn) as [info |] eqn:Hname; [| contradiction].
    destruct (registry.m_type_information_to_serialization_id saving_registry !! info)
      as [id |] eqn:Hid; [| contradiction].
    destruct Hreg as (Hrange & Hsm & Hlm).
    destruct (IH dyn Hcv) as (w & x & A & E & R).
    (* what the method loads is an object of the registered class *)
    assert (Hx : exists xs, x = object dyn xs).
    { destruct (load_object_type host key_less unordered_insert loading_registry
                  (depth (object dyn mvs)) dyn info (mvia.mk w 0) Hname) as [xs Hxs].
      assert (O : occurs w 0 w) by (exists [], []; by rewrite app_nil_r).
      rewrite (R _ (Nat.le_refl _) _ _ O) in Hxs. eauto. }
    destruct Hx as [xs ->].
    exists (object_bytes host 8 id ++ w), (pointer (Some (object dyn xs))).
    split; [| split].
    + eapply appends_ext; [| eapply appends_after; exact A].
      intros a. cbn [save]. rewrite Hpoly, Hname, Hid, Hsm.
      by rewrite (dynamic_cast_self _ _ _ Hname).
    + cbn [equal]. by rewrite Hpoly.
    + intros [| fuel] Hf; [simpl in Hf; lia |].
      intros input off Hocc. destruct (occurs_app _ _ _ _ Hocc) as [O1 O2].
      cbn [load default]. rewrite Hpoly. unfold load_polymorphic, registry_load.
      rewrite (reads_scalar host 8 id _ (id_range _ Hrange) _ _ O1), Hlm.
      unfold load_new_object.
      rewrite (R fuel ltac:(cbn [depth] in Hf |- *; lia) _ _ O2).
      cbn [hl_outcome hl_object hl_archive].
      assert (Hcast' : dynamic_cast_ok type (object dyn xs) = true) by exact Hcast.
      rewrite Hcast'. cbn [hl_outcome hl_object hl_archive].
      by rewrite length_app, Nat.add_assoc.
  - destruct (IH type Hcv) as (w & x & A & E & R).
    exists w, (pointer (Some x)). split; [| split].
    + eapply appends_ext; [| exact A]. intros a. cbn [save]. by rewrite Hpoly.
    + cbn [equal]. by rewrite Hpoly.
    + intros [| fuel] Hf; [simpl in Hf; lia |].
      intros input off Hocc. cbn [load default]. rewrite Hpoly.
      unfold load_new_object.
      by rewrite (R fuel ltac:(cbn [depth] in Hf |- *; lia) _ _ Hocc).
Qed.

(** Every value the law covers makes the trip. *)
Lemma value_trips_equal (v : value) : trips_equal v.
Proof.
  induction v using value_ind'.
  - apply scalar_trips_equal.
  - by apply items_value_trips_equal.
  - intros t Hcv. destruct t; simpl in Hcv; contradiction.
  - by apply pointer_trips_equal.
  - by apply object_trips_equal.
Qed.

End covered_proof.

(** ** The user-facing archives *)

Section user_archives.

Variable host : byte_order.
Variable key_less : ty -> value -> value -> bool.
Variable unordered_insert : ty -> associative_traits -> value -> list value -> list value.
Variable saving_registry : registry.t ty.
Variable loading_registry : registry.t ty.

(** [out(v)]: the vector ends up holding what it held, followed by the bytes
    of [v], and nothing else. *)
Lemma memory_output_archive_call_single (t : ty) (v : value) (o : outcome)
    (w output : list Z) :
  appends (save host saving_registry t v) o w ->
  memory_output_archive_call host saving_registry [(t, v)] (lvmoa.make output)
  = (o, lvmoa.make (output ++ w)).
Proof.
  intros A. destruct (A _ (within_make output)) as (a1 & E & Ha1 & Hw).
  unfold memory_output_archive_call, save_call. cbn [map fst snd save_items].
  rewrite E. rewrite written_make in Hw.
  assert (Hfit : lvmoa.fit_vector a1 = lvmoa.make (output ++ w))
    by (by rewrite fit_vector_written, Hw).
  destruct o as [| e | |]; cbn beta iota; by rewrite Hfit.
Qed.

Lemma saved_bytes_appends (t : ty) (v : value) (o : outcome) (w : list Z) :
  appends (save host saving_registry t v) o w ->
  saved_bytes host saving_registry t v = w.
Proof.
  intros A. destruct (A _ (within_make [])) as (a1 & E & _ & Hw).
  unfold saved_bytes. rewrite E. cbn [snd]. by rewrite Hw, written_make.
Qed.

(** [in(x)] on a vector that starts with the bytes of [v]. *)
Lemma memory_input_archive_call_single (fuel : nat) (t : ty) (v target : value)
    (w rest : list Z) :
  reads (load host key_less unordered_insert loading_registry fuel t target) w v ->
  memory_input_archive_call host key_less unordered_insert loading_registry fuel [(t, target)]
    (memory_input_archive_make (w ++ rest))
  = (normal, [v],
     {| mia_input := rest; mia_view := mvia.mk (w ++ rest) 0 |}).
Proof.
  intros R. unfold memory_input_archive_call, load_call, memory_input_archive_make.
  cbn [map fst snd load_items mia_input].
  assert (O : occurs w 0 (w ++ rest)) by (by exists [], rest).
  unfold mvia.make. rewrite (R _ _ O).
  cbn [load_items mvia.get_offset mvia.m_offset mvia.reset mvia.m_input Nat.add].
  unfold vector_erase_front. by rewrite drop_app_length.
Qed.

End user_archives.

(** ** The round-trip law *)

Section round_trip_law.

Variable host : byte_order.
Variable key_less : ty -> value -> value -> bool.
Variable unordered_insert : ty -> associative_traits -> value -> list value -> list value.
Variable key_equal : ty -> value -> value -> bool.
Variable saving_registry : registry.t ty.
Variable loading_registry : registry.t ty.

(** [Compare] and [KeyEqual] give one answer on equal keys. *)
Hypothesis key_less_equal :
  forall c e k a a' b b', key_type c e = Some k ->
    equal k a' a -> equal k b' b -> key_less e a' b' = key_less e a b.
Hypothesis key_equal_equal :
  forall c e k a a' b b', key_type c e = Some k ->
    equal k a' a -> equal k b' b -> key_equal e a' b' = key_equal e a b.

(** The insertion into a hash table adds the element, unless the keys are
    unique and an element with an equal key is there. *)
Hypothesis unordered_insert_adds :
  forall e c x l,
    (unique_keys c = true ->
     Forall (fun y => key_equal e (key_of c x) (key_of c y) = false) l) ->
    unordered_insert e c x l ≡ₚ x :: l.


End round_trip_law.

(** ** The types of [examples/archive.cpp] *)

Module example.

Definition int : ty := fundamental 4.

(** [class point], with the hook [archive(self.m_x, self.m_y)]. *)
Definition point : ty := class_ "point" [] [int; int].

(** [std::string]: random-access iterators and a [data()] member. *)
Definition std_string : ty :=
  resizable {| random_access := true; has_data := true; lvalue_items := true |} (fundamental 1).

(** [std::vector<int>]. *)
Definition std_vector_int : ty :=
  resizable {| random_access := true; has_data := true; lvalue_items := true |} int.

(** [std::unordered_set<int>]. *)
Definition std_unordered_set_int : ty :=
  unordered {| unique_keys := true; is_map := false |} int.

(** [std::vector<bool>]: random-access iterators that give proxies, no
    [data()] member. *)
Definition std_vector_bool : ty :=
  resizable {| random_access := true; has_data := false; lvalue_items := false |}
            (fundamental 1).

(** [std::deque<int>]: random-access iterators, no [data()] member. *)
Definition std_deque_int : ty :=
  resizable {| random_access := true; has_data := false; lvalue_items := true |} int.

(** [class person : public polymorphic] and [class student : public person]. *)
Definition person : ty := class_ "person" [polymorphic] [std_string].
Definition student : ty := class_ "student" ["person"; polymorphic] [std_string; std_string].

(** Two classes outside the polymorphic family. *)
Definition shape : ty := class_ "shape" [] [int].
Definition circle : ty := class_ "circle" ["shape"] [int; int].

(** The characters of a [std::string]. *)
Definition text (s : string) : value :=
  items (map (fun c => scalar (Z.of_N (N_of_ascii c))) (String.list_ascii_of_string s)).

(** The registry [register_types<make_type<person, make_id("v1::person")>,
    make_type<student, make_id("v1::student")>>] leaves behind: the base
    class of [register_types] registers [student] first. *)
Definition registered_types : registry.t ty :=
  registry.add (make_id false "v1::person") "person" person
    (registry.add (make_id false "v1::student") "student" student registry.empty).

(** [operator<] on integers. *)
Definition less (_ : ty) (x y : value) : bool :=
  match x, y with
  | scalar a, scalar b => a <? b
  | _, _ => false
  end.

(** [operator==] on integers. *)
Definition equal_to (_ : ty) (x y : value) : bool :=
  match x, y with
  | scalar a, scalar b => a =? b
  | _, _ => false
  end.

(** A hash table that links a new element before the others - as the table
    of libstdc++ does while every element falls into a bucket of its own -
    and that tells keys apart with [equal_to]. *)
Definition link_front (e : ty) (c : associative_traits) (x : value) (l : list value)
    : list value :=
  if unique_keys c && existsb (fun y => equal_to e (key_of c x) (key_of c y)) l
  then l else x :: l.

Definition a_student : value := object student [text "1337"; text "1337University"].

Definition a_circle : value := object circle [scalar 1; scalar 2].

(** [std::map<int, int>]. *)
Definition std_map_int_int : ty :=
  associative {| unique_keys := true; is_map := true |} (pair int int).

(** [std::list<int>]: no random access, no [data()] member. *)
Definition std_list_int : ty :=
  resizable {| random_access := false; has_data := false; lvalue_items := true |} int.

(** A [std::tuple] of a [std::unordered_set<int>], a [std::map<int, int>],
    a [std::list<int>], a [std::shared_ptr<shape>] that holds a [circle]
    and a [std::unique_ptr<person>] that holds a [student]. *)
Definition some_types : ty :=
  tuple [std_unordered_set_int; std_map_int_int; std_list_int;
         handle shared_ptr shape; handle unique_ptr person].

Definition some_items : value :=
  items [items [scalar 9; scalar 1; scalar 5];
         items [items [scalar 1; scalar 10]; items [scalar 2; scalar 20]];
         items [scalar 3; scalar 2; scalar 1];
         pointer (Some a_circle);
         pointer (Some a_student)].

End example.

(** *** The comparison and the hash table of the examples

    Values that are equal at a type are scalars together, of the same
    bits. *)
Lemma equal_scalars (t : ty) (x y : value) :
  equal t x y ->
  match x, y with
  | scalar a, scalar b => a = b
  | scalar _, _ | _, scalar _ => False
  | _, _ => True
  end.
Proof.
  destruct t, x as [a | xs | [p |] | d ms], y as [b | ys | [q |] | d' ms']; cbn; try done.
Qed.

Lemma example_less_equal (c : associative_traits) (e k : ty) (a a' b b' : value) :
  key_type c e = Some k -> equal k a' a -> equal k b' b ->
  example.less e a' b' = example.less e a b.
Proof.
  intros _ Ea Eb. apply equal_scalars in Ea, Eb.
  destruct a', a; try done; destruct b', b; try done; by subst.
Qed.

Lemma example_equal_to_equal (c : associative_traits) (e k : ty) (a a' b b' : value) :
  key_type c e = Some k -> equal k a' a -> equal k b' b ->
  example.equal_to e a' b' = example.equal_to e a b.
Proof.
  intros _ Ea Eb. apply equal_scalars in Ea, Eb.
  destruct a', a; try done; destruct b', b; try done; by subst.
Qed.

Lemma link_front_adds (e : ty) (c : associative_traits) (x : value) (l : list value) :
  (unique_keys c = true ->
   Forall (fun y => example.equal_to e (key_of c x) (key_of c y) = false) l) ->
  example.link_front e c x l ≡ₚ x :: l.
Proof.
  intros H. unfold example.link_front. destruct (unique_keys c); [| done].
  specialize (H eq_refl).
  assert (existsb (fun y => example.equal_to e (key_of c x) (key_of c y)) l = false) as ->.
  { induction H as [| y l Hy _ IH]; [done |]. cbn [existsb]. by rewrite Hy, IH. }
  done.
Qed.


(** What comes back is equal to what was saved, and not the same: the hash
    table lists its elements in another order, and the [circle] behind the
    [std::shared_ptr<shape>] has come back as a [shape]. *)
Example round_trip_up_to_equality :
  fst (memory_input_archive_call little_endian example.less example.link_front
         example.registered_types 5
         [(example.some_types, default example.some_types)]
         (memory_input_archive_make
            (saved_bytes little_endian example.registered_types
               example.some_types example.some_items)))
  = (normal,
     [items [items [scalar 5; scalar 1; scalar 9];
             items [items [scalar 1; scalar 10]; items [scalar 2; scalar 20]];
             items [scalar 3; scalar 2; scalar 1];
             pointer (Some (object example.shape [scalar 1]));
             pointer (Some example.a_student)]]).
Proof. by vm_compute. Qed.

(** ** The polymorphic envelope *)

(** C2 (as amended). Polymorphic envelope: for a polymorphic class [T]
    registered under the identifier [I], saving an owning handle (of either
    kind, of any polymorphic static type) to a [T] writes the 8 bytes of
    [I] in the byte order of the host - little-endian on a little-endian
    host - followed by exactly the bytes that the static save of the [T]
    writes. Loading from where the 8 bytes of [I] lie reads them, finds the
    method registered under [I] and runs it: a value-initialised [T] is
    constructed and loaded in place from the bytes after the identifier;
    what comes out is an object of dynamic type [T]. If that load returns,
    the object is installed in the handle and what the handle held is
    deleted; if it throws, the object is deleted and the handle is left
    alone. The loading overload for the handle then hands the [T] to the
    caller if it casts to the static type of the handle, and throws
    [polymorphic_type_mismatch_error] if not. From the bytes that the save
    of a [T] wrote, the method loads an object equal to the one that was
    saved, and the cursor ends after the last of those bytes. *)
Theorem polymorphic_envelope (host : byte_order) (key_less : ty -> value -> value -> bool)
    (unordered_insert : ty -> associative_traits -> value -> list value -> list value)
    (sr lr : registry.t ty) (k : handle_kind) (base T : ty) (info : string) (I : Z)
    (mvs : list value) :
  is_base_of polymorphic base = true ->
  class_name T = Some info ->
  registry.m_type_information_to_serialization_id sr !! info = Some I ->
  registry.m_serialization_id_to_method sr !! I = Some T ->
  registry.m_serialization_id_to_method lr !! I = Some T ->
  0 <= I < 2 ^ 64 ->
  (forall a, save host sr (handle k base) (pointer (Some (object T mvs))) a
             = save host sr T (object T mvs) (lvmoa.serialize (object_bytes host 8 I) a)) /\
  saved_bytes host sr (handle k base) (pointer (Some (object T mvs)))
  = object_bytes host 8 I ++ saved_bytes host sr T (object T mvs) /\
  (host = little_endian -> object_bytes host 8 I = le_bytes 8 I) /\
  (forall fuel p input off,
     occurs (object_bytes host 8 I) off input ->
     exists o mvs' a',
       load host key_less unordered_insert lr fuel T (default T) (mvia.mk input (off + 8))
       = (o, object T mvs', a') /\
       registry_load host lr (load host key_less unordered_insert lr fuel) p (mvia.mk input off)
       = {| hl_outcome := o;
            hl_object := if decide (o = normal) then Some (object T mvs') else p;
            hl_destroyed := if decide (o = normal) then option_list p else [object T mvs'];
            hl_archive := a' |} /\
       load host key_less unordered_insert lr (S fuel) (handle k base) (pointer p)
         (mvia.mk input off)
       = if decide (o = normal) then
           if dynamic_cast_ok base (object T mvs')
           then (normal, pointer (Some (object T mvs')), a')
           else (thrown polymorphic_type_mismatch_error, pointer p, a')
         else (o, pointer p, a')) /\
  (round_trippable key_less sr lr T (object T mvs) ->
   forall fuel p input off,
     (depth (object T mvs) <= fuel)%nat ->
     occurs (saved_bytes host sr (handle k base) (pointer (Some (object T mvs)))) off input ->
     registry_load host lr (load host key_less unordered_insert lr fuel) p (mvia.mk input off)
     = {| hl_outcome := normal; hl_object := Some (object T mvs);
          hl_destroyed := option_list p;
          hl_archive :=
            mvia.mk input
              (off + length (saved_bytes host sr (handle k base)
                               (pointer (Some (object T mvs))))) |}).
Proof.
  intros Hbase Hname Hid Hsm Hlm Hrange.
  assert (Hsave : forall a,
    save host sr (handle k base) (pointer (Some (object T mvs))) a
    = save host sr T (object T mvs) (lvmoa.serialize (object_bytes host 8 I) a)).
  { intros a. cbn [save]. rewrite Hbase, Hname, Hid, Hsm.
    by rewrite (dynamic_cast_self _ _ _ Hname). }
  assert (Hbytes : saved_bytes host sr (handle k base) (pointer (Some (object T mvs)))
                   = object_bytes host 8 I ++ saved_bytes host sr T (object T mvs)).
  { destruct (save_appends host sr (object T mvs) T) as (o & w & A).
    rewrite (saved_bytes_appends host sr _ _ _ _ A).
    apply (saved_bytes_appends host sr _ _ o).
    eapply appends_ext; [exact Hsave |]. by apply appends_after. }
  split; [exact Hsave |]. split; [exact Hbytes |]. split; [by intros -> |]. split.
  - intros fuel p input off Hocc.
    pose proof (reads_scalar host 8 I (scalar 0) (id_range _ Hrange) _ _ Hocc) as E.
    rewrite length_object_bytes in E.
    destruct (load_object_type host key_less unordered_insert lr fuel T info
                (mvia.mk input (off + 8)) Hname) as [mvs' Hobj].
    destruct (load host key_less unordered_insert lr fuel T (default T)
                (mvia.mk input (off + 8))) as [[o loaded] a'] eqn:El.
    cbn [fst snd] in Hobj. subst loaded. exists o, mvs', a'. split; [done |].
    assert (Hreg : forall p',
              registry_load host lr (load host key_less unordered_insert lr fuel) p'
                (mvia.mk input off)
              = {| hl_outcome := o;
                   hl_object := if decide (o = normal) then Some (object T mvs') else p';
                   hl_destroyed :=
                     if decide (o = normal) then option_list p' else [object T mvs'];
                   hl_archive := a' |}).
    { intros p'. unfold registry_load. rewrite E, Hlm. unfold load_new_object.
      rewrite El. by destruct o. }
    split; [apply Hreg |].
    cbn [load]. rewrite Hbase. unfold load_polymorphic. rewrite Hreg.
    cbn [hl_outcome hl_object hl_destroyed hl_archive].
    destruct o; cbn [decide]; try done.
    destruct (decide (normal = normal)); [| done].
    by destruct (dynamic_cast_ok base (object T mvs')).
  - intros Hrt fuel p input off Hfuel Hocc. rewrite Hbytes in Hocc |- *.
    destruct (value_trips host key_less unordered_insert sr lr (object T mvs) T Hrt)
      as (w & A & R).
    rewrite (saved_bytes_appends host sr _ _ _ _ A) in Hocc |- *.
    destruct (occurs_app _ _ _ _ Hocc) as [O1 O2].
    unfold registry_load.
    rewrite (reads_scalar host 8 I (scalar 0) (id_range _ Hrange) _ _ O1), Hlm.
    unfold load_new_object.  rewrite (R fuel Hfuel _ _ O2).
    by rewrite length_app, Nat.add_assoc.
Qed.

Lemma polymorphic_envelope_witness :
  saved_bytes little_endian example.registered_types
    (handle unique_ptr example.person) (pointer (Some example.a_student))
  = le_bytes 8 (make_id false "v1::student")
    ++ saved_bytes little_endian example.registered_types example.student example.a_student /\
  registry_load little_endian example.registered_types
    (load little_endian example.less example.link_front example.registered_types 4) None
    (mvia.mk (saved_bytes little_endian example.registered_types
                (handle unique_ptr example.person) (pointer (Some example.a_student))) 0)
  = {| hl_outcome := normal; hl_object := Some example.a_student; hl_destroyed := [];
       hl_archive :=
         mvia.mk (saved_bytes little_endian example.registered_types
                    (handle unique_ptr example.person) (pointer (Some example.a_student)))
                 (0 + length (saved_bytes little_endian example.registered_types
                                (handle unique_ptr example.person)
                                (pointer (Some example.a_student)))) |}.
Proof.
  pose proof (polymorphic_envelope little_endian example.less example.link_front
                example.registered_types example.registered_types
                unique_ptr example.person example.student "student"
                (make_id false "v1::student")
                [example.text "1337"; example.text "1337University"]
                eq_refl eq_refl) as H.
  destruct H as (_ & H & _ & _ & Hload); [by vm_compute | by vm_compute | by vm_compute | |].
  - vm_compute. split; congruence.
  - split; [exact H |]. apply (Hload ltac:(vm_compute; repeat split; congruence) 4%nat None).
    + vm_compute. lia.
    + exists [], []. split; [by rewrite app_nil_r | done].
Defined.

(** C2, as stated, fails on a big-endian host: the identifier is written
    most significant byte first. *)
Lemma polymorphic_envelope_counterexample :
  firstn 8 (saved_bytes big_endian example.registered_types
              (handle unique_ptr example.person) (pointer (Some example.a_student)))
  = rev (le_bytes 8 (make_id false "v1::student")) /\
  firstn 8 (saved_bytes big_endian example.registered_types
              (handle unique_ptr example.person) (pointer (Some example.a_student)))
  <> le_bytes 8 (make_id false "v1::student").
Proof. split; [by vm_compute | vm_compute; congruence]. Qed.

(** ** Short input *)

(** C4. Out-of-range on short input: on the view archive, the load of a
    scalar of [n] bytes throws [out_of_range] exactly when fewer than [n]
    bytes remain from the cursor; then the cursor (and the item) are as
    they were; otherwise the load returns and the cursor has advanced by
    exactly [n]. *)
Theorem view_scalar_out_of_range (host : byte_order)
    (key_less : ty -> value -> value -> bool)
    (unordered_insert : ty -> associative_traits -> value -> list value -> list value)
    (lr : registry.t ty)
    (fuel n : nat) (x : Z) (a : mvia.t) :
  (0 < n)%nat ->
  let remaining := (mvia.m_size a - mvia.m_offset a)%nat in
  let '(o, v, a') := load host key_less unordered_insert lr (S fuel) (fundamental n) (scalar x) a in
  (o = thrown out_of_range <-> (remaining < n)%nat) /\
  (o = thrown out_of_range -> a' = a /\ v = scalar x) /\
  (o <> thrown out_of_range ->
   o = normal /\ mvia.m_input a' = mvia.m_input a /\
   mvia.m_offset a' = (mvia.m_offset a + n)%nat).
Proof.
  intros Hn. cbn [load]. unfold load_scalar, mvia.serialize.
  destruct (Nat.ltb_spec (mvia.m_size a) (n + mvia.m_offset a)) as [Hshort | Hlong];
    cbv zeta; cbn [mvia.m_offset mvia.m_input].
  - split; [| split]; [split; [lia | done] | done | done].
  - split; [| split]; [split; [discriminate | lia] | discriminate | done].
Qed.

Lemma view_scalar_out_of_range_witness :
  load little_endian example.less example.link_front registry.empty 1 (fundamental 4) (scalar 7)
       (mvia.mk [1; 2; 3; 4; 5; 6] 3)
  = (thrown out_of_range, scalar 7, mvia.mk [1; 2; 3; 4; 5; 6] 3).
Proof.
  pose proof (view_scalar_out_of_range little_endian example.less example.link_front registry.empty
                0 4 7 (mvia.mk [1; 2; 3; 4; 5; 6] 3) ltac:(lia)) as H.
  cbv zeta in H.
  destruct (load little_endian example.less example.link_front registry.empty 1 (fundamental 4) (scalar 7)
              (mvia.mk [1; 2; 3; 4; 5; 6] 3)) as [[o v] a'].
  destruct H as ([_ Hthrow] & Hsame & _).
  assert (Ho : o = thrown out_of_range) by (apply Hthrow; vm_compute; lia).
  destruct (Hsame Ho) as [-> ->]. by rewrite Ho.
Defined.

(** The same holds of the binary overload, [serialize(void *, size_type)]. *)
Lemma view_binary_out_of_range (size : Z) (a : mvia.t) :
  (mvia.m_offset a <= mvia.m_size a)%nat ->
  match mvia.serialize_binary size a with
  | (inl e, a') =>
      e = out_of_range /\ a' = a /\ (mvia.m_size a - mvia.m_offset a < Z.to_nat size)%nat
  | (inr bs, a') =>
      (Z.to_nat size <= mvia.m_size a - mvia.m_offset a)%nat /\
      length bs = Z.to_nat size /\
      mvia.m_offset a' = (mvia.m_offset a + Z.to_nat size)%nat
  end.
Proof.
  intros Hin. unfold mvia.serialize_binary, mvia.serialize.
  destruct (Nat.ltb_spec (mvia.m_size a) (Z.to_nat size + mvia.m_offset a)).
  - repeat split; lia.
  - cbn [mvia.m_offset]. split; [lia |]. split; [| done].
    unfold mvia.m_size in *. rewrite length_take, length_drop. lia.
Qed.

(** ** Empty handles *)

(** C5. Null rejection: the save of an owning handle that holds nothing -
    [std::unique_ptr] or [std::shared_ptr], of a polymorphic type or not -
    throws [attempt_to_serialize_null_pointer_error] and leaves the archive
    as it was: no byte of it is written. The top-level operation then fits
    the vector to the length in use, which, for an archive that starts the
    operation fitted, is the length the vector had. *)
Theorem save_empty_handle (host : byte_order) (sr : registry.t ty)
    (k : handle_kind) (type : ty) (a : lvmoa.t) :
  save host sr (handle k type) (pointer None) a
  = (thrown attempt_to_serialize_null_pointer_error, a) /\
  memory_output_archive_call host sr [(handle k type, pointer None)] a
  = (thrown attempt_to_serialize_null_pointer_error, lvmoa.fit_vector a) /\
  length (lvmoa.m_output (lvmoa.fit_vector a)) = lvmoa.m_size a /\
  (fitted a -> lvmoa.fit_vector a = a).
Proof.
  split; [reflexivity |]. split; [reflexivity |]. split.
  - unfold lvmoa.fit_vector. cbn [lvmoa.m_output]. apply vector_resize_length.
  - apply fit_vector_fitted.
Qed.

(** Every top-level save leaves the archive fitted, as the constructor does. *)
Lemma memory_output_archive_call_fitted (host : byte_order) (sr : registry.t ty)
    (args : list (ty * value)) (a : lvmoa.t) :
  fitted (snd (memory_output_archive_call host sr args a)).
Proof.
  unfold memory_output_archive_call. destruct (save_call host sr args a) as [o a'].
  unfold fitted, lvmoa.fit_vector. cbn [snd lvmoa.m_output lvmoa.m_size].
  by rewrite vector_resize_length.
Qed.

Lemma make_fitted (output : list Z) : fitted (lvmoa.make output).
Proof. reflexivity. Qed.

(** ** The registry only grows *)

Lemma emplace_keeps {K : Type} `{Countable K} {V : Type} (k k' : K) (v v' : V) (m : gmap K V) :
  m !! k' = Some v' -> registry.emplace k v m !! k' = Some v'.
Proof.
  intros Hk'. unfold registry.emplace. destruct (m !! k) eqn:Hk; [done |].
  rewrite lookup_insert_ne; [done |]. intros ->. congruence.
Qed.

Lemma emplace_present {K : Type} `{Countable K} {V : Type} (k : K) (v : V) (m : gmap K V) :
  is_Some (m !! k) -> registry.emplace k v m = m.
Proof. intros [v' Hv']. unfold registry.emplace. by rewrite Hv'. Qed.

(** A sequence of registrations, in the order they are made. *)
Definition add_all {M : Type} (later : list (Z * string * M)) (r : registry.t M) : registry.t M :=
  fold_left (fun r '(id, info, method) => registry.add id info method r) later r.

Lemma add_keeps {M : Type} (id : Z) (info : string) (method : M) (r : registry.t M) :
  (forall k m, registry.m_serialization_id_to_method r !! k = Some m ->
     registry.m_serialization_id_to_method (registry.add id info method r) !! k = Some m) /\
  (forall s i, registry.m_type_information_to_serialization_id r !! s = Some i ->
     registry.m_type_information_to_serialization_id (registry.add id info method r) !! s
     = Some i).
Proof. split; intros; cbn; by apply emplace_keeps. Qed.

Lemma add_all_keeps {M : Type} (later : list (Z * string * M)) (r : registry.t M) :
  (forall k m, registry.m_serialization_id_to_method r !! k = Some m ->
     registry.m_serialization_id_to_method (add_all later r) !! k = Some m) /\
  (forall s i, registry.m_type_information_to_serialization_id r !! s = Some i ->
     registry.m_type_information_to_serialization_id (add_all later r) !! s = Some i).
Proof.
  revert r. induction later as [| [[id info] method] later IH]; intros r; [done |].
  cbn [add_all fold_left]. destruct (IH (registry.add id info method r)) as [IH1 IH2].
  destruct (add_keeps id info method r) as [H1 H2].
  split; intros; [apply IH1, H1 | apply IH2, H2]; done.
Qed.

(** C6. Registry monotonicity: a registration under an identifier that is
    already present returns without an exception and leaves the map from
    identifiers to methods as it was; no key of the map from type
    descriptors to identifiers changes its value; and whatever
    registrations follow, every (id, method) pair and every (descriptor,
    id) pair registered before still resolves to the same value: entries
    are added, never removed, replaced or shadowed. *)
Theorem registry_add_monotone {M : Type} (r : registry.t M) (id : Z) (info : string)
    (method : M) :
  is_Some (registry.m_serialization_id_to_method r !! id) ->
  registry.m_serialization_id_to_method (registry.add id info method r)
  = registry.m_serialization_id_to_method r /\
  (forall s i, registry.m_type_information_to_serialization_id r !! s = Some i ->
     registry.m_type_information_to_serialization_id (registry.add id info method r) !! s
     = Some i) /\
  (forall later k m, registry.m_serialization_id_to_method r !! k = Some m ->
     registry.m_serialization_id_to_method
       (add_all later (registry.add id info method r)) !! k = Some m) /\
  (forall later s i, registry.m_type_information_to_serialization_id r !! s = Some i ->
     registry.m_type_information_to_serialization_id
       (add_all later (registry.add id info method r)) !! s = Some i).
Proof.
  intros Hpresent. destruct (add_keeps id info method r) as [H1 H2].
  split; [by apply emplace_present |]. split; [exact H2 |].
  split; intros later ? ? Hk;
    destruct (add_all_keeps later (registry.add id info method r)) as [A1 A2];
    [apply A1, H1 | apply A2, H2]; done.
Qed.

Lemma registry_add_monotone_witness :
  registry.m_serialization_id_to_method
    (registry.add (make_id false "v1::person") "student" example.student
       example.registered_types)
  = registry.m_serialization_id_to_method example.registered_types.
Proof.
  refine (proj1 (registry_add_monotone example.registered_types
                   (make_id false "v1::person") "student" example.student _)).
  exists example.person. by vm_compute.
Defined.

(** ** The overloads for resizable containers *)

(** Which overload a container of scalars resolves to. *)
Lemma select_resizable_scalar (d : direction) (c : container_traits) (e : ty) :
  is_fundamental e || is_enum e = true ->
  select_resizable d c e =
    if random_access c && has_data c then Some contiguous_fundamental
    else match d with
         | saving => Some per_element
         | loading => if random_access c then None else Some per_element
         end.
Proof.
  unfold select_resizable, per_element_guard, contiguous_guard.
  destruct d; destruct c as [[] [] ?]; destruct e; simpl; congruence.
Qed.

(** C8 (the code at the failing input). For a [std::deque<int>] - random
    access, no [data()] - the saving call resolves to the per-element
    overload, and the loading call resolves to nothing: the guard of the
    loading per-element overload lacks the disjunct on [data()] that the
    saving one has. *)
Theorem load_without_data_accessor :
  select_resizable saving
    {| random_access := true; has_data := false; lvalue_items := true |} example.int
  = Some per_element /\
  select_resizable loading
    {| random_access := true; has_data := false; lvalue_items := true |} example.int
  = None /\
  fst (fst (load little_endian example.less example.link_front registry.empty 2
              example.std_deque_int (default example.std_deque_int)
              (mvia.make [1; 0; 0; 0; 7; 0; 0; 0]))) = ill_formed /\
  fst (save little_endian registry.empty example.std_deque_int (items [scalar 7])
         (lvmoa.make [])) = normal.
Proof. by vm_compute. Qed.

(** A [std::vector<bool>] cannot be saved: the call resolves to the
    per-element overload, by the disjunct on [data()], and the loop of
    that overload, [for (auto & item : container)], does not bind the
    [bool] that a constant iterator gives. *)
Example save_vector_bool :
  select_resizable saving
    {| random_access := true; has_data := false; lvalue_items := false |} (fundamental 1)
  = Some per_element /\
  resizable_call saving
    {| random_access := true; has_data := false; lvalue_items := false |} (fundamental 1)
  = None /\
  save little_endian registry.empty example.std_vector_bool (items [scalar 1])
    (lvmoa.make [])
  = (ill_formed, lvmoa.make []).
Proof. by vm_compute. Qed.

(** ** The cursor of the view *)

(** From [a] to [a']: the input is the same, the offset has not gone back,
    and it stays within the input if it was. *)
Definition advances (a a' : mvia.t) : Prop :=
  mvia.m_input a' = mvia.m_input a /\
  (mvia.m_offset a <= mvia.m_offset a')%nat /\
  ((mvia.m_offset a <= mvia.m_size a)%nat -> (mvia.m_offset a' <= mvia.m_size a')%nat).

Lemma advances_refl (a : mvia.t) : advances a a.
Proof. unfold advances. auto. Qed.

Lemma advances_trans (a1 a2 a3 : mvia.t) :
  advances a1 a2 -> advances a2 a3 -> advances a1 a3.
Proof.
  unfold advances. intros (E1 & L1 & B1) (E2 & L2 & B2).
  split; [congruence |]. split; [lia | auto].
Qed.

Lemma serialize_advances (n : nat) (a : mvia.t) : advances a (snd (mvia.serialize n a)).
Proof.
  unfold mvia.serialize.
  destruct (Nat.ltb_spec (mvia.m_size a) (n + mvia.m_offset a)); cbn [snd].
  - apply advances_refl.
  - unfold advances, mvia.m_size in *. cbn [mvia.m_input mvia.m_offset]. repeat split; lia.
Qed.

Section cursor.

Variable host : byte_order.
Variable key_less : ty -> value -> value -> bool.
Variable unordered_insert : ty -> associative_traits -> value -> list value -> list value.
Variable loading_registry : registry.t ty.

Lemma load_scalar_advances (n : nat) (target : value) (a : mvia.t) :
  advances a (snd (load_scalar host n target a)).
Proof.
  unfold load_scalar. pose proof (serialize_advances n a) as H.
  by destruct (mvia.serialize n a) as [[e | bs] a'].
Qed.

Lemma load_scalar_normal (n : nat) (target v : value) (a a' : mvia.t) :
  load_scalar host n target a = (normal, v, a') -> exists x, v = scalar x.
Proof.
  unfold load_scalar. destruct (mvia.serialize n a) as [[e | bs] a1]; [discriminate |].
  intros [= <- _]. eauto.
Qed.

Lemma load_each_advances (ld : value -> mvia.t -> load_result) (targets : list value) :
  (forall x a, advances a (snd (ld x a))) ->
  forall a, advances a (snd (load_each ld targets a)).
Proof.
  intros Hld. induction targets as [| x xs IH]; intros a; cbn [load_each].
  - apply advances_refl.
  - pose proof (Hld x a) as H1. destruct (ld x a) as [[o x'] a1].
    destruct o; try exact H1.
    pose proof (IH a1) as H2. destruct (load_each ld xs a1) as [[o2 xs'] a2].
    exact (advances_trans _ _ _ H1 H2).
Qed.

Lemma load_items_advances (ld : ty -> value -> mvia.t -> load_result) (targets : list value) :
  (forall t x a, advances a (snd (ld t x a))) ->
  forall ts a, advances a (snd (load_items ld ts targets a)).
Proof.
  intros Hld. induction targets as [| x xs IH]; intros [| t ts] a; cbn [load_items];
    try apply advances_refl.
  pose proof (Hld t x a) as H1. destruct (ld t x a) as [[o x'] a1].
  destruct o; try exact H1.
  pose proof (IH ts a1) as H2. destruct (load_items ld ts xs a1) as [[o2 xs'] a2].
  exact (advances_trans _ _ _ H1 H2).
Qed.

Lemma load_members_advances (ld : ty -> value -> mvia.t -> load_result) (targets : list value) :
  (forall t x a, advances a (snd (ld t x a))) ->
  forall ts a, advances a (snd (load_members ld ts targets a)).
Proof.
  intros Hld. induction targets as [| x xs IH]; intros [| t ts] a; cbn [load_members];
    try apply advances_refl.
  pose proof (Hld t x a) as H1. destruct (ld t x a) as [[o x'] a1].
  destruct o; try exact H1.
  pose proof (IH ts a1) as H2. destruct (load_members ld ts xs a1) as [[o2 xs'] a2].
  exact (advances_trans _ _ _ H1 H2).
Qed.

Lemma load_inserting_advances (load_item : mvia.t -> load_result)
    (insert_item : value -> list value -> list value) (count : nat) :
  (forall a, advances a (snd (load_item a))) ->
  forall container a,
    advances a (snd (load_inserting load_item insert_item count container a)).
Proof.
  intros Hld. induction count as [| count IH]; intros container a; cbn [load_inserting].
  - apply advances_refl.
  - pose proof (Hld a) as H1. destruct (load_item a) as [[o x'] a1].
    destruct o; try exact H1.
    exact (advances_trans _ _ _ H1 (IH _ a1)).
Qed.

Lemma load_new_object_advances (ld : ty -> value -> mvia.t -> load_result)
    (type : ty) (object : option value) (a : mvia.t) :
  (forall t x a, advances a (snd (ld t x a))) ->
  advances a (hl_archive (load_new_object ld type object a)).
Proof.
  intros Hld. unfold load_new_object. pose proof (Hld type (default type) a) as H.
  destruct (ld type (default type) a) as [[o x'] a1]. by destruct o.
Qed.

Lemma registry_load_advances (ld : ty -> value -> mvia.t -> load_result)
    (object : option value) (a : mvia.t) :
  (forall t x a, advances a (snd (ld t x a))) ->
  advances a (hl_archive (registry_load host loading_registry ld object a)).
Proof.
  intros Hld. unfold registry_load. pose proof (load_scalar_advances 8 (scalar 0) a) as H1.
  destruct (load_scalar host 8 (scalar 0) a) as [[o v] a1]. cbn [snd] in H1.
  destruct o; try exact H1. destruct v; try exact H1.
  destruct (registry.m_serialization_id_to_method loading_registry !! bits); [| exact H1].
  exact (advances_trans _ _ _ H1 (load_new_object_advances ld _ _ a1 Hld)).
Qed.

Lemma load_polymorphic_advances (ld : ty -> value -> mvia.t -> load_result)
    (type : ty) (object : option value) (a : mvia.t) :
  (forall t x a, advances a (snd (ld t x a))) ->
  advances a (hl_archive (load_polymorphic host loading_registry ld type object a)).
Proof.
  intros Hld. unfold load_polymorphic.
  pose proof (registry_load_advances ld None a Hld) as H.
  destruct (registry_load host loading_registry ld None a) as [o obj destroyed a1].
  cbn [hl_outcome hl_object hl_destroyed hl_archive] in *.
  destruct o; try exact H. destruct obj; [| exact H].
  by destruct (dynamic_cast_ok type v).
Qed.

End cursor.

Section cursor_of_load.

Variable host : byte_order.
Variable key_less : ty -> value -> value -> bool.
Variable unordered_insert : ty -> associative_traits -> value -> list value -> list value.
Variable loading_registry : registry.t ty.

Local Abbreviation ld := (load host key_less unordered_insert loading_registry).

(** A load never moves the cursor back or out of the input, and never
    touches the input. *)
Lemma load_advances (fuel : nat) :
  forall t target a, advances a (snd (ld fuel t target a)).
Proof.
  induction fuel as [| fuel IH]; intros t target a; cbn [load].
  { apply advances_refl. }
  destruct t as [n | n | c e | c e | c e | k n e | t1 t2 | ts | k type | name bases ms];
    destruct target as [x | xs | p | dyn mvs]; try apply advances_refl.
  - apply load_scalar_advances.
  - apply load_scalar_advances.
  - (* resizable *)
    destruct (select_resizable loading c e) as [[|] |];
      [destruct (lvalue_items c); [| apply advances_refl] | | apply advances_refl];
      pose proof (load_scalar_advances host 4 (scalar 0) a) as H1;
      destruct (load_scalar host 4 (scalar 0) a) as [[o v] a1]; cbn [snd] in H1;
      destruct o; try exact H1; destruct v as [size | | |]; try exact H1.
    + pose proof (load_each_advances (ld fuel e)
                    (vector_resize (default e) (Z.to_nat size) xs) (IH e) a1) as H2.
      destruct (load_each _ _ a1) as [[o2 xs'] a2].
      exact (advances_trans _ _ _ H1 H2).
    + destruct (size =? 0); [exact H1 |].
      destruct (storage_bytes _ _ _); [| exact H1].
      pose proof (serialize_advances
                    (Z.to_nat (size_in_bytes
                       (size_type (Z.of_nat (length (vector_resize (default e)
                                                       (Z.to_nat size) xs))))
                       (sizeof e))) a1) as H2.
      unfold mvia.serialize_binary.
      destruct (mvia.serialize _ a1) as [[e' | bs] a2];
        exact (advances_trans _ _ _ H1 H2).
  - (* associative *)
    pose proof (load_scalar_advances host 4 (scalar 0) a) as H1.
    destruct (load_scalar host 4 (scalar 0) a) as [[o v] a1]; cbn [snd] in H1.
    destruct o; try exact H1. destruct v as [size | | |]; try exact H1.
    pose proof (load_inserting_advances (ld fuel e (default e))
                  (container_insert (key_less e) c) (Z.to_nat size)
                  (IH e (default e)) xs a1) as H2.
    destruct (load_inserting _ _ _ _ a1) as [[o2 xs'] a2].
    exact (advances_trans _ _ _ H1 H2).
  - (* unordered *)
    pose proof (load_scalar_advances host 4 (scalar 0) a) as H1.
    destruct (load_scalar host 4 (scalar 0) a) as [[o v] a1]; cbn [snd] in H1.
    destruct o; try exact H1. destruct v as [size | | |]; try exact H1.
    pose proof (load_inserting_advances (ld fuel e (default e))
                  (unordered_insert e c) (Z.to_nat size)
                  (IH e (default e)) xs a1) as H2.
    destruct (load_inserting _ _ _ _ a1) as [[o2 xs'] a2].
    exact (advances_trans _ _ _ H1 H2).
  - (* array *)
    destruct (length xs =? n)%nat; [| apply advances_refl].
    pose proof (load_each_advances (ld fuel e) xs (IH e) a) as H.
    by destruct (load_each _ _ a) as [[o2 xs'] a2].
  - pose proof (load_items_advances (ld fuel) xs IH [t1; t2] a) as H.
    by destruct (load_items _ _ _ a) as [[o2 xs'] a2].
  - pose proof (load_items_advances (ld fuel) xs IH ts a) as H.
    by destruct (load_items _ _ _ a) as [[o2 xs'] a2].
  - cbn [snd]. destruct (is_base_of polymorphic type).
    + by apply load_polymorphic_advances.
    + by apply load_new_object_advances.
  - pose proof (load_members_advances (ld fuel) mvs IH ms a) as H.
    by destruct (load_members _ _ _ a) as [[o2 xs'] a2].
Qed.

Lemma load_call_advances (fuel : nat) (args : list (ty * value)) (a : mvia.t) :
  advances a (snd (load_call host key_less unordered_insert loading_registry fuel args a)).
Proof. apply load_items_advances, load_advances. Qed.

End cursor_of_load.

(** ** What a load looks at *)

(** [f] looks at the input before the cursor it ends at, and at the length
    of the input, and at nothing else: on another input that has the same
    bytes up to there, and the same length - or any length that reaches
    there, unless [f] has run out of input - it does the same. And it
    needs every byte up to there: on an input cut before it, [f] runs out
    of input. *)
Definition framed {A : Type} (f : mvia.t -> outcome * A * mvia.t) : Prop :=
  forall input off,
    exists o x off',
      (off <= off')%nat /\
      (forall input2,
         firstn off' input2 = firstn off' input ->
         length input2 = length input \/
         (o <> thrown out_of_range /\ (off' <= length input2)%nat) ->
         f (mvia.mk input2 off) = (o, x, mvia.mk input2 off')) /\
      (forall input2,
         input2 = firstn (length input2) input ->
         (off <= length input2 < off')%nat ->
         fst (fst (f (mvia.mk input2 off))) = thrown out_of_range).

Lemma framed_ret {A : Type} (o : outcome) (x : A) : framed (fun a => (o, x, a)).
Proof. intros input off. exists o, x, off. split; [lia |]. split; [done | lia]. Qed.

Lemma take_agree {A : Type} (k n : nat) (l1 l2 : list A) :
  (k <= n)%nat -> firstn n l1 = firstn n l2 -> firstn k l1 = firstn k l2.
Proof.
  intros Hk E. rewrite <- (Nat.min_l k n Hk), <- !take_take. by rewrite E.
Qed.

Lemma take_drop_agree {A : Type} (n off : nat) (l1 l2 : list A) :
  firstn (off + n) l1 = firstn (off + n) l2 ->
  firstn n (skipn off l1) = firstn n (skipn off l2).
Proof. intros E. by rewrite !take_drop_commute, E. Qed.

Lemma take_prefix_agree {A : Type} (k : nat) (l l2 : list A) :
  l2 = firstn (length l2) l -> (k <= length l2)%nat -> firstn k l2 = firstn k l.
Proof.
  intros E Hk. rewrite E at 1. rewrite take_take. f_equal. lia.
Qed.

Lemma prefix_length {A : Type} (l l2 : list A) :
  l2 = firstn (length l2) l -> (length l2 <= length l)%nat.
Proof. intros E. rewrite E, length_take. lia. Qed.

(** The guard and the copy of [serialize]. *)
Lemma serialize_framed (n : nat) (input : list Z) (off : nat) :
  exists r off',
    (off <= off')%nat /\
    (r = None -> off' = off) /\
    (forall input2,
       firstn off' input2 = firstn off' input ->
       length input2 = length input \/ (r <> None /\ (off' <= length input2)%nat) ->
       mvia.serialize n (mvia.mk input2 off)
       = (match r with Some bs => inr bs | None => inl out_of_range end,
          mvia.mk input2 off')) /\
    (forall input2,
       input2 = firstn (length input2) input ->
       (off <= length input2 < off')%nat ->
       mvia.serialize n (mvia.mk input2 off) = (inl out_of_range, mvia.mk input2 off)).
Proof.
  destruct (Nat.ltb_spec (length input) (n + off)) as [Hshort | Hlong].
  - exists None, off. split; [lia |]. split; [done |]. split; [| lia].
    intros input2 _ [Hlen | [? _]]; [| done].
    unfold mvia.serialize, mvia.m_size. cbn [mvia.m_input mvia.m_offset]. rewrite Hlen.
    by destruct (Nat.ltb_spec (length input) (n + off)); [| lia].
  - exists (Some (firstn n (skipn off input))), (off + n)%nat.
    split; [lia |]. split; [done |]. split.
    + intros input2 Hagree Hlen.
      unfold mvia.serialize, mvia.m_size. cbn [mvia.m_input mvia.m_offset].
      destruct (Nat.ltb_spec (length input2) (n + off)); [lia |].
      by rewrite (take_drop_agree n off input2 input Hagree).
    + intros input2 _ Hlen.
      unfold mvia.serialize, mvia.m_size. cbn [mvia.m_input mvia.m_offset].
      by destruct (Nat.ltb_spec (length input2) (n + off)); [| lia].
Qed.

Section frame.

Variable host : byte_order.
Variable key_less : ty -> value -> value -> bool.
Variable unordered_insert : ty -> associative_traits -> value -> list value -> list value.
Variable loading_registry : registry.t ty.

Local Abbreviation ld := (load host key_less unordered_insert loading_registry).

Lemma load_scalar_framed (n : nat) (target : value) : framed (load_scalar host n target).
Proof.
  intros input off.
  destruct (serialize_framed n input off) as (r & off' & Hle & Hnone & Hsame & Hcut).
  destruct r as [bs |].
  - exists normal, (scalar (object_value host bs)), off'. split; [lia |]. split.
    + intros input2 Hagree Hlen. unfold load_scalar. rewrite Hsame; [done | done |].
      destruct Hlen as [? | [_ ?]]; [by left | by right].
    + intros input2 Hpre Hlen. unfold load_scalar. by rewrite Hcut.
  - rewrite (Hnone eq_refl) in *. exists (thrown out_of_range), target, off.
    split; [lia |]. split; [| lia].
    intros input2 Hagree Hlen. unfold load_scalar. rewrite Hsame; [done | done |].
    destruct Hlen as [? | [? _]]; [by left | done].
Qed.

(** One step followed by the rest. *)
Lemma framed_then {A B C : Type} (f : mvia.t -> outcome * A * mvia.t)
    (g : A -> mvia.t -> outcome * B * mvia.t) (stop : A -> C) (wrap : A -> B -> C)
    (h : mvia.t -> outcome * C * mvia.t) :
  framed f -> (forall x, framed (g x)) ->
  (forall a, h a = match f a with
                   | (normal, x, a1) => let '(o, y, a2) := g x a1 in (o, wrap x y, a2)
                   | (o, x, a1) => (o, stop x, a1)
                   end) ->
  framed h.
Proof.
  intros Hf Hg Hh input off.
  destruct (Hf input off) as (o & x & off1 & Hle1 & Hsame1 & Hcut1).
  destruct (decide (o = normal)) as [-> | Hne].
  - destruct (Hg x input off1) as (o2 & y & off2 & Hle2 & Hsame2 & Hcut2).
    exists o2, (wrap x y), off2. split; [lia |]. split.
    + intros input2 Hagree Hlen. rewrite Hh, Hsame1.
      * by rewrite Hsame2.
      * by apply (take_agree off1 off2).
      * destruct Hlen as [? | [_ ?]]; [by left | right; split; [done | lia]].
    + intros input2 Hpre Hlen. rewrite Hh.
      destruct (Nat.lt_ge_cases (length input2) off1) as [Hlt | Hge].
      * specialize (Hcut1 input2 Hpre ltac:(lia)).
        destruct (f (mvia.mk input2 off)) as [[o1 x1] a1]. cbn [fst] in Hcut1.
        by subst o1.
      * rewrite Hsame1; [| by apply take_prefix_agree | right; split; [done | lia]].
        specialize (Hcut2 input2 Hpre ltac:(lia)).
        by destruct (g x (mvia.mk input2 off1)) as [[o3 y3] a3].
  - exists o, (stop x), off1. split; [lia |]. split.
    + intros input2 Hagree Hlen. rewrite Hh, Hsame1 by done. by destruct o.
    + intros input2 Hpre Hlen. rewrite Hh.
      specialize (Hcut1 input2 Hpre Hlen).
      destruct (f (mvia.mk input2 off)) as [[o1 x1] a1]. cbn [fst] in Hcut1.
      by subst o1.
Qed.

Lemma framed_ext {A : Type} (f g : mvia.t -> outcome * A * mvia.t) :
  (forall a, f a = g a) -> framed g -> framed f.
Proof.
  intros E Hg input off. destruct (Hg input off) as (o & x & off' & Hle & Hsame & Hcut).
  exists o, x, off'. split; [done |]. split; intros input2 ? ?; rewrite E; auto.
Qed.

Lemma load_each_framed (f : value -> mvia.t -> load_result) (targets : list value) :
  (forall x, framed (f x)) -> framed (load_each f targets).
Proof.
  intros Hf. induction targets as [| x xs IH]; [apply framed_ret |].
  apply (framed_then (f x) (fun _ => load_each f xs) (fun x' => x' :: xs) cons);
    [apply Hf | done |].
  intros a. cbn [load_each]. destruct (f x a) as [[o x'] a1]. by destruct o.
Qed.

Lemma load_items_framed (f : ty -> value -> mvia.t -> load_result) (targets : list value) :
  (forall t x, framed (f t x)) ->
  forall ts, framed (load_items f ts targets) /\ framed (load_members f ts targets).
Proof.
  intros Hf. induction targets as [| x xs IH]; intros [| t ts];
    try (split; apply framed_ret).
  destruct (IH ts) as [IH1 IH2]. split.
  - apply (framed_then (f t x) (fun _ => load_items f ts xs) (fun x' => x' :: xs) cons);
      [apply Hf | done |].
    intros a. cbn [load_items]. destruct (f t x a) as [[o x'] a1]. by destruct o.
  - apply (framed_then (f t x) (fun _ => load_members f ts xs) (fun x' => x' :: xs) cons);
      [apply Hf | done |].
    intros a. cbn [load_members]. destruct (f t x a) as [[o x'] a1]. by destruct o.
Qed.

Lemma load_inserting_framed (load_item : mvia.t -> load_result)
    (insert_item : value -> list value -> list value) (count : nat) :
  framed load_item ->
  forall container, framed (load_inserting load_item insert_item count container).
Proof.
  intros Hf. induction count as [| count IH]; intros container; [apply framed_ret |].
  apply (framed_then load_item
           (fun item => load_inserting load_item insert_item count
                          (insert_item item container))
           (fun _ => container) (fun _ xs => xs)); [done | intros x; apply IH |].
  intros a. cbn [load_inserting]. destruct (load_item a) as [[o x'] a1].
  destruct o; try done. by destruct (load_inserting _ _ _ _ a1) as [[o2 xs2] a2].
Qed.


Lemma serialize_binary_framed (size : Z) (xs : list value) (k : list Z -> list value) :
  framed (fun a => match mvia.serialize_binary size a with
                   | (inl e', a2) => (thrown e', items xs, a2)
                   | (inr bs, a2) => (normal, items (k bs), a2)
                   end).
Proof.
  intros input off. unfold mvia.serialize_binary.
  destruct (serialize_framed (Z.to_nat size) input off)
    as (r & off' & Hle & Hnone & Hsame & Hcut).
  destruct r as [bs |].
  - exists normal, (items (k bs)), off'. split; [lia |]. split.
    + intros input2 Hagree Hlen. rewrite Hsame; [done | done |].
      destruct Hlen as [? | [_ ?]]; [by left | by right].
    + intros input2 Hpre Hlen. by rewrite Hcut.
  - rewrite (Hnone eq_refl) in *. exists (thrown out_of_range), (items xs), off.
    split; [lia |]. split; [| lia].
    intros input2 Hagree Hlen. rewrite Hsame; [done | done |].
    destruct Hlen as [? | [? _]]; [by left | done].
Qed.

(** After the length prefix. *)
Lemma framed_prefixed (target : value) (g : Z -> mvia.t -> load_result)
    (f : mvia.t -> load_result) :
  (forall size, framed (g size)) ->
  (forall a, f a = match load_scalar host 4 (scalar 0) a with
                   | (normal, scalar size, a1) => g size a1
                   | (o, _, a1) => (o, target, a1)
                   end) ->
  framed f.
Proof.
  intros Hg Hf.
  apply (framed_then (load_scalar host 4 (scalar 0))
           (fun v => match v with
                     | scalar size => g size
                     | _ => fun a1 => (normal, target, a1)
                     end)
           (fun _ => target) (fun _ y => y)).
  - apply load_scalar_framed.
  - intros [size | | |]; [apply Hg | apply framed_ret ..].
  - intros a. rewrite Hf. destruct (load_scalar host 4 (scalar 0) a) as [[o v] a1].
    destruct o; try done. destruct v as [size | | |]; try done.
    by destruct (g size a1) as [[o2 y] a2].
Qed.

Lemma framed_wrapped (g : mvia.t -> outcome * list value * mvia.t)
    (k : list value -> value) (f : mvia.t -> load_result) :
  framed g ->
  (forall a, f a = let '(o, xs, a') := g a in (o, k xs, a')) ->
  framed f.
Proof.
  intros Hg Hf input off. destruct (Hg input off) as (o & xs & off' & Hle & Hsame & Hcut).
  exists o, (k xs), off'. split; [done |]. split.
  - intros input2 Hagree Hlen. by rewrite Hf, Hsame.
  - intros input2 Hpre Hlen. rewrite Hf. specialize (Hcut input2 Hpre Hlen).
    by destruct (g (mvia.mk input2 off)) as [[o2 xs2] a2].
Qed.

(** The loading of a handle: the identifier, then the registered method. *)
Lemma load_polymorphic_framed (f : ty -> value -> mvia.t -> load_result)
    (type : ty) (p : option value) :
  (forall t x, framed (f t x)) ->
  framed (fun a => let r := load_polymorphic host loading_registry f type p a in
                   (hl_outcome r, pointer (hl_object r), hl_archive r)).
Proof.
  intros Hf.
  apply (framed_then (load_scalar host 8 (scalar 0))
           (fun v =>
              match v with
              | scalar id =>
                  match registry.m_serialization_id_to_method loading_registry !! id with
                  | Some method_type =>
                      fun a1 =>
                        match f method_type (default method_type) a1 with
                        | (normal, loaded, a2) =>
                            if dynamic_cast_ok type loaded
                            then (normal, pointer (Some loaded), a2)
                            else (thrown polymorphic_type_mismatch_error, pointer p, a2)
                        | (o, _, a2) => (o, pointer p, a2)
                        end
                  | None =>
                      fun a1 => (thrown undeclared_polymorphic_type_error, pointer p, a1)
                  end
              | _ => fun a1 => (ill_formed, pointer p, a1)
              end)
           (fun _ => pointer p) (fun _ y => y)).
  - apply load_scalar_framed.
  - intros [id | | |]; try apply framed_ret.
    destruct (registry.m_serialization_id_to_method loading_registry !! id)
      as [method_type |]; [| apply framed_ret].
    apply (framed_then (f method_type (default method_type))
             (fun loaded a2 =>
                if dynamic_cast_ok type loaded
                then (normal, pointer (Some loaded), a2)
                else (thrown polymorphic_type_mismatch_error, pointer p, a2))
             (fun _ => pointer p) (fun _ y => y)); [apply Hf | |].
    + intros loaded. destruct (dynamic_cast_ok type loaded); apply framed_ret.
    + intros a. destruct (f method_type (default method_type) a) as [[o loaded] a1].
      destruct o; try done. by destruct (dynamic_cast_ok type loaded).
  - intros a. unfold load_polymorphic, registry_load.
    destruct (load_scalar host 8 (scalar 0) a) as [[o v] a1].
    destruct o; try done. destruct v as [id | | |]; try done.
    destruct (registry.m_serialization_id_to_method loading_registry !! id)
      as [method_type |]; [| done].
    unfold load_new_object.
    destruct (f method_type (default method_type) a1) as [[o loaded] a2].
    destruct o; try done. cbn [hl_outcome hl_object hl_destroyed hl_archive].
    by destruct (dynamic_cast_ok type loaded).
Qed.

Lemma load_new_object_framed (f : ty -> value -> mvia.t -> load_result)
    (type : ty) (p : option value) :
  (forall t x, framed (f t x)) ->
  framed (fun a => let r := load_new_object f type p a in
                   (hl_outcome r, pointer (hl_object r), hl_archive r)).
Proof.
  intros Hf.
  apply (framed_then (f type (default type))
           (fun loaded a1 => (normal, pointer (Some loaded), a1))
           (fun _ => pointer p) (fun _ y => y)); [apply Hf | intros; apply framed_ret |].
  intros a. unfold load_new_object.
  destruct (f type (default type) a) as [[o loaded] a1]. by destruct o.
Qed.

Lemma load_framed (fuel : nat) : forall t target, framed (ld fuel t target).
Proof.
  induction fuel as [| fuel IH]; intros t target; [apply framed_ret |].
  destruct t as [n | n | c e | c e | c e | k n e | t1 t2 | ts | k type | name bases ms];
    destruct target as [x | xs | p | dyn mvs]; try apply framed_ret.
  - apply load_scalar_framed.
  - apply load_scalar_framed.
  - (* resizable *)
    destruct (select_resizable loading c e) as [[|] |] eqn:Hsel.
    + destruct (lvalue_items c) eqn:Hlvalue.
      2: { eapply framed_ext; [| apply (framed_ret ill_formed (items xs))].
           intros a. cbn [load]. by rewrite Hsel, Hlvalue. }
      eapply (framed_prefixed (items xs)
                (fun size a1 =>
                   let '(o, xs', a2) :=
                     load_each (ld fuel e)
                       (vector_resize (default e) (Z.to_nat size) xs) a1 in
                   (o, items xs', a2))).
      * intros size. eapply framed_wrapped; [apply load_each_framed, IH | reflexivity].
      * intros a. cbn [load]. by rewrite Hsel, Hlvalue.
    + eapply (framed_prefixed (items xs)
                (fun size a1 =>
                   let xs1 := vector_resize (default e) (Z.to_nat size) xs in
                   if size =? 0 then (normal, items xs1, a1)
                   else
                     match storage_bytes host (sizeof e) xs1 with
                     | Some storage =>
                         match mvia.serialize_binary
                                 (size_in_bytes (size_type (Z.of_nat (length xs1)))
                                    (sizeof e)) a1 with
                         | (inl e', a2) => (thrown e', items xs1, a2)
                         | (inr bs, a2) =>
                             (normal,
                              items (storage_values host (sizeof e) (length xs1)
                                       (bs ++ skipn (length bs) storage)), a2)
                         end
                     | None => (ill_formed, items xs1, a1)
                     end)).
      * intros size. cbv zeta. destruct (size =? 0); [apply framed_ret |].
        destruct (storage_bytes _ _ _) as [storage |]; [| apply framed_ret].
        apply (serialize_binary_framed _ _
                 (fun bs => storage_values host (sizeof e) _ (bs ++ skipn (length bs) storage))).
      * intros a. cbn [load]. by rewrite Hsel.
    + eapply framed_ext; [| apply (framed_ret ill_formed (items xs))].
      intros a. cbn [load]. by rewrite Hsel.
  - (* associative *)
    eapply (framed_prefixed (items xs)
              (fun size a1 =>
                 let '(o, xs', a2) :=
                   load_inserting (ld fuel e (default e))
                     (container_insert (key_less e) c) (Z.to_nat size) xs a1 in
                 (o, items xs', a2))).
    + intros size. eapply framed_wrapped; [apply load_inserting_framed, IH | reflexivity].
    + intros a. reflexivity.
  - (* unordered *)
    eapply (framed_prefixed (items xs)
              (fun size a1 =>
                 let '(o, xs', a2) :=
                   load_inserting (ld fuel e (default e))
                     (unordered_insert e c) (Z.to_nat size) xs a1 in
                 (o, items xs', a2))).
    + intros size. eapply framed_wrapped; [apply load_inserting_framed, IH | reflexivity].
    + intros a. reflexivity.
  - (* array *)
    destruct (Nat.eqb_spec (length xs) n) as [Hn | Hn].
    + eapply framed_wrapped; [apply (load_each_framed (ld fuel e) xs), IH |].
      intros a. cbn [load]. by destruct (Nat.eqb_spec (length xs) n).
    + eapply framed_ext; [| apply (framed_ret ill_formed (items xs))].
      intros a. cbn [load]. by destruct (Nat.eqb_spec (length xs) n).
  - eapply framed_wrapped; [apply (proj1 (load_items_framed (ld fuel) xs IH [t1; t2])) |].
    reflexivity.
  - eapply framed_wrapped; [apply (proj1 (load_items_framed (ld fuel) xs IH ts)) |].
    reflexivity.
  - destruct (is_base_of polymorphic type) eqn:Hpoly.
    + eapply framed_ext; [| apply (load_polymorphic_framed (ld fuel) type p IH)].
      intros a. cbn [load]. by rewrite Hpoly.
    + eapply framed_ext; [| apply (load_new_object_framed (ld fuel) type p IH)].
      intros a. cbn [load]. by rewrite Hpoly.
  - eapply framed_wrapped with (k := object dyn);
      [apply (proj2 (load_items_framed (ld fuel) mvs IH ms)) |]. reflexivity.
Qed.

Lemma load_call_framed (fuel : nat) (args : list (ty * value)) :
  framed (load_call host key_less unordered_insert loading_registry fuel args).
Proof.
  unfold load_call. apply (proj1 (load_items_framed _ _ (load_framed fuel) _)).
Qed.

End frame.

Section cleanup.

Variable host : byte_order.
Variable key_less : ty -> value -> value -> bool.
Variable unordered_insert : ty -> associative_traits -> value -> list value -> list value.
Variable loading_registry : registry.t ty.

(** C9. Owning-vector loader cleanup: whatever the outcome of the
    operation - return or exception - [memory_input_archive::operator()]
    ends with the bytes the load consumed erased from the front of the
    vector and with the offset reset to zero; the next operation then
    starts at the first byte of what is left, as on a new archive. The
    erased bytes are exactly the consumed ones: they are the bytes the
    cursor of the view went over; outcome and items do not depend on the
    bytes that stay - whatever bytes follow the erased ones (as many as
    there were, if the load ran out of input), the call ends the same and
    leaves those bytes; and none of the erased bytes is spare - on a vector
    that ends before the last of them, the load runs out of input. *)
Theorem memory_input_archive_cleanup (fuel : nat) (args : list (ty * value))
    (a : memory_input_archive) :
  let '(o, targets, a') :=
    memory_input_archive_call host key_less unordered_insert loading_registry fuel args a in
  exists consumed,
    mia_input a = consumed ++ mia_input a' /\
    load_call host key_less unordered_insert loading_registry fuel args
      (mvia.make (mia_input a))
    = (o, targets, mvia.mk (mia_input a) (length consumed)) /\
    mvia.get_offset (mia_view a') = 0%nat /\
    (forall fuel2 args2,
       memory_input_archive_call host key_less unordered_insert loading_registry
         fuel2 args2 a'
       = memory_input_archive_call host key_less unordered_insert loading_registry
           fuel2 args2 (memory_input_archive_make (mia_input a'))) /\
    (forall rest,
       length rest = length (mia_input a') \/ o <> thrown out_of_range ->
       exists a'',
         memory_input_archive_call host key_less unordered_insert loading_registry
           fuel args (memory_input_archive_make (consumed ++ rest))
         = (o, targets, a'') /\
         mia_input a'' = rest) /\
    (forall m, (m < length consumed)%nat ->
       fst (fst (memory_input_archive_call host key_less unordered_insert
                   loading_registry fuel args
                   (memory_input_archive_make (firstn m consumed))))
       = thrown out_of_range).
Proof.
  destruct (load_call_framed host key_less unordered_insert loading_registry fuel args
              (mia_input a) 0%nat) as (o & xs & off' & _ & Hsame & Hcut).
  pose proof (Hsame (mia_input a) eq_refl (or_introl eq_refl)) as E.
  pose proof (load_call_advances host key_less unordered_insert loading_registry fuel args
                (mvia.make (mia_input a))) as (_ & _ & Hin).
  unfold mvia.make in Hin. rewrite E in Hin. cbn [snd mvia.m_offset] in Hin.
  unfold mvia.m_size in Hin. cbn [mvia.m_input] in Hin. specialize (Hin ltac:(lia)).
  assert (Hlen : length (firstn off' (mia_input a)) = off') by (rewrite length_take; lia).
  unfold memory_input_archive_call at 1. unfold mvia.make. rewrite E.
  cbn [mvia.get_offset mvia.m_offset mvia.reset mvia.m_input mia_input mia_view].
  unfold vector_erase_front. exists (firstn off' (mia_input a)).
  split; [by rewrite take_drop |]. split; [by rewrite Hlen |]. split; [done |].
  split; [done |]. split.
  - intros rest Hrest.
    unfold memory_input_archive_call, memory_input_archive_make, mvia.make.
    cbn [mia_input]. rewrite Hsame.
    + eexists. split; [reflexivity |].
      cbn [mia_input mvia.get_offset mvia.m_offset]. unfold vector_erase_front.
      by rewrite drop_app_length'.
    + by rewrite take_app_length'.
    + rewrite length_app, Hlen.
      destruct Hrest as [Hrest | Hne]; [left | right; split; [done | lia]].
      rewrite Hrest, length_drop. lia.
  - intros m Hm. rewrite Hlen in Hm.
    unfold memory_input_archive_call, memory_input_archive_make, mvia.make.
    cbn [mia_input].
    assert (Hm' : length (firstn m (firstn off' (mia_input a))) = m)
      by (rewrite !length_take; lia).
    specialize (Hcut (firstn m (firstn off' (mia_input a)))).
    rewrite Hm' in Hcut. specialize (Hcut ltac:(rewrite take_take; f_equal; lia) ltac:(lia)).
    by destruct (load_call _ _ _ _ _ _ (mvia.mk (firstn m (firstn off' (mia_input a))) 0))
      as [[o2 xs2] a2].
Qed.

End cleanup.


(** ** The downcast after a polymorphic load *)

Lemma registry_load_destroyed (host : byte_order) (lr : registry.t ty)
    (ld : ty -> value -> mvia.t -> load_result) (object : option value) (a : mvia.t) :
  hl_outcome (registry_load host lr ld object a) = normal ->
  hl_destroyed (registry_load host lr ld object a) = option_list object.
Proof.
  unfold registry_load, load_new_object.
  destruct (load_scalar host 8 (scalar 0) a) as [[o v] a1] eqn:E.
  destruct o; cbn; try congruence.
  destruct (load_scalar_normal host _ _ _ _ _ E) as [id ->].
  destruct (registry.m_serialization_id_to_method lr !! id); cbn; [| congruence].
  destruct (ld t (default t) a1) as [[o x'] a2].
  destruct o; cbn; congruence.
Qed.

(** C7. Polymorphic downcast failure: when the registry has loaded an
    object whose class cannot be cast to the type of the caller's handle,
    the loading overload throws [polymorphic_type_mismatch_error]; the
    loaded object is the one object the call deletes, and the caller's
    handle holds what it held. *)
Theorem polymorphic_downcast_failure (host : byte_order)
    (key_less : ty -> value -> value -> bool)
    (unordered_insert : ty -> associative_traits -> value -> list value -> list value)
    (lr : registry.t ty)
    (fuel : nat) (k : handle_kind) (type : ty) (object : option value)
    (loaded : value) (a : mvia.t) :
  is_base_of polymorphic type = true ->
  hl_outcome (registry_load host lr (load host key_less unordered_insert lr fuel) None a) = normal ->
  hl_object (registry_load host lr (load host key_less unordered_insert lr fuel) None a) = Some loaded ->
  dynamic_cast_ok type loaded = false ->
  load_polymorphic host lr (load host key_less unordered_insert lr fuel) type object a
  = {| hl_outcome := thrown polymorphic_type_mismatch_error;
       hl_object := object;
       hl_destroyed := [loaded];
       hl_archive := hl_archive (registry_load host lr (load host key_less unordered_insert lr fuel) None a) |}
  /\
  load host key_less unordered_insert lr (S fuel) (handle k type) (pointer object) a
  = (thrown polymorphic_type_mismatch_error, pointer object,
     hl_archive (registry_load host lr (load host key_less unordered_insert lr fuel) None a)).
Proof.
  intros Hpoly Hnormal Hloaded Hcast.
  assert (E : load_polymorphic host lr (load host key_less unordered_insert lr fuel) type object a
    = {| hl_outcome := thrown polymorphic_type_mismatch_error;
         hl_object := object;
         hl_destroyed := [loaded];
         hl_archive :=
           hl_archive (registry_load host lr (load host key_less unordered_insert lr fuel) None a) |}).
  { unfold load_polymorphic.
    rewrite Hnormal, Hloaded, Hcast, (registry_load_destroyed _ _ _ _ _ Hnormal). done. }
  split; [exact E |]. cbn [load]. by rewrite Hpoly, E.
Qed.

(** A [person] was saved; a [std::unique_ptr<student>] is loaded. *)
Lemma polymorphic_downcast_failure_witness :
  load little_endian example.less example.link_front example.registered_types 3
    (handle unique_ptr example.student) (pointer None)
    (mvia.make (saved_bytes little_endian example.registered_types
                  (handle unique_ptr example.person)
                  (pointer (Some (object example.person [example.text "X"])))))
  = (thrown polymorphic_type_mismatch_error, pointer None,
     mvia.mk (saved_bytes little_endian example.registered_types
                (handle unique_ptr example.person)
                (pointer (Some (object example.person [example.text "X"])))) 13).
Proof.
  refine (eq_trans
            (proj2 (polymorphic_downcast_failure little_endian example.less example.link_front
                      example.registered_types 2 unique_ptr example.student None
                      (object example.person [example.text "X"]) _ _ _ _ _)) _);
    by vm_compute.
Defined.

(** ** The length prefix *)

(** The types whose save starts with a length prefix: the resizable
    containers whose saving call compiles, and the associative ones. *)
Definition length_prefixed (t : ty) : Prop :=
  match t with
  | resizable c e => resizable_call saving c e <> None
  | associative _ _ | unordered _ _ => True
  | _ => False
  end.

(** The insertion into the hash table of type [t] adds one element at
    most. In the other containers an insertion never adds more. *)
Definition adds_one_at_most
    (insert : ty -> associative_traits -> value -> list value -> list value)
    (t : ty) : Prop :=
  match t with
  | unordered c e => forall x l, (length (insert e c x l) <= S (length l))%nat
  | _ => True
  end.

Lemma load_each_length (ld : value -> mvia.t -> load_result) (targets : list value)
    (a : mvia.t) :
  length (snd (fst (load_each ld targets a))) = length targets.
Proof.
  revert a. induction targets as [| x xs IH]; intros a; cbn [load_each]; [done |].
  destruct (ld x a) as [[o x'] a1]. specialize (IH a1).
  destruct o; try done.
  destruct (load_each ld xs a1) as [[o2 xs'] a2]. cbn in *. by rewrite IH.
Qed.

Lemma storage_values_length (host : byte_order) (n count : nat) (bs : list Z) :
  length (storage_values host n count bs) = count.
Proof.
  revert bs. induction count as [| count IH]; intros bs; cbn; [done | by rewrite IH].
Qed.

Lemma container_insert_length (less : value -> value -> bool) (c : associative_traits)
    (x : value) (l : list value) :
  (length (container_insert less c x l) <= S (length l))%nat.
Proof.
  induction l as [| y l IH]; cbn; [lia |].
  destruct (less _ _); cbn; [lia |]. destruct (_ && _); cbn; lia.
Qed.

Lemma load_inserting_length (load_item : mvia.t -> load_result)
    (insert_item : value -> list value -> list value) (count : nat)
    (container : list value) (a : mvia.t) :
  (forall x l, (length (insert_item x l) <= S (length l))%nat) ->
  (length (snd (fst (load_inserting load_item insert_item count container a)))
   <= length container + count)%nat.
Proof.
  intros Hinsert. revert container a. induction count as [| count IH]; intros container a;
    cbn [load_inserting]; [cbn; lia |].
  destruct (load_item a) as [[o item] a1].
  destruct o; try (cbn; lia).
  specialize (IH (insert_item item container) a1).
  pose proof (Hinsert item container). lia.
Qed.

Section length_prefix.

Variable host : byte_order.
Variable key_less : ty -> value -> value -> bool.
Variable unordered_insert : ty -> associative_traits -> value -> list value -> list value.
Variable saving_registry : registry.t ty.
Variable loading_registry : registry.t ty.

Lemma container_save_prefixed (t : ty) (vs : list value) :
  length_prefixed t ->
  exists o rest,
    appends (save host saving_registry t (items vs)) o
            (object_bytes host 4 (size_type (Z.of_nat (length vs))) ++ rest).
Proof.
  assert (Heach : forall e, exists o w,
             appends (save_each (save host saving_registry e) vs) o w).
  { intros e. apply save_each_appends, Forall_forall. intros v _. apply save_appends. }
  destruct t as [| | c e | c e | c e | | | | |]; try contradiction; intros Hsel; cbn [save].
  - cbn [length_prefixed] in Hsel. unfold resizable_call in Hsel.
    destruct (select_resizable saving c e) as [[|] |]; [| | done].
    + destruct (Heach e) as (o & w & Hw). exists o, w.
      destruct (lvalue_items c); [| done].
      eapply appends_ext; [| eapply appends_after; exact Hw]. reflexivity.
    + destruct (size_type (Z.of_nat (length vs)) =? 0).
      * exists normal, []. rewrite app_nil_r. apply appends_serialize.
      * destruct (storage_bytes host (sizeof e) vs).
        -- eexists normal, _. eapply appends_ext;
             [| eapply appends_after; apply appends_serialize]. reflexivity.
        -- exists ill_formed, []. eapply appends_ext;
             [| eapply appends_after; apply (appends_ret ill_formed)]. reflexivity.
  - destruct (Heach e) as (o & w & Hw). exists o, w.
    eapply appends_ext; [| eapply appends_after; exact Hw]. reflexivity.
  - destruct (Heach e) as (o & w & Hw). exists o, w.
    eapply appends_ext; [| eapply appends_after; exact Hw]. reflexivity.
Qed.

(** A container that a load returns has at most as many elements as the
    prefix the load read. *)
Lemma load_container_length (fuel : nat) (t : ty) (xs : list value) (a a' : mvia.t) :
  length_prefixed t ->
  adds_one_at_most unordered_insert t ->
  load host key_less unordered_insert loading_registry fuel t (items []) a
  = (normal, items xs, a') ->
  exists size a1,
    load_scalar host 4 (scalar 0) a = (normal, scalar size, a1) /\
    (length xs <= Z.to_nat size)%nat.
Proof.
  intros Ht Hinsert. destruct fuel as [| fuel]; [discriminate |].
  destruct t as [| | c e | c e | c e | | | | |]; try contradiction; cbn [load].
  - destruct (select_resizable loading c e) as [[|] |];
      [destruct (lvalue_items c); [| discriminate] | | discriminate];
      destruct (load_scalar host 4 (scalar 0) a) as [[o v] a1] eqn:E;
      destruct o; try discriminate;
      destruct (load_scalar_normal host _ _ _ _ _ E) as [size ->].
    + pose proof (load_each_length (load host key_less unordered_insert loading_registry fuel e)
                    (vector_resize (default e) (Z.to_nat size) []) a1) as Hlen.
      destruct (load_each _ _ a1) as [[o2 xs'] a2]. intros [= -> <- <-].
      exists size, a1. split; [done |].
      cbn in Hlen. rewrite Hlen, vector_resize_length. lia.
    + destruct (size =? 0).
      * intros [= <- <-]. exists size, a1. split; [done |].
        rewrite vector_resize_length. lia.
      * destruct (storage_bytes _ _ _); [| discriminate].
        destruct (mvia.serialize_binary _ a1) as [[e' | bs] a2]; [discriminate |].
        intros [= <- <-]. exists size, a1. split; [done |].
        rewrite storage_values_length, vector_resize_length. lia.
  - destruct (load_scalar host 4 (scalar 0) a) as [[o v] a1] eqn:E.
    destruct o; try discriminate.
    destruct (load_scalar_normal host _ _ _ _ _ E) as [size ->].
    pose proof (load_inserting_length
                  (load host key_less unordered_insert loading_registry fuel e (default e))
                  (container_insert (key_less e) c) (Z.to_nat size) [] a1
                  (container_insert_length (key_less e) c)) as Hlen.
    destruct (load_inserting _ _ _ _ a1) as [[o2 xs'] a2]. intros [= -> <- <-].
    exists size, a1. split; [done |]. cbn in Hlen. lia.
  - destruct (load_scalar host 4 (scalar 0) a) as [[o v] a1] eqn:E.
    destruct o; try discriminate.
    destruct (load_scalar_normal host _ _ _ _ _ E) as [size ->].
    pose proof (load_inserting_length
                  (load host key_less unordered_insert loading_registry fuel e (default e))
                  (unordered_insert e c) (Z.to_nat size) [] a1 Hinsert) as Hlen.
    destruct (load_inserting _ _ _ _ a1) as [[o2 xs'] a2]. intros [= -> <- <-].
    exists size, a1. split; [done |]. cbn in Hlen. lia.
Qed.

End length_prefix.

(** C10. Length prefix narrowing: the save of a resizable or associative
    container - in key order, or a hash table - starts by writing, as a
    32-bit scalar, the size of the container reduced modulo [2^32]; for a
    container of less than [2^32] elements that is its size; for a
    container of [2^32] elements or more it is less than the size, and the
    round trip does not hold (of a hash table: if its insertion adds one
    element at most). *)
Theorem length_prefix_narrowing (host : byte_order)
    (key_less : ty -> value -> value -> bool)
    (unordered_insert : ty -> associative_traits -> value -> list value -> list value)
    (sr lr : registry.t ty)
    (t : ty) (vs : list value) :
  length_prefixed t ->
  (exists o rest,
     appends (save host sr t (items vs)) o
             (object_bytes host 4 (Z.of_nat (length vs) mod 2 ^ 32) ++ rest)) /\
  object_value host (object_bytes host 4 (Z.of_nat (length vs) mod 2 ^ 32))
  = Z.of_nat (length vs) mod 2 ^ 32 /\
  (Z.of_nat (length vs) < 2 ^ 32 ->
   Z.of_nat (length vs) mod 2 ^ 32 = Z.of_nat (length vs)) /\
  (2 ^ 32 <= Z.of_nat (length vs) ->
   Z.of_nat (length vs) mod 2 ^ 32 < Z.of_nat (length vs) /\
   (adds_one_at_most unordered_insert t ->
    ~ round_trip host key_less unordered_insert sr lr t (items vs))).
Proof.
  intros Ht.
  pose proof (Z.mod_pos_bound (Z.of_nat (length vs)) (2 ^ 32) ltac:(lia)) as Hmod.
  assert (Hrange : 0 <= Z.of_nat (length vs) mod 2 ^ 32 < 256 ^ Z.of_nat 4)
    by (change (256 ^ Z.of_nat 4) with (2 ^ 32); lia).
  destruct (container_save_prefixed host sr t vs Ht) as (o & rest & A).
  split; [by exists o, rest |]. split; [by apply object_value_small |].
  split; [intros Hsmall; apply Z.mod_small; lia |].
  intros Hbig. split; [lia |]. intros Hinsert (a' & Hsave & Hload).
  rewrite (memory_output_archive_call_single host sr t (items vs) o _ [] A) in Hsave.
  injection Hsave as -> <-.
  destruct (Hload _ (Nat.le_refl _)) as (a'' & E). clear Hload.
  unfold memory_input_archive_call, load_call, memory_input_archive_make in E.
  cbn [map fst snd load_items mia_input lvmoa.make lvmoa.m_output app] in E.
  assert (Hdefault : default t = items []) by (by destruct t).
  rewrite Hdefault in E.
  destruct (load host key_less unordered_insert lr (depth (items vs)) t (items [])
              (mvia.make (object_bytes host 4 (size_type (Z.of_nat (length vs))) ++ rest)))
    as [[o1 x'] a1] eqn:El.
  assert (o1 = normal /\ x' = items vs) as [-> ->].
  { destruct o1; cbn in E; by inversion E. }
  destruct (load_container_length host key_less unordered_insert lr _ _ _ _ _ Ht Hinsert El)
    as (size & a2 & Hsize & Hlen).
  assert (O : occurs (object_bytes host 4 (size_type (Z.of_nat (length vs)))) 0
                (object_bytes host 4 (size_type (Z.of_nat (length vs))) ++ rest))
    by (by exists [], rest).
  unfold mvia.make in Hsize.
  rewrite (reads_scalar host 4 _ (scalar 0) Hrange _ _ O) in Hsize.
  injection Hsize as <- _. unfold size_type, detail.u32 in Hlen. lia.
Qed.

Lemma length_prefix_narrowing_witness :
  exists o rest,
    appends (save little_endian registry.empty example.std_string
               (items [scalar 49; scalar 51; scalar 51; scalar 55]))
            o ([4; 0; 0; 0] ++ rest).
Proof.
  refine (proj1 (length_prefix_narrowing little_endian example.less example.link_front
                   registry.empty registry.empty example.std_string
                   [scalar 49; scalar 51; scalar 51; scalar 55] _)).
  by vm_compute.
Defined.

(** ** Where the round trip fails *)

Section no_round_trip.

Variable host : byte_order.
Variable key_less : ty -> value -> value -> bool.
Variable unordered_insert : ty -> associative_traits -> value -> list value -> list value.
Variable saving_registry : registry.t ty.
Variable loading_registry : registry.t ty.

(** A container of [2^32] elements or more comes back shorter. *)
Lemma no_round_trip_of_long_container (t : ty) (vs : list value) :
  length_prefixed t ->
  adds_one_at_most unordered_insert t ->
  2 ^ 32 <= Z.of_nat (length vs) ->
  ~ round_trip_equal host key_less unordered_insert saving_registry loading_registry
      t (items vs).
Proof.
  intros Ht Hinsert Hbig (a' & Hsave & x & E & Hload).
  pose proof (Z.mod_pos_bound (Z.of_nat (length vs)) (2 ^ 32) ltac:(lia)) as Hmod.
  assert (Hrange : 0 <= Z.of_nat (length vs) mod 2 ^ 32 < 256 ^ Z.of_nat 4)
    by (change (256 ^ Z.of_nat 4) with (2 ^ 32); lia).
  destruct (container_save_prefixed host saving_registry t vs Ht) as (o & rest & A).
  rewrite (memory_output_archive_call_single host saving_registry t (items vs) o _ [] A)
    in Hsave.
  injection Hsave as -> <-.
  destruct (Hload _ (Nat.le_refl _)) as (a'' & L & _). clear Hload.
  unfold memory_input_archive_call, load_call, memory_input_archive_make in L.
  cbn [map fst snd load_items mia_input lvmoa.make lvmoa.m_output app] in L.
  assert (Hdefault : default t = items []) by (by destruct t).
  rewrite Hdefault in L.
  destruct (load host key_less unordered_insert loading_registry (depth (items vs)) t
              (items [])
              (mvia.make (object_bytes host 4 (size_type (Z.of_nat (length vs))) ++ rest)))
    as [[o1 x'] a1] eqn:El.
  assert (o1 = normal /\ x' = x) as [-> ->].
  { destruct o1; cbn in L; by inversion L. }
  assert (exists xs, x = items xs /\ length xs = length vs) as (xs & -> & Hxs).
  { destruct t as [| | c e | c e | c e | | | | |]; try contradiction;
      destruct x as [| xs | |]; cbn in E; try done;
      exists xs; (split; [done |]); try by apply (all_pairs_length (equal e)).
    destruct E as (ys & Hperm & E). rewrite <- Hperm.
    by apply (all_pairs_length (equal e)). }
  destruct (load_container_length host key_less unordered_insert loading_registry
              _ _ _ _ _ Ht Hinsert El) as (size & a2 & Hsize & Hlen).
  assert (O : occurs (object_bytes host 4 (size_type (Z.of_nat (length vs)))) 0
                (object_bytes host 4 (size_type (Z.of_nat (length vs))) ++ rest))
    by (by exists [], rest).
  unfold mvia.make in Hsize.
  rewrite (reads_scalar host 4 _ (scalar 0) Hrange _ _ O) in Hsize.
  injection Hsize as <- _. unfold size_type, detail.u32 in Hlen. lia.
Qed.


(** A contiguous container whose elements take exactly [2^32] bytes:
    [size_in_bytes] is zero, no element is written, and the load gives
    value-initialised elements. *)
Lemma no_round_trip_of_large_storage (c : container_traits) (e : ty) (n : nat) (x : Z) :
  resizable_call loading c e = Some contiguous_fundamental ->
  Z.of_nat n < 2 ^ 32 ->
  Z.of_nat n * Z.of_nat (sizeof e) = 2 ^ 32 ->
  x <> 0 ->
  ~ round_trip_equal host key_less unordered_insert saving_registry loading_registry
      (resizable c e) (items (repeat (scalar x) n)).
Proof.
  intros Hcall Hsmall Hbytes Hx (a' & Hsave & y & E & Hload).
  apply resizable_call_compiles in Hcall as [Hsel _].
  pose proof (select_contiguous_scalar _ _ _ Hsel) as He.
  assert (Hn : 0 < Z.of_nat n < 2 ^ 32).
  { assert (Z.of_nat n <> 0) by (intros Hs; rewrite Hs in Hbytes; lia). lia. }
  assert (Hprefix : size_type (Z.of_nat n) = Z.of_nat n) by (apply size_type_small; lia).
  assert (Hzero : size_in_bytes (Z.of_nat n) (sizeof e) = 0).
  { unfold size_in_bytes. by rewrite Hbytes. }
  assert (Hnz : (Z.of_nat n =? 0) = false) by (apply Z.eqb_neq; lia).
  set (vs := repeat (scalar x) n) in *.
  assert (Hlen : length vs = n) by apply repeat_length.
  (* what the save writes: the prefix, and nothing *)
  assert (A : exists o, appends (save host saving_registry (resizable c e) (items vs)) o
                          (object_bytes host 4 (Z.of_nat n) ++ [])).
  { destruct (storage_bytes host (sizeof e) vs) as [data |] eqn:Hdata.
    - exists normal. eapply appends_ext; [| eapply appends_after; apply appends_serialize].
      intros a. cbn [save].
      rewrite (select_saving_of_loading _ _ _ Hsel), Hlen, Hprefix, Hnz, Hdata, Hzero.
      reflexivity.
    - exists ill_formed.
      eapply appends_ext; [| eapply appends_after; apply (appends_ret ill_formed)].
      intros a. cbn [save].
      by rewrite (select_saving_of_loading _ _ _ Hsel), Hlen, Hprefix, Hnz, Hdata. }
  destruct A as [o A].
  rewrite (memory_output_archive_call_single host saving_registry _ _ o _ [] A) in Hsave.
  injection Hsave as -> <-.
  (* what the load gives: elements of zero bits *)
  assert (Hdepth : (1 <= depth (items vs))%nat) by (cbn [depth]; lia).
  destruct (Hload _ (Nat.le_refl _)) as (a'' & L & _). clear Hload.
  destruct (depth (items vs)) as [| fuel]; [lia |].
  unfold memory_input_archive_call, load_call, memory_input_archive_make in L.
  cbn [map fst snd load_items mia_input lvmoa.make lvmoa.m_output app default load] in L.
  rewrite Hsel in L.
  assert (O : occurs (object_bytes host 4 (Z.of_nat n)) 0
                (object_bytes host 4 (Z.of_nat n) ++ []))
    by (by exists [], []).
  unfold mvia.make in L.
  rewrite (reads_scalar host 4 _ (scalar 0) (prefix_range n Hsmall) _ _ O) in L.
  rewrite resize_empty, Hnz in L.
  assert (Hdefault : default e = scalar 0) by (by destruct e).
  rewrite Hdefault in L.
  destruct (storage_round_trip host key_less saving_registry loading_registry e
              (repeat (scalar 0) n) He) as (zeros & Hzeros & _ & Hvalues).
  { clear -He. induction n as [| n IH]; [done |]. split; [| exact IH].
    destruct e as [m | m | | | | | | | |]; try discriminate; cbn;
      (split; [lia | apply Z.pow_pos_nonneg; lia]). }
  rewrite Hzeros, repeat_length, Hprefix, Hzero in L.
  unfold mvia.serialize_binary, mvia.serialize, mvia.m_size in L.
  cbn [mvia.m_input mvia.m_offset] in L. change (Z.to_nat 0) with 0%nat in L.
  rewrite app_nil_r, length_object_bytes in L.
  cbn [Nat.add Nat.ltb Nat.leb take length drop app] in L.
  specialize (Hvalues []). rewrite app_nil_r, repeat_length in Hvalues.
  rewrite take_0 in L. cbn [app length] in L. rewrite drop_0, Hvalues in L.
  cbn [load_items] in L. injection L as <- _.
  (* and they differ from the elements saved *)
  destruct n as [| n]; [lia |]. cbn in E. destruct E as [E _].
  destruct e; cbn in E; try discriminate; lia.
Qed.

End no_round_trip.


(** * The identifier hash is SHA-1 *)

(** ** Bits of the integer helpers *)

Lemma testbit_shiftl (a n i : Z) :
  0 <= n -> Z.testbit (Z.shiftl a n) i = (n <=? i) && Z.testbit a (i - n).
Proof.
  intros Hn. destruct (Z.leb_spec n i).
  - by rewrite Z.shiftl_spec by lia.
  - by rewrite Z.shiftl_spec_low by lia.
Qed.

Lemma testbit_shiftr (a n i : Z) :
  0 <= n -> Z.testbit (Z.shiftr a n) i = (0 <=? i) && Z.testbit a (i + n).
Proof.
  intros Hn. destruct (Z.leb_spec 0 i).
  - by rewrite Z.shiftr_spec by lia.
  - by rewrite Z.testbit_neg_r by lia.
Qed.

Lemma testbit_index (a i j : Z) : i = j -> Z.testbit a i = Z.testbit a j.
Proof. by intros ->. Qed.

(** Rewrites the bit of a term built from shifts, reductions modulo a power
    of two and bitwise operations into bits of its leaves. *)
Ltac bits_of_ops :=
  repeat first
    [ rewrite Z.lor_spec
    | rewrite Z.lxor_spec
    | rewrite Z.land_spec
    | rewrite Z.testbit_mod_pow2 by lia
    | rewrite testbit_shiftl by lia
    | rewrite testbit_shiftr by lia ].

(** Decides the comparisons of the bit index and closes the goal bit by bit. *)
Ltac bits_cases :=
  repeat match goal with
         | |- context [(?a <? ?b)] => destruct (Z.ltb_spec a b); try lia
         | |- context [(?a <=? ?b)] => destruct (Z.leb_spec a b); try lia
         end;
  cbn [andb orb negb xorb];
  rewrite ?orb_false_r, ?andb_false_r, ?andb_true_r, ?xorb_false_r, ?xorb_false_l;
  try reflexivity;
  try (apply testbit_index; lia);
  try solve [repeat f_equal; lia].

Ltac bits := apply Z.bits_inj'; intros ?i ?Hi; bits_of_ops; bits_cases.

Import detail.

Lemma swap_byte_order16_bits (x i : Z) :
  Z.testbit (swap_byte_order16 x) i =
    (0 <=? i) && (i <? 8) && Z.testbit x (i + 8)
    || (8 <=? i) && (i <? 16) && Z.testbit x (i - 8).
Proof. unfold swap_byte_order16, swap_byte_order8, u16, u8. bits_of_ops. bits_cases. Qed.

Lemma swap_byte_order32_bits (x i : Z) :
  Z.testbit (swap_byte_order32 x) i =
    (0 <=? i) && (i <? 8) && Z.testbit x (i + 24)
    || (8 <=? i) && (i <? 16) && Z.testbit x (i + 8)
    || (16 <=? i) && (i <? 24) && Z.testbit x (i - 8)
    || (24 <=? i) && (i <? 32) && Z.testbit x (i - 24).
Proof.
  unfold swap_byte_order32, u32, u16. bits_of_ops.
  rewrite !swap_byte_order16_bits. bits_of_ops. bits_cases.
Qed.

Lemma swap_byte_order32_involutive (x : Z) :
  swap_byte_order32 (swap_byte_order32 x) = u32 x.
Proof.
  apply Z.bits_inj'. intros i Hi. rewrite !swap_byte_order32_bits.
  unfold u32. bits_of_ops. bits_cases.
Qed.

Lemma swap_byte_order32_range (x : Z) : 0 <= swap_byte_order32 x < 2 ^ 32.
Proof. unfold swap_byte_order32, u32. apply Z.mod_pos_bound. lia. Qed.

(** The exclusive or of four swapped words, swapped back. *)
Lemma swap_byte_order32_xor (a b c d : Z) :
  swap_byte_order32
    (Z.lxor (Z.lxor (Z.lxor (swap_byte_order32 a) (swap_byte_order32 b))
                    (swap_byte_order32 c))
            (swap_byte_order32 d))
  = u32 (Z.lxor (Z.lxor (Z.lxor a b) c) d).
Proof.
  apply Z.bits_inj'. intros i Hi. rewrite swap_byte_order32_bits.
  bits_of_ops. rewrite !swap_byte_order32_bits.
  unfold u32. bits_of_ops. bits_cases.
Qed.
(** ** Words in range *)

Definition in_u32 (x : Z) : Prop := 0 <= x < 2 ^ 32.

Lemma in_u32_bits (x : Z) :
  0 <= x -> (forall i, 32 <= i -> Z.testbit x i = false) -> in_u32 x.
Proof.
  intros Hx Hhigh. split; [done |].
  destruct (Z.eq_dec x 0) as [-> | Hne]; [lia |].
  apply Z.log2_lt_pow2; [lia |].
  destruct (Z.lt_ge_cases (Z.log2 x) 32) as [Hlt | Hge]; [done |].
  pose proof (Z.bit_log2 x ltac:(lia)) as Hbit. rewrite Hhigh in Hbit by lia. done.
Qed.

Lemma in_u32_high (x i : Z) : in_u32 x -> 32 <= i -> Z.testbit x i = false.
Proof.
  intros Hx Hi. rewrite <- (Z.mod_small x (2 ^ 32)) by exact Hx.
  rewrite Z.testbit_mod_pow2 by lia. destruct (Z.ltb_spec i 32); [lia | done].
Qed.

Lemma in_u32_lxor (a b : Z) : in_u32 a -> in_u32 b -> in_u32 (Z.lxor a b).
Proof.
  intros Ha Hb. apply in_u32_bits.
  - apply Z.lxor_nonneg. unfold in_u32 in *. lia.
  - intros i Hi. by rewrite Z.lxor_spec, !in_u32_high.
Qed.

Lemma in_u32_lor (a b : Z) : in_u32 a -> in_u32 b -> in_u32 (Z.lor a b).
Proof.
  intros Ha Hb. apply in_u32_bits.
  - apply Z.lor_nonneg. unfold in_u32 in *. lia.
  - intros i Hi. by rewrite Z.lor_spec, !in_u32_high.
Qed.

Lemma in_u32_mod (x : Z) : in_u32 (x mod 2 ^ 32).
Proof. apply Z.mod_pos_bound. lia. Qed.

Lemma u32_small (x : Z) : in_u32 x -> u32 x = x.
Proof. intros Hx. by apply Z.mod_small. Qed.

(** ** The rotation and the complement *)

Lemma rotate_left_rotl (x n : Z) :
  0 <= n <= 32 -> rotate_left x n = SHA1.rotl n x.
Proof.
  intros Hn. unfold rotate_left, SHA1.rotl, SHA1.word, u32.
  rewrite Z.shiftl_mul_pow2, Z.shiftr_div_pow2 by lia.
  by replace (4 * 8 - n) with (32 - n) by lia.
Qed.

Lemma in_u32_rotl (x n : Z) : 0 <= n <= 32 -> in_u32 x -> in_u32 (SHA1.rotl n x).
Proof.
  intros Hn Hx. unfold SHA1.rotl. apply in_u32_lor; [apply in_u32_mod |].
  unfold in_u32 in *. split.
  - apply Z.div_pos; lia.
  - apply Z.div_lt_upper_bound; [lia |].
    pose proof (Z.pow_pos_nonneg 2 (32 - n) ltac:(lia) ltac:(lia)). nia.
Qed.

Lemma not32_complement (b : Z) : in_u32 b -> make_id_impl.not32 b = SHA1.complement b.
Proof.
  intros Hb. unfold make_id_impl.not32, SHA1.complement, SHA1.word, u32, Z.lnot, in_u32 in *.
  symmetry. apply (Z.mod_unique_pos _ _ (-1)); lia.
Qed.

(** ** Bytes and words *)

(** Four bytes as a little-endian word. *)
Definition le_word (b0 b1 b2 b3 : Z) : Z :=
  Z.lor (Z.lor (Z.lor b0 (Z.shiftl b1 8)) (Z.shiftl b2 16)) (Z.shiftl b3 24).

Definition is_byte (b : Z) : Prop := 0 <= b < 256.

Lemma byte_mod (b : Z) : is_byte b -> b = b mod 2 ^ 8.
Proof. intros Hb. symmetry. by apply Z.mod_small. Qed.

(** A swapped big-endian word is the little-endian word of the same bytes. *)
Lemma swap_be_word (b0 b1 b2 b3 : Z) :
  is_byte b0 -> is_byte b1 -> is_byte b2 -> is_byte b3 ->
  swap_byte_order32 (SHA1.be_word b0 b1 b2 b3) = le_word b0 b1 b2 b3.
Proof.
  intros H0 H1 H2 H3.
  rewrite (byte_mod b0 H0), (byte_mod b1 H1), (byte_mod b2 H2), (byte_mod b3 H3).
  unfold SHA1.be_word, le_word. apply Z.bits_inj'. intros i Hi.
  rewrite swap_byte_order32_bits. bits_of_ops. bits_cases.
Qed.

(** What one byte of the message adds to its word. *)
Lemma message_byte_shift (c : Z) (i : nat) :
  is_byte c ->
  make_id_impl.message_byte c i = Z.shiftl c (8 * Z.of_nat (i mod 4)).
Proof.
  intros Hc. unfold make_id_impl.message_byte.
  pose proof (Nat.mod_upper_bound i 4 ltac:(lia)) as Hr.
  rewrite (byte_mod c Hc). unfold u32.
  destruct (i mod 4)%nat as [| [| [| [| r]]]]; [| | | | lia];
    cbn [Nat.sub Nat.mul Nat.add Z.of_nat Pos.of_succ_nat Pos.succ Z.mul Pos.mul Pos.add];
    apply Z.bits_inj'; intros j Hj; rewrite swap_byte_order32_bits; bits_of_ops; bits_cases.
Qed.

Lemma nth_le_bytes (n k : nat) (x : Z) :
  (k < n)%nat -> nth k (le_bytes n x) 0 = (Z.shiftr x (8 * Z.of_nat k)) mod 2 ^ 8.
Proof.
  revert k x. induction n as [| n IH]; intros k x Hk; [lia |].
  cbn [le_bytes]. destruct k as [| k]; cbn [nth].
  - by rewrite Z.shiftr_0_r.
  - rewrite IH by lia. change 256 with (2 ^ 8). rewrite <- Z.shiftr_div_pow2 by lia.
    rewrite Z.shiftr_shiftr by lia. f_equal. f_equal. lia.
Qed.

Lemma nth_be_bytes (n k : nat) (x : Z) :
  (k < n)%nat ->
  nth k (SHA1.be_bytes n x) 0 = (Z.shiftr x (8 * Z.of_nat (n - 1 - k))) mod 2 ^ 8.
Proof.
  intros Hk. unfold SHA1.be_bytes.
  rewrite rev_nth by (rewrite length_le_bytes; lia).
  rewrite length_le_bytes, nth_le_bytes by lia. do 3 f_equal. lia.
Qed.

Lemma length_be_bytes (n : nat) (x : Z) : length (SHA1.be_bytes n x) = n.
Proof. unfold SHA1.be_bytes. by rewrite length_rev, length_le_bytes. Qed.

(** The two words of the 64-bit big-endian length. *)
Lemma be_word_length_high (L : Z) :
  SHA1.be_word (nth 0 (SHA1.be_bytes 8 L) 0) (nth 1 (SHA1.be_bytes 8 L) 0)
               (nth 2 (SHA1.be_bytes 8 L) 0) (nth 3 (SHA1.be_bytes 8 L) 0)
  = u32 (Z.shiftr (u64 L) 32).
Proof.
  rewrite !nth_be_bytes by lia. unfold SHA1.be_word, u32, u64.
  cbn [Nat.sub Nat.mul Z.of_nat Pos.of_succ_nat Pos.succ Z.mul Pos.mul Pos.add].
  bits.
Qed.

Lemma be_word_length_low (L : Z) :
  SHA1.be_word (nth 4 (SHA1.be_bytes 8 L) 0) (nth 5 (SHA1.be_bytes 8 L) 0)
               (nth 6 (SHA1.be_bytes 8 L) 0) (nth 7 (SHA1.be_bytes 8 L) 0)
  = u32 (u64 L).
Proof.
  rewrite !nth_be_bytes by lia. unfold SHA1.be_word, u32, u64.
  cbn [Nat.sub Nat.mul Z.of_nat Pos.of_succ_nat Pos.succ Z.mul Pos.mul Pos.add].
  bits.
Qed.

(** ** The words of a byte sequence *)

Lemma nth_words (k : nat) (bs : list Z) :
  (4 * k + 3 < length bs)%nat ->
  nth k (SHA1.words bs) 0
  = SHA1.be_word (nth (4 * k) bs 0) (nth (4 * k + 1) bs 0)
                 (nth (4 * k + 2) bs 0) (nth (4 * k + 3) bs 0).
Proof.
  revert bs. induction k as [| k IH]; intros bs Hlen;
    destruct bs as [| b0 [| b1 [| b2 [| b3 bs]]]]; cbn [length] in Hlen; try lia.
  - reflexivity.
  - cbn [SHA1.words nth]. rewrite IH by lia.
    replace (4 * S k)%nat with (S (S (S (S (4 * k))))) by lia. reflexivity.
Qed.

Lemma length_words (n : nat) (bs : list Z) :
  length bs = (4 * n)%nat -> length (SHA1.words bs) = n.
Proof.
  revert bs. induction n as [| n IH]; intros bs Hlen;
    destruct bs as [| b0 [| b1 [| b2 [| b3 bs]]]]; cbn [length] in Hlen; try lia.
  - reflexivity.
  - cbn [SHA1.words length]. rewrite IH; [done | lia].
Qed.

(** The [k]-th little-endian word of a byte sequence, zero bytes past its end. *)
Definition word_at (bs : list Z) (k : nat) : Z :=
  le_word (nth (4 * k) bs 0) (nth (4 * k + 1) bs 0)
          (nth (4 * k + 2) bs 0) (nth (4 * k + 3) bs 0).

Lemma nth_snoc (bs : list Z) (c : Z) (j : nat) :
  nth j (bs ++ [c]) 0 = if decide (j = length bs) then c else nth j bs 0.
Proof.
  destruct (decide (j = length bs)) as [-> | Hne].
  - by rewrite nth_middle.
  - destruct (Nat.lt_ge_cases j (length bs)).
    + by rewrite app_nth1.
    + rewrite !nth_overflow; [done | lia | rewrite length_app; simpl; lia].
Qed.

Lemma word_at_snoc (bs : list Z) (c : Z) (k : nat) :
  word_at (bs ++ [c]) k =
    if decide (k = length bs / 4)%nat
    then Z.lor (word_at bs k) (Z.shiftl c (8 * Z.of_nat (length bs mod 4)))
    else word_at bs k.
Proof.
  pose proof (Nat.div_mod_eq (length bs) 4) as Hdm.
  pose proof (Nat.mod_upper_bound (length bs) 4 ltac:(lia)) as Hr.
  unfold word_at. rewrite !nth_snoc.
  destruct (decide (k = length bs / 4)%nat) as [-> | Hne].
  - assert (Hov : forall j, (length bs <= j)%nat -> nth j bs 0 = 0)
      by (intros; by apply nth_overflow).
    destruct (length bs mod 4)%nat as [| [| [| [| r]]]] eqn:Er; [| | | | lia];
      repeat case_decide; try lia;
      rewrite ?(Hov (4 * (length bs / 4))%nat), ?(Hov (4 * (length bs / 4) + 1)%nat),
        ?(Hov (4 * (length bs / 4) + 2)%nat), ?(Hov (4 * (length bs / 4) + 3)%nat) by lia;
      unfold le_word; apply Z.bits_inj'; intros j Hj; bits_of_ops;
      rewrite ?Z.bits_0; bits_cases.
  - repeat case_decide; try reflexivity; exfalso; apply Hne;
      apply (Nat.div_unique _ 4 _ (length bs - 4 * k)); lia.
Qed.

Lemma word_at_nil (k : nat) : word_at [] k = 0.
Proof. unfold word_at. by rewrite !nth_overflow by (simpl; lia). Qed.

(** ** Updating an array of words *)

Lemma nth_insert (k j : nat) (x : Z) (m : list Z) :
  nth k (<[j := x]> m) 0 = if decide (k = j /\ (j < length m)%nat) then x else nth k m 0.
Proof.
  rewrite !nth_lookup. case_decide as Hd.
  - destruct Hd as [-> Hlt]. by rewrite list_lookup_insert_eq.
  - destruct (decide (k = j)) as [-> | Hne].
    + rewrite list_insert_ge by lia. done.
    + by rewrite list_lookup_insert_ne.
Qed.

Lemma nth_or_at (k j : nat) (x : Z) (m : list Z) :
  nth k (or_at j x m) 0 =
    if decide (k = j /\ (j < length m)%nat) then Z.lor (nth k m 0) x else nth k m 0.
Proof. unfold or_at. rewrite nth_insert. case_decide as Hd; [by destruct Hd as [-> _] | done]. Qed.

Lemma length_or_at (j : nat) (x : Z) (m : list Z) : length (or_at j x m) = length m.
Proof. unfold or_at. apply length_insert. Qed.

(** ** The pre-processed message is the padded message, word by word *)

Lemma message_loop (chars : list Z) (words i : nat) :
  Forall is_byte chars -> (i <= length chars)%nat -> (length chars < 4 * words)%nat ->
  let m := fold_left
             (fun m i => or_at (i / 4) (make_id_impl.message_byte (nth i chars 0) i) m)
             (seq 0 i) (repeat 0 words) in
  length m = words /\
  forall k, (k < words)%nat -> nth k m 0 = word_at (firstn i chars) k.
Proof.
  intros Hbytes Hi Hwords. cbv zeta. induction i as [| i IH].
  - cbn [seq fold_left firstn]. rewrite repeat_length. split; [done |].
    intros k Hk. by rewrite nth_repeat, word_at_nil.
  - rewrite seq_S, fold_left_app. cbn [fold_left Nat.add].
    destruct (IH ltac:(lia)) as [Hlen Hnth]. clear IH.
    set (m := fold_left _ (seq 0 i) _) in *.
    rewrite length_or_at. split; [done |]. intros k Hk.
    destruct (lookup_lt_is_Some_2 chars i ltac:(lia)) as [c Hc].
    assert (Hci : nth i chars 0 = c) by (by rewrite nth_lookup, Hc).
    assert (Hcb : is_byte c) by (eapply Forall_lookup_1; eauto).
    rewrite (take_S_r _ _ _ Hc), word_at_snoc, length_take, Nat.min_l by lia.
    rewrite nth_or_at, Hci, (message_byte_shift _ _ Hcb), Hlen, (Hnth k Hk).
    assert ((i / 4 < words)%nat) by (apply Nat.Div0.div_lt_upper_bound; lia).
    repeat case_decide; try reflexivity; tauto.
Qed.

Lemma aligned_words (n : nat) :
  exists q,
    make_id_impl.aligned_message_size (S n) = (64 * q)%nat /\
    (make_id_impl.aligned_message_size (S n) / 4 = 16 * q)%nat /\
    (n + 9 <= 64 * q)%nat /\
    (n + 9 + SHA1.zeros n = 64 * q)%nat.
Proof.
  unfold make_id_impl.aligned_message_size, SHA1.zeros.
  exists ((S n + 8 + 63) / 64)%nat.
  pose proof (Nat.div_mod_eq (S n + 8 + 63) 64) as H1.
  pose proof (Nat.mod_upper_bound (S n + 8 + 63) 64 ltac:(lia)) as H2.
  pose proof (Nat.div_mod_eq (n + 9) 64) as H3.
  pose proof (Nat.mod_upper_bound (n + 9) 64 ltac:(lia)) as H4.
  set (q := ((S n + 8 + 63) / 64)%nat) in *.
  set (q' := ((n + 9) / 64)%nat) in *.
  set (r' := ((n + 9) mod 64)%nat) in *.
  split; [lia |]. split; [| split; [lia |]].
  - replace (q * 64)%nat with (16 * q * 4)%nat by lia. by rewrite Nat.div_mul.
  - destruct (Nat.eq_dec r' 0) as [E | E].
    + rewrite E. cbn [Nat.sub]. rewrite Nat.Div0.mod_same. lia.
    + rewrite Nat.mod_small by lia. lia.
Qed.

Lemma length_pad (chars : list Z) :
  length (SHA1.pad chars)
  = (length chars + 9 + SHA1.zeros (length chars))%nat.
Proof.
  unfold SHA1.pad. rewrite !length_app, repeat_length, length_be_bytes. simpl. lia.
Qed.

Lemma nth_pad_low (chars : list Z) (j : nat) :
  (j < length chars + 1 + SHA1.zeros (length chars))%nat ->
  nth j (SHA1.pad chars) 0 = nth j (chars ++ [0x80]) 0.
Proof.
  intros Hj. unfold SHA1.pad.
  replace (chars ++ [128] ++ repeat 0 (SHA1.zeros (length chars)) ++ SHA1.be_bytes 8 _)
    with ((chars ++ [128]) ++ repeat 0 (SHA1.zeros (length chars))
            ++ SHA1.be_bytes 8 (8 * Z.of_nat (length chars)))
    by (by rewrite <- app_assoc).
  destruct (Nat.lt_ge_cases j (length (chars ++ [128]))) as [Hlt | Hge].
  - by rewrite app_nth1.
  - rewrite app_nth2 by lia. rewrite length_app in Hge |- *. cbn [length] in Hge |- *.
    rewrite app_nth1 by (rewrite repeat_length; lia).
    rewrite nth_repeat, nth_overflow; [done |]. rewrite length_app. cbn [length]. lia.
Qed.

Lemma nth_pad_high (chars : list Z) (r : nat) :
  nth (length chars + 1 + SHA1.zeros (length chars) + r) (SHA1.pad chars) 0
  = nth r (SHA1.be_bytes 8 (8 * Z.of_nat (length chars))) 0.
Proof.
  unfold SHA1.pad. rewrite app_nth2 by lia. rewrite app_nth2 by (cbn [length]; lia).
  rewrite app_nth2 by (rewrite repeat_length; cbn [length]; lia).
  rewrite repeat_length. cbn [length]. f_equal. lia.
Qed.

Lemma nth_pad_at (chars : list Z) (j r : nat) :
  j = (length chars + 1 + SHA1.zeros (length chars) + r)%nat ->
  nth j (SHA1.pad chars) 0 = nth r (SHA1.be_bytes 8 (8 * Z.of_nat (length chars))) 0.
Proof. intros ->. apply nth_pad_high. Qed.

Lemma is_byte_nth (bs : list Z) (j : nat) : Forall is_byte bs -> is_byte (nth j bs 0).
Proof.
  intros Hbs. destruct (Nat.lt_ge_cases j (length bs)) as [Hlt | Hge].
  - destruct (lookup_lt_is_Some_2 bs j Hlt) as [b Hb].
    rewrite nth_lookup, Hb. eapply Forall_lookup_1; eauto.
  - rewrite nth_overflow by lia. unfold is_byte. lia.
Qed.

Lemma preprocessed_message_words (chars : list Z) :
  Forall is_byte chars ->
  exists q,
    length (make_id_impl.preprocessed_message chars) = (16 * q)%nat /\
    length (SHA1.words (SHA1.pad chars)) = (16 * q)%nat /\
    forall k, (k < 16 * q)%nat ->
      nth k (make_id_impl.preprocessed_message chars) 0
      = swap_byte_order32 (nth k (SHA1.words (SHA1.pad chars)) 0).
Proof.
  intros Hbytes. destruct (aligned_words (length chars)) as (q & HA & Hw & Hq & Hz).
  exists q. unfold make_id_impl.preprocessed_message.
  replace (S (length chars) - 1)%nat with (length chars) by lia.
  rewrite Hw.
  destruct (message_loop chars (16 * q) (length chars) Hbytes ltac:(lia) ltac:(lia))
    as [Hlen1 Hnth1].
  set (m1 := fold_left _ (seq 0 (length chars)) _) in *.
  assert (H80 : is_byte 128) by (unfold is_byte; lia).
  assert (Hq4 : (length chars / 4 < 16 * q)%nat)
    by (apply Nat.Div0.div_lt_upper_bound; lia).
  assert (Hnth2 : forall k, (k < 16 * q)%nat ->
            nth k (or_at (length chars / 4)
                     (make_id_impl.message_byte 128 (length chars)) m1) 0
            = word_at (chars ++ [128]) k).
  { intros k Hk. rewrite nth_or_at, (message_byte_shift _ _ H80), word_at_snoc, Hlen1.
    rewrite (Hnth1 k Hk), firstn_all.
    repeat case_decide; try reflexivity; tauto. }
  assert (HlenP : length (SHA1.pad chars) = (4 * (16 * q))%nat)
    by (rewrite length_pad; lia).
  split; [by rewrite !length_insert, length_or_at |].
  split; [by apply length_words |].
  intros k Hk. rewrite nth_words by lia. rewrite !nth_insert, !length_insert, length_or_at, Hlen1.
  assert (Hbq : Forall is_byte (chars ++ [128]))
    by (apply Forall_app; split; [done | by constructor]).
  destruct (decide (k = 16 * q - 1)%nat) as [-> | Hk1];
    [| destruct (decide (k = 16 * q - 2)%nat) as [-> | Hk2]].
  - rewrite decide_True by lia.
    rewrite (nth_pad_at chars (4 * (16 * q - 1)) 4),
      (nth_pad_at chars (4 * (16 * q - 1) + 1) 5),
      (nth_pad_at chars (4 * (16 * q - 1) + 2) 6),
      (nth_pad_at chars (4 * (16 * q - 1) + 3) 7) by lia.
    rewrite be_word_length_low. do 3 f_equal. lia.
  - rewrite decide_False by lia. rewrite decide_True by lia.
    rewrite (nth_pad_at chars (4 * (16 * q - 2)) 0),
      (nth_pad_at chars (4 * (16 * q - 2) + 1) 1),
      (nth_pad_at chars (4 * (16 * q - 2) + 2) 2),
      (nth_pad_at chars (4 * (16 * q - 2) + 3) 3) by lia.
    rewrite be_word_length_high. do 4 f_equal. lia.
  - rewrite !decide_False by lia. rewrite (Hnth2 k Hk).
    rewrite !nth_pad_low by lia.
    rewrite swap_be_word by (by apply is_byte_nth). reflexivity.
Qed.

(** ** The message schedule *)

Lemma length_extend (n : nat) (w : list Z) : length (SHA1.extend n w) = (length w + n)%nat.
Proof.
  revert w. induction n as [| n IH]; intros w; cbn [SHA1.extend]; [lia |].
  rewrite IH, length_app. cbn [length]. lia.
Qed.

Lemma nth_extend_old (n : nat) (w : list Z) (j : nat) :
  (j < length w)%nat -> nth j (SHA1.extend n w) 0 = nth j w 0.
Proof.
  revert w. induction n as [| n IH]; intros w Hj; cbn [SHA1.extend]; [done |].
  rewrite IH by (rewrite length_app; lia). by rewrite app_nth1.
Qed.

Lemma nth_extend_new (n : nat) (w : list Z) (j : nat) :
  (0 < length w)%nat -> (length w <= j < length w + n)%nat ->
  nth j (SHA1.extend n w) 0
  = SHA1.rotl 1
      (Z.lxor (Z.lxor (Z.lxor (nth (j - 3) (SHA1.extend n w) 0)
                              (nth (j - 8) (SHA1.extend n w) 0))
                      (nth (j - 14) (SHA1.extend n w) 0))
              (nth (j - 16) (SHA1.extend n w) 0)).
Proof.
  revert w. induction n as [| n IH]; intros w Hpos Hj; [lia |].
  cbn [SHA1.extend]. set (x := SHA1.rotl 1 _).
  destruct (decide (j = length w)) as [-> | Hne].
  - rewrite !nth_extend_old by (rewrite length_app; cbn [length]; lia).
    rewrite nth_middle. rewrite !app_nth1 by lia. reflexivity.
  - apply IH; rewrite length_app; cbn [length]; lia.
Qed.

Lemma in_u32_nth (w : list Z) (j : nat) : Forall in_u32 w -> in_u32 (nth j w 0).
Proof.
  intros Hw. destruct (Nat.lt_ge_cases j (length w)) as [Hlt | Hge].
  - destruct (lookup_lt_is_Some_2 w j Hlt) as [b Hb].
    rewrite nth_lookup, Hb. eapply Forall_lookup_1; eauto.
  - rewrite nth_overflow by lia. unfold in_u32. lia.
Qed.

Lemma in_u32_extend (n : nat) (w : list Z) :
  Forall in_u32 w -> Forall in_u32 (SHA1.extend n w).
Proof.
  revert w. induction n as [| n IH]; intros w Hw; cbn [SHA1.extend]; [done |].
  apply IH, Forall_app. split; [done |]. constructor; [| constructor].
  apply in_u32_rotl; [lia |]. repeat apply in_u32_lxor; by apply in_u32_nth.
Qed.

Lemma in_u32_be_word (b0 b1 b2 b3 : Z) :
  is_byte b0 -> is_byte b1 -> is_byte b2 -> is_byte b3 ->
  in_u32 (SHA1.be_word b0 b1 b2 b3).
Proof.
  intros H0 H1 H2 H3. apply in_u32_bits.
  - unfold SHA1.be_word, is_byte in *.
    apply Z.lor_nonneg; split; [apply Z.lor_nonneg; split; [apply Z.lor_nonneg; split |] |];
      rewrite ?Z.shiftl_nonneg; lia.
  - intros i Hi.
    rewrite (byte_mod b0 H0), (byte_mod b1 H1), (byte_mod b2 H2), (byte_mod b3 H3).
    unfold SHA1.be_word. bits_of_ops. bits_cases.
Qed.

Lemma in_u32_words (n : nat) (bs : list Z) :
  (length bs < 4 * n)%nat -> Forall is_byte bs -> Forall in_u32 (SHA1.words bs).
Proof.
  revert bs. induction n as [| n IH]; intros bs Hlen Hbs; [lia |].
  destruct bs as [| b0 [| b1 [| b2 [| b3 bs]]]]; cbn [SHA1.words]; try constructor.
  - inversion Hbs as [| ? ? H0 Hbs1]; subst. inversion Hbs1 as [| ? ? H1 Hbs2]; subst.
    inversion Hbs2 as [| ? ? H2 Hbs3]; subst. inversion Hbs3 as [| ? ? H3 Hbs4]; subst.
    by apply in_u32_be_word.
  - apply IH; [cbn [length] in Hlen; lia |]. by do 4 apply Forall_inv_tail in Hbs.
Qed.

Lemma is_byte_le_bytes (n : nat) (x : Z) : Forall is_byte (le_bytes n x).
Proof.
  revert x. induction n as [| n IH]; intros x; cbn [le_bytes]; constructor; [| apply IH].
  unfold is_byte. apply Z.mod_pos_bound. lia.
Qed.

Lemma is_byte_pad (chars : list Z) : Forall is_byte chars -> Forall is_byte (SHA1.pad chars).
Proof.
  intros Hc. unfold SHA1.pad.
  apply Forall_app; split; [done |]. apply Forall_app; split; [| apply Forall_app; split].
  - constructor; [unfold is_byte; lia | constructor].
  - apply List.Forall_forall. intros b Hb. apply repeat_spec in Hb as ->.
    unfold is_byte. lia.
  - unfold SHA1.be_bytes. apply Forall_rev, is_byte_le_bytes.
Qed.

(** Assigning the elements [a, a + len) of an array one after the other,
    each from the elements before it. *)
Lemma fold_insert_seq (F : list Z -> nat -> Z) (G : nat -> Z) (len a : nat) (w0 : list Z) :
  (a + len <= length w0)%nat ->
  (forall j, (j < a)%nat -> nth j w0 0 = G j) ->
  (forall w j, (a <= j < a + len)%nat -> length w = length w0 ->
     (forall j', (j' < j)%nat -> nth j' w 0 = G j') -> F w j = G j) ->
  length (fold_left (fun w j => <[j := F w j]> w) (seq a len) w0) = length w0 /\
  forall j, (j < a + len)%nat ->
    nth j (fold_left (fun w j => <[j := F w j]> w) (seq a len) w0) 0 = G j.
Proof.
  intros Hlen Hbase Hstep. induction len as [| len IH].
  - cbn [seq fold_left]. split; [done |]. intros j Hj. apply Hbase. lia.
  - rewrite seq_S, fold_left_app. cbn [fold_left].
    destruct IH as [IHlen IHnth]; [lia | |].
    { intros w j Hj. apply Hstep. lia. }
    set (w := fold_left _ (seq a len) w0) in *.
    rewrite length_insert. split; [done |]. intros j Hj. rewrite nth_insert.
    case_decide as Hd.
    + destruct Hd as [-> _]. apply Hstep; [lia | done |].
      intros j' Hj'. by apply IHnth.
    + apply IHnth. lia.
Qed.

Lemma nth_block (ws : list Z) (i j : nat) :
  (j < 16)%nat -> nth j (firstn 16 (skipn i ws)) 0 = nth (i + j) ws 0.
Proof. intros Hj. by rewrite !nth_lookup, lookup_take_lt, lookup_drop. Qed.

(** The eighty words of a chunk are the message schedule of the block,
    each with its bytes swapped. *)
Lemma chunk_words_schedule (message ws : list Z) (i j : nat) :
  (i + 16 <= length message)%nat ->
  length ws = length message ->
  (forall k, (k < length message)%nat ->
     nth k message 0 = swap_byte_order32 (nth k ws 0)) ->
  Forall in_u32 ws ->
  (j < 80)%nat ->
  nth j (make_id_impl.chunk_words message i) 0
  = swap_byte_order32 (nth j (SHA1.schedule (firstn 16 (skipn i ws))) 0) /\
  in_u32 (nth j (SHA1.schedule (firstn 16 (skipn i ws))) 0).
Proof.
  intros Hi Hlen Hmsg Hws Hj.
  set (block := firstn 16 (skipn i ws)).
  assert (Hblock : length block = 16%nat)
    by (subst block; rewrite length_take, length_drop; lia).
  assert (HW : Forall in_u32 (SHA1.schedule block))
    by (by apply in_u32_extend, Forall_take, Forall_drop).
  split; [| by apply in_u32_nth].
  set (G := fun j => swap_byte_order32 (nth j (SHA1.schedule block) 0)).
  unfold make_id_impl.chunk_words.
  destruct (fold_insert_seq (fun (w : list Z) j => nth (i + j) message 0) G 16 0
              (repeat 0 80%nat)) as [Hlen1 Hnth1].
  { rewrite repeat_length. lia. }
  { intros j' Hj'. lia. }
  { intros w j' Hj' _ _. subst G. cbv beta. rewrite Hmsg by lia.
    unfold SHA1.schedule. rewrite nth_extend_old by lia.
    subst block. by rewrite nth_block by lia. }
  set (w1 := fold_left _ (seq 0 16) (repeat 0 80%nat)) in *.
  rewrite repeat_length in Hlen1.
  destruct (fold_insert_seq
              (fun (w : list Z) j =>
                 swap_byte_order32
                   (rotate_left
                      (swap_byte_order32
                         (Z.lxor (Z.lxor (Z.lxor (nth (j - 3) w 0) (nth (j - 8) w 0))
                                         (nth (j - 14) w 0))
                                 (nth (j - 16) w 0))) 1))
              G 64 16 w1) as [_ Hnth2].
  { lia. }
  { exact Hnth1. }
  { intros w j' Hj' _ Hprev. rewrite !Hprev by lia. subst G. cbv beta.
    rewrite swap_byte_order32_xor, u32_small
      by (repeat apply in_u32_lxor; by apply in_u32_nth).
    rewrite rotate_left_rotl by lia. unfold SHA1.schedule.
    by rewrite <- nth_extend_new by lia. }
  apply Hnth2. lia.
Qed.

(** ** The rounds *)

Definition state_in_u32 (s : SHA1.state) : Prop :=
  let '(a, b, c, d, e) := s in
  in_u32 a /\ in_u32 b /\ in_u32 c /\ in_u32 d /\ in_u32 e.

Lemma round_step (w W : list Z) (s : SHA1.state) (j : nat) :
  nth j w 0 = swap_byte_order32 (nth j W 0) ->
  in_u32 (nth j W 0) ->
  state_in_u32 s ->
  make_id_impl.round w s j = SHA1.step W s j /\
  state_in_u32 (make_id_impl.round w s j).
Proof.
  intros Hw HW Hs. destruct s as [[[[a b] c] d] e]. destruct Hs as (Ha & Hb & Hc & Hd & He).
  unfold make_id_impl.round, SHA1.step, SHA1.f, SHA1.K.
  rewrite Hw, swap_byte_order32_involutive, (u32_small _ HW).
  rewrite !rotate_left_rotl by lia. rewrite (not32_complement _ Hb).
  assert (Hcmp : forall n, (j <=? n)%nat = (j <? S n)%nat).
  { intros n. destruct (Nat.leb_spec j n), (Nat.ltb_spec j (S n)); lia || done. }
  rewrite !Hcmp.
  assert (Hrot : in_u32 (SHA1.rotl 30 b)) by (apply in_u32_rotl; [lia | done]).
  destruct (j <? 20)%nat; [| destruct (j <? 40)%nat; [| destruct (j <? 60)%nat]];
    (split; [reflexivity |]); unfold state_in_u32;
    (split; [apply in_u32_mod | done]).
Qed.

Lemma fold_left_agree {S X : Type} (P : S -> Prop) (f g : S -> X -> S) (l : list X) :
  (forall s x, In x l -> P s -> f s x = g s x /\ P (f s x)) ->
  forall s, P s -> fold_left f l s = fold_left g l s /\ P (fold_left f l s).
Proof.
  induction l as [| x l IH]; intros Hstep s Hs; [done |].
  cbn [fold_left]. destruct (Hstep s x (or_introl eq_refl) Hs) as [E Hs'].
  rewrite <- E. apply IH; [| done]. intros s' x' Hx'. apply Hstep. by right.
Qed.

(** ** The chunks *)

Section chunks.

Variables message ws : list Z.
Hypothesis Hlength : length ws = length message.
Hypothesis Hmessage :
  forall k, (k < length message)%nat ->
    nth k message 0 = swap_byte_order32 (nth k ws 0).
Hypothesis Hwords : Forall in_u32 ws.

Lemma process_chunk_compress (h : SHA1.state) (i : nat) :
  (i + 16 <= length message)%nat ->
  state_in_u32 h ->
  make_id_impl.process_chunk message h i
  = SHA1.compress h (firstn 16 (skipn i ws)) /\
  state_in_u32 (make_id_impl.process_chunk message h i).
Proof.
  intros Hi Hh. unfold make_id_impl.process_chunk, SHA1.compress. cbv zeta.
  destruct (fold_left_agree state_in_u32
              (make_id_impl.round (make_id_impl.chunk_words message i))
              (SHA1.step (SHA1.schedule (firstn 16 (skipn i ws))))
              (seq 0 80)) with (s := h) as [E _].
  { intros s j Hj Hs. apply in_seq in Hj.
    destruct (chunk_words_schedule message ws i j Hi Hlength Hmessage Hwords) as [Hw HW];
      [lia |].
    apply round_step; assumption. }
  { exact Hh. }
  unfold make_id_impl.hash_state, SHA1.state in *.
  rewrite E. clear E. destruct h as [[[[h0 h1] h2] h3] h4]. split.
  - by destruct (fold_left _ (seq 0 80) _) as [[[[a b] c] d] e].
  - destruct (fold_left _ (seq 0 80) _) as [[[[a b] c] d] e].
    cbv beta iota delta [state_in_u32 u32].
    split; [| split; [| split; [| split]]]; apply in_u32_mod.
Qed.

Lemma chunk_loop (n b0 : nat) (h : SHA1.state) :
  (16 * (b0 + n) <= length message)%nat ->
  state_in_u32 h ->
  fold_left (make_id_impl.process_chunk message)
            (map (fun b => (16 * b)%nat) (seq b0 n)) h
  = fold_left SHA1.compress (SHA1.blocks n (skipn (16 * b0) ws)) h /\
  state_in_u32
    (fold_left (make_id_impl.process_chunk message)
               (map (fun b => (16 * b)%nat) (seq b0 n)) h).
Proof.
  revert b0 h. induction n as [| n IH]; intros b0 h Hn Hh; [done |].
  cbn [seq map fold_left SHA1.blocks].
  destruct (process_chunk_compress h (16 * b0)) as [E Hh']; [lia | done |].
  rewrite <- E. rewrite drop_drop.
  replace (16 * b0 + 16)%nat with (16 * S b0)%nat by lia.
  apply IH; [lia | done].
Qed.

End chunks.

Lemma initial_state_in_u32 : state_in_u32 make_id_impl.initial_state.
Proof. unfold state_in_u32, make_id_impl.initial_state, in_u32. cbn. lia. Qed.

(** The hash values that [make_id] ends with are the final state of SHA-1. *)
Lemma make_id_state (chars : list Z) :
  Forall is_byte chars ->
  fold_left (make_id_impl.process_chunk (make_id_impl.preprocessed_message chars))
            (make_id_impl.chunk_starts
               (length (make_id_impl.preprocessed_message chars)))
            make_id_impl.initial_state
  = SHA1.final_state chars /\
  state_in_u32 (SHA1.final_state chars).
Proof.
  intros Hbytes.
  destruct (preprocessed_message_words chars Hbytes) as (q & Hpm & Hws & Hnth).
  unfold SHA1.final_state, make_id_impl.chunk_starts. rewrite Hpm, Hws.
  replace ((16 * q + 15) / 16)%nat with q
    by (apply (Nat.div_unique _ 16 q 15); lia).
  replace (16 * q / 16)%nat with q
    by (apply (Nat.div_unique _ 16 q 0); lia).
  destruct (chunk_loop (make_id_impl.preprocessed_message chars)
              (SHA1.words (SHA1.pad chars))) with (n := q) (b0 := 0%nat)
              (h := make_id_impl.initial_state) as [E Hs].
  - by rewrite Hpm, Hws.
  - intros k Hk. apply Hnth. lia.
  - apply (in_u32_words (S (length (SHA1.pad chars)))); [lia |]. by apply is_byte_pad.
  - lia.
  - apply initial_state_in_u32.
  - change (16 * 0)%nat with 0%nat in E. rewrite drop_0 in E.
    rewrite E in Hs. split; [exact E | exact Hs].
Qed.

(** ** The identifier *)

Lemma ascii_bytes_is_byte (name : string) :
  is_ascii name -> Forall is_byte (ascii_bytes name).
Proof.
  intros H. eapply Forall_impl; [exact H |]. intros b Hb. cbv beta in Hb.
  unfold is_byte. lia.
Qed.

(** On an ASCII name the signedness of plain [char] makes no difference. *)
Lemma literal_chars_ascii (char_is_signed : bool) (name : string) :
  is_ascii name -> literal_chars char_is_signed name = ascii_bytes name.
Proof.
  unfold is_ascii, literal_chars, ascii_bytes.
  induction (String.list_ascii_of_string name) as [| c l IH]; intros H; [done |].
  cbn [map] in *. inversion H as [| ? ? Hc Hl]; subst. rewrite IH by done. f_equal.
  unfold char_value. destruct (Z.leb_spec 128 (Z.of_N (N_of_ascii c))); [lia |].
  by rewrite andb_false_r.
Qed.

Lemma shift_high_word (h0 : Z) :
  in_u32 h0 -> u64 (Z.shiftl (u64 h0) 32) = Z.shiftl h0 32.
Proof.
  intros H. unfold u64, in_u32 in *. rewrite (Z.mod_small h0) by lia.
  rewrite Z.shiftl_mul_pow2 by lia. apply Z.mod_small. lia.
Qed.

Lemma swap_byte_order64_bits (x i : Z) :
  Z.testbit (swap_byte_order64 x) i =
    (0 <=? i) && (i <? 8) && Z.testbit x (i + 56)
    || (8 <=? i) && (i <? 16) && Z.testbit x (i + 40)
    || (16 <=? i) && (i <? 24) && Z.testbit x (i + 24)
    || (24 <=? i) && (i <? 32) && Z.testbit x (i + 8)
    || (32 <=? i) && (i <? 40) && Z.testbit x (i - 8)
    || (40 <=? i) && (i <? 48) && Z.testbit x (i - 24)
    || (48 <=? i) && (i <? 56) && Z.testbit x (i - 40)
    || (56 <=? i) && (i <? 64) && Z.testbit x (i - 56).
Proof.
  unfold swap_byte_order64, u64, u32. bits_of_ops.
  rewrite !swap_byte_order32_bits. bits_of_ops. bits_cases.
Qed.

(** The bytes of the swapped value, least significant first, are the eight
    bytes of the two words, most significant first. *)
Lemma le_bytes_swap_byte_order64 (h0 h1 : Z) :
  in_u32 h0 -> in_u32 h1 ->
  le_bytes 8 (swap_byte_order64 (Z.lor (Z.shiftl h0 32) h1))
  = SHA1.be_bytes 4 h0 ++ SHA1.be_bytes 4 h1.
Proof.
  intros H0 H1. apply (nth_ext _ _ 0 0).
  { by rewrite length_app, !length_be_bytes, length_le_bytes. }
  rewrite length_le_bytes. intros k Hk. rewrite nth_le_bytes by lia.
  assert (Hhigh : forall i, 32 <= i -> Z.testbit h1 i = false)
    by (intros i Hi; by apply in_u32_high).
  assert (Hhigh0 : forall i, 32 <= i -> Z.testbit h0 i = false)
    by (intros i Hi; by apply in_u32_high).
  destruct k as [| [| [| [| [| [| [| [| k]]]]]]]]; [| | | | | | | | lia];
    [ rewrite app_nth1 by (rewrite length_be_bytes; lia)
    | rewrite app_nth1 by (rewrite length_be_bytes; lia)
    | rewrite app_nth1 by (rewrite length_be_bytes; lia)
    | rewrite app_nth1 by (rewrite length_be_bytes; lia)
    | rewrite app_nth2 by (rewrite length_be_bytes; lia)
    | rewrite app_nth2 by (rewrite length_be_bytes; lia)
    | rewrite app_nth2 by (rewrite length_be_bytes; lia)
    | rewrite app_nth2 by (rewrite length_be_bytes; lia) ];
    rewrite ?length_be_bytes, nth_be_bytes by (cbn; lia);
    cbn [Nat.sub Nat.mul Nat.add Z.of_nat Pos.of_succ_nat Pos.succ Z.mul Pos.mul Pos.add];
    apply Z.bits_inj'; intros i Hi; bits_of_ops;
    rewrite swap_byte_order64_bits; bits_of_ops;
    repeat match goal with
           | |- context [(?a <? ?b)] => destruct (Z.ltb_spec a b); try lia
           | |- context [(?a <=? ?b)] => destruct (Z.leb_spec a b); try lia
           end;
    cbn [andb orb];
    rewrite ?Hhigh, ?Hhigh0 by lia;
    rewrite ?orb_false_r, ?andb_false_r, ?andb_true_r;
    try reflexivity; apply testbit_index; lia.
Qed.

(** The reference function yields the digests of the standard test
    messages. *)
Example digest_of_abc :
  SHA1.digest (ascii_bytes "abc")
  = [0xa9; 0x99; 0x3e; 0x36; 0x47; 0x06; 0x81; 0x6a; 0xba; 0x3e;
     0x25; 0x71; 0x78; 0x50; 0xc2; 0x6c; 0x9c; 0xd0; 0xd8; 0x9d].
Proof. by vm_compute. Qed.

Example digest_of_empty :
  SHA1.digest (ascii_bytes "")
  = [0xda; 0x39; 0xa3; 0xee; 0x5e; 0x6b; 0x4b; 0x0d; 0x32; 0x55;
     0xbf; 0xef; 0x95; 0x60; 0x18; 0x90; 0xaf; 0xd8; 0x07; 0x09].
Proof. by vm_compute. Qed.

Example digest_of_two_blocks :
  SHA1.digest (ascii_bytes "abcdbcdecdefdefgefghfghighijhijkijkljklmklmnlmnomnopnopq")
  = [0x84; 0x98; 0x3e; 0x44; 0x1c; 0x3b; 0xd2; 0x6e; 0xba; 0xae;
     0x4a; 0xa1; 0xf9; 0x51; 0x29; 0xe5; 0xe5; 0x46; 0x70; 0xf1].
Proof. by vm_compute. Qed.

Example make_id_of_abc :
  make_id false "abc" = 0x6a810647363e99a9 /\ make_id true "abc" = 0x6a810647363e99a9.
Proof. by vm_compute. Qed.

(** C3. For every ASCII name, and whatever the signedness of plain [char]
    on the platform, [make_id] is the 64-bit value [(h0 << 32) | h1] of
    the final SHA-1 state of the name (padded with [0x80], zeros and the
    64-bit big-endian bit length) with its bytes swapped; the eight bytes
    of the identifier, least significant first, are the first eight bytes
    of the SHA-1 digest of the name. *)
Theorem make_id_is_sha1_prefix (char_is_signed : bool) (name : string) :
  is_ascii name ->
  let '(h0, h1, _, _, _) := SHA1.final_state (ascii_bytes name) in
  make_id char_is_signed name
  = swap_byte_order64 (Z.lor (Z.shiftl h0 32) h1) /\
  le_bytes 8 (make_id char_is_signed name)
  = firstn 8 (SHA1.digest (ascii_bytes name)).
Proof.
  intros Hascii. unfold make_id. cbv zeta. rewrite literal_chars_ascii by done.
  destruct (make_id_state (ascii_bytes name)) as [E Hs];
    [by apply ascii_bytes_is_byte |].
  unfold make_id_impl.hash_state, SHA1.state in *. rewrite E. unfold SHA1.digest.
  destruct (SHA1.final_state (ascii_bytes name)) as [[[[h0 h1] h2] h3] h4].
  destruct Hs as (H0 & H1 & _). rewrite shift_high_word by done.
  split; [reflexivity |]. rewrite le_bytes_swap_byte_order64 by done.
  rewrite (app_assoc (SHA1.be_bytes 4 h0)).
  rewrite take_app_length'; [done |]. by rewrite length_app, !length_be_bytes.
Qed.

Lemma make_id_is_sha1_prefix_witness :
  is_ascii "v1::person" /\
  let '(h0, h1, _, _, _) := SHA1.final_state (ascii_bytes "v1::person") in
  make_id true "v1::person"
  = swap_byte_order64 (Z.lor (Z.shiftl h0 32) h1) /\
  le_bytes 8 (make_id true "v1::person")
  = firstn 8 (SHA1.digest (ascii_bytes "v1::person")).
Proof.
  assert (H : is_ascii "v1::person").
  { unfold is_ascii. vm_compute (ascii_bytes _). repeat constructor; lia. }
  split; [exact H | exact (make_id_is_sha1_prefix true "v1::person" H)].
Defined.

(** * Further properties of the archives *)

(** ** The saving archive never rolls back *)

Section saving_calls.

Variable host : byte_order.
Variable saving_registry : registry.t ty.

Lemma save_call_appends (args : list (ty * value)) :
  exists o w, appends (save_call host saving_registry args) o w.
Proof.
  unfold save_call. apply save_items_appends, Forall_forall.
  intros v _ t. apply save_appends.
Qed.

Lemma save_items_app (sv : ty -> value -> lvmoa.t -> outcome * lvmoa.t)
    (args1 args2 : list (ty * value)) (a : lvmoa.t) :
  save_items sv (map fst (args1 ++ args2)) (map snd (args1 ++ args2)) a
  = match save_items sv (map fst args1) (map snd args1) a with
    | (normal, a') => save_items sv (map fst args2) (map snd args2) a'
    | r => r
    end.
Proof.
  revert a. induction args1 as [| [t v] args1 IH]; intros a; cbn [app map fst snd save_items].
  - by destruct args2.
  - destruct (sv t v a) as [o a1]. destruct o; [apply IH | done ..].
Qed.

(** The top-level call on a fitted archive, by what the items append. *)
Lemma memory_output_archive_call_make (args : list (ty * value)) (o : outcome)
    (w output : list Z) :
  appends (save_call host saving_registry args) o w ->
  memory_output_archive_call host saving_registry args (lvmoa.make output)
  = (o, lvmoa.make (output ++ w)).
Proof.
  intros A. destruct (A _ (within_make output)) as (a1 & E & Ha1 & Hw).
  unfold memory_output_archive_call. rewrite E. rewrite written_make in Hw.
  by rewrite fit_vector_written, Hw.
Qed.

(** X1. [memory_output_archive::operator()] only appends: the outcome of
    the call and the bytes it adds are the same whatever the vector holds;
    the vector ends up holding what it held, followed by those bytes - also
    when the call throws: what the items wrote before the exception
    stays. *)
Theorem memory_output_archive_call_appends (args : list (ty * value)) :
  exists o w, forall output,
    memory_output_archive_call host saving_registry args (lvmoa.make output)
    = (o, lvmoa.make (output ++ w)).
Proof.
  destruct (save_call_appends args) as (o & w & A). exists o, w.
  intros output. by apply memory_output_archive_call_make.
Qed.

(** X2. Saving several items in one call is saving them in consecutive
    calls: [out(items1..., items2...)] leaves the outcome and the vector
    that [out(items1...)] followed - if it returns - by [out(items2...)]
    leaves. *)
Theorem memory_output_archive_call_app (args1 args2 : list (ty * value))
    (output : list Z) :
  memory_output_archive_call host saving_registry (args1 ++ args2) (lvmoa.make output)
  = match memory_output_archive_call host saving_registry args1 (lvmoa.make output) with
    | (normal, a1) => memory_output_archive_call host saving_registry args2 a1
    | r => r
    end.
Proof.
  destruct (save_call_appends args1) as (o1 & w1 & A1).
  destruct (save_call_appends args2) as (o2 & w2 & A2).
  rewrite (memory_output_archive_call_make args1 o1 w1 output A1).
  assert (A : appends (save_call host saving_registry (args1 ++ args2))
                (if decide (o1 = normal) then o2 else o1)
                (if decide (o1 = normal) then w1 ++ w2 else w1)).
  { destruct (decide (o1 = normal)) as [-> | Hne].
    - eapply appends_ext; [| exact (appends_then _ _ _ _ _ A1 A2)].
      intros a. apply save_items_app.
    - eapply appends_ext; [| exact (appends_stop _ (save_call host saving_registry args2)
                                      _ _ A1 Hne)].
      intros a. apply save_items_app. }
  rewrite (memory_output_archive_call_make _ _ _ output A).
  destruct (decide (o1 = normal)) as [-> | Hne].
  - by rewrite (memory_output_archive_call_make args2 o2 w2 _ A2), app_assoc.
  - by destruct o1.
Qed.

End saving_calls.

(** ** What a failed load leaves behind *)

Section failed_loads.

Variable host : byte_order.
Variable key_less : ty -> value -> value -> bool.
Variable unordered_insert : ty -> associative_traits -> value -> list value -> list value.
Variable loading_registry : registry.t ty.

Local Abbreviation ld := (load host key_less unordered_insert loading_registry).

Lemma load_new_object_failure (f : ty -> value -> mvia.t -> load_result)
    (type : ty) (object : option value) (a : mvia.t) :
  hl_outcome (load_new_object f type object a) <> normal ->
  hl_object (load_new_object f type object a) = object.
Proof.
  unfold load_new_object. destruct (f type (default type) a) as [[o x] a1].
  by destruct o.
Qed.

Lemma registry_load_failure (f : ty -> value -> mvia.t -> load_result)
    (object : option value) (a : mvia.t) :
  hl_outcome (registry_load host loading_registry f object a) <> normal ->
  hl_object (registry_load host loading_registry f object a) = object.
Proof.
  unfold registry_load. destruct (load_scalar host 8 (scalar 0) a) as [[o v] a1].
  destruct o; try done. destruct v as [id | | |]; try done.
  destruct (registry.m_serialization_id_to_method loading_registry !! id); [| done].
  apply load_new_object_failure.
Qed.

Lemma load_polymorphic_failure (f : ty -> value -> mvia.t -> load_result)
    (type : ty) (object : option value) (a : mvia.t) :
  hl_outcome (load_polymorphic host loading_registry f type object a) <> normal ->
  hl_object (load_polymorphic host loading_registry f type object a) = object.
Proof.
  unfold load_polymorphic.
  destruct (registry_load host loading_registry f None a) as [o obj destroyed a1].
  cbn [hl_outcome hl_object hl_destroyed hl_archive].
  destruct o; try done. destruct obj as [loaded |]; [| done].
  by destruct (dynamic_cast_ok type loaded).
Qed.

(** X3. A load of an owning handle that does not return leaves the
    caller's handle holding what it held: the loading overloads for
    [std::unique_ptr] and [std::shared_ptr], polymorphic or not, load into
    an object of their own and call [object.reset] only after everything
    else has succeeded. *)
Theorem handle_load_failure (fuel : nat) (k : handle_kind) (type : ty)
    (p : option value) (a : mvia.t) :
  fst (fst (ld fuel (handle k type) (pointer p) a)) <> normal ->
  snd (fst (ld fuel (handle k type) (pointer p) a)) = pointer p.
Proof.
  destruct fuel as [| fuel]; [done |]. cbn [load fst snd].
  destruct (is_base_of polymorphic type); intros H; f_equal.
  - by apply load_polymorphic_failure.
  - by apply load_new_object_failure.
Qed.

(** X4. The loading overloads for resizable containers resize the
    container to the length prefix before they look at the rest of the
    input: once the prefix is read, the container has exactly that many
    elements when the call ends, whether it returns or throws. *)
Theorem resizable_load_resizes_first (fuel : nat) (c : container_traits) (e : ty)
    (xs : list value) (a a1 : mvia.t) (size : Z) :
  resizable_call loading c e <> None ->
  load_scalar host 4 (scalar 0) a = (normal, scalar size, a1) ->
  exists xs',
    snd (fst (ld (S fuel) (resizable c e) (items xs) a)) = items xs' /\
    length xs' = Z.to_nat size.
Proof.
  intros Hsel Hsize. cbn [load]. unfold resizable_call in Hsel.
  destruct (select_resizable loading c e) as [[|] |];
    [destruct (lvalue_items c); [| done] | | done]; rewrite Hsize.
  - pose proof (load_each_length (ld fuel e)
                  (vector_resize (default e) (Z.to_nat size) xs) a1) as Hlen.
    destruct (load_each _ _ a1) as [[o xs'] a2]. cbn [fst snd] in *.
    exists xs'. split; [done |]. by rewrite Hlen, vector_resize_length.
  - destruct (size =? 0).
    { eexists. split; [done |]. apply vector_resize_length. }
    destruct (storage_bytes _ _ _).
    + destruct (mvia.serialize_binary _ a1) as [[e' | bs] a2]; cbn [fst snd];
        eexists; (split; [done |]);
        rewrite ?storage_values_length; apply vector_resize_length.
    + eexists. split; [done |]. apply vector_resize_length.
Qed.


(** X6. An identifier that was not registered: the polymorphic load has
    read the eight bytes of the identifier when it throws
    [undeclared_polymorphic_type_error], so the owning archive erases
    them; the handle is as it was. *)
Theorem load_undeclared_identifier (fuel : nat) (k : handle_kind) (type : ty)
    (p : option value) (id : Z) (rest : list Z) :
  is_base_of polymorphic type = true ->
  0 <= id < 2 ^ 64 ->
  registry.m_serialization_id_to_method loading_registry !! id = None ->
  memory_input_archive_call host key_less unordered_insert loading_registry (S fuel)
    [(handle k type, pointer p)]
    (memory_input_archive_make (object_bytes host 8 id ++ rest))
  = (thrown undeclared_polymorphic_type_error, [pointer p],
     {| mia_input := rest; mia_view := mvia.mk (object_bytes host 8 id ++ rest) 0 |}).
Proof.
  intros Hpoly Hrange Hid.
  unfold memory_input_archive_call, load_call, memory_input_archive_make.
  cbn [map fst snd load_items mia_input load]. rewrite Hpoly.
  unfold load_polymorphic, registry_load, mvia.make.
  assert (O : occurs (object_bytes host 8 id) 0 (object_bytes host 8 id ++ rest))
    by (by exists [], rest).
  rewrite (reads_scalar host 8 id (scalar 0) (id_range _ Hrange) _ _ O), Hid.
  cbn [hl_outcome hl_object hl_destroyed hl_archive option_list app
       mvia.get_offset mvia.m_offset mvia.reset mvia.m_input Nat.add].
  unfold vector_erase_front. by rewrite drop_app_length.
Qed.

End failed_loads.

(** A [std::unique_ptr<int>] that holds 5 is loaded from two bytes. *)
Lemma handle_load_failure_witness :
  snd (fst (load little_endian example.less example.link_front registry.empty 2
              (handle unique_ptr example.int) (pointer (Some (scalar 5)))
              (mvia.make [1; 2])))
  = pointer (Some (scalar 5)).
Proof.
  apply (handle_load_failure little_endian example.less example.link_front registry.empty 2
           unique_ptr example.int (Some (scalar 5)) (mvia.make [1; 2])).
  vm_compute. discriminate.
Defined.

(** A [std::string] is loaded from a prefix of 3 and one character. *)
Lemma resizable_load_resizes_first_witness :
  exists xs',
    snd (fst (load little_endian example.less example.link_front registry.empty 1 example.std_string
                (items []) (mvia.make [3; 0; 0; 0; 65])))
    = items xs' /\
    length xs' = 3%nat.
Proof.
  apply (resizable_load_resizes_first little_endian example.less example.link_front registry.empty 0
           {| random_access := true; has_data := true; lvalue_items := true |} (fundamental 1) []
           (mvia.make [3; 0; 0; 0; 65]) (mvia.mk [3; 0; 0; 0; 65] 4) 3).
  - vm_compute. discriminate.
  - by vm_compute.
Defined.


Lemma load_undeclared_identifier_witness :
  memory_input_archive_call little_endian example.less example.link_front registry.empty 1
    [(handle unique_ptr example.person, pointer None)]
    (memory_input_archive_make ([7; 0; 0; 0; 0; 0; 0; 0] ++ [1; 2]))
  = (thrown undeclared_polymorphic_type_error, [pointer None],
     {| mia_input := [1; 2];
        mia_view := mvia.mk ([7; 0; 0; 0; 0; 0; 0; 0] ++ [1; 2]) 0 |}).
Proof.
  apply (load_undeclared_identifier little_endian example.less example.link_front registry.empty 0
           unique_ptr example.person None 7 [1; 2]).
  - by vm_compute.
  - lia.
  - by vm_compute.
Defined.

(** ** Two classes registered under one identifier *)

(** X7. [registry::add] with an identifier that is taken by another class
    registers half of the new class: the map from identifiers keeps the
    method of the first class, the map from type descriptors gains the new
    descriptor. A handle to an object of the new class is then saved as the
    identifier followed by the [std::bad_cast] of the method of the first
    class - when the new class does not derive from the first - and the
    eight bytes of the identifier stay in the vector. *)
Theorem colliding_registration (host : byte_order) (r : registry.t ty) (id : Z)
    (A B : ty) (info : string) (k : handle_kind) (base : ty) (mvs : list value)
    (output : list Z) :
  registry.m_serialization_id_to_method r !! id = Some A ->
  registry.m_type_information_to_serialization_id r !! info = None ->
  class_name B = Some info ->
  is_base_of polymorphic base = true ->
  dynamic_cast_ok A (object B mvs) = false ->
  registry.m_serialization_id_to_method (registry.add id info B r) !! id = Some A /\
  registry.m_type_information_to_serialization_id (registry.add id info B r) !! info
  = Some id /\
  memory_output_archive_call host (registry.add id info B r)
    [(handle k base, pointer (Some (object B mvs)))] (lvmoa.make output)
  = (thrown bad_cast, lvmoa.make (output ++ object_bytes host 8 id)).
Proof.
  intros HA Hinfo HB Hbase Hcast.
  assert (H1 : registry.m_serialization_id_to_method (registry.add id info B r) !! id
               = Some A) by (by apply emplace_keeps).
  assert (H2 : registry.m_type_information_to_serialization_id (registry.add id info B r)
                 !! info = Some id).
  { cbn. unfold registry.emplace. rewrite Hinfo. apply lookup_insert_eq. }
  split; [exact H1 |]. split; [exact H2 |].
  apply memory_output_archive_call_single.
  rewrite <- (app_nil_r (object_bytes host 8 id)).
  eapply appends_ext;
    [| exact (appends_after (object_bytes host 8 id) _ _ _ (appends_ret (thrown bad_cast)))].
  - intros a. cbn [save]. by rewrite Hbase, HB, H2, H1, Hcast.
Qed.

(** A [circle] is registered under the identifier of [person]. *)
Lemma colliding_registration_witness :
  memory_output_archive_call little_endian
    (registry.add (make_id false "v1::person") "circle" example.circle
       example.registered_types)
    [(handle unique_ptr example.person, pointer (Some example.a_circle))] (lvmoa.make [])
  = (thrown bad_cast,
     lvmoa.make ([] ++ object_bytes little_endian 8 (make_id false "v1::person"))).
Proof.
  refine (proj2 (proj2 (colliding_registration little_endian example.registered_types
                          (make_id false "v1::person") example.person example.circle
                          "circle" unique_ptr example.person [scalar 1; scalar 2] []
                          _ _ _ _ _)));
    by vm_compute.
Defined.

(** ** The two overloads for resizable containers write the same bytes *)

Lemma save_each_scalars (host : byte_order) (sr : registry.t ty) (e : ty)
    (vs : list value) :
  is_fundamental e || is_enum e = true ->
  Forall (fun v => exists b, v = scalar b) vs ->
  exists data,
    storage_bytes host (sizeof e) vs = Some data /\
    length data = (length vs * sizeof e)%nat /\
    appends (save_each (save host sr e) vs) normal data.
Proof.
  intros He. induction 1 as [| v vs [b ->] _ (data & Hdata & Hlen & A)].
  - exists []. repeat split. apply appends_ret.
  - exists (object_bytes host (sizeof e) b ++ data). cbn [storage_bytes].
    rewrite Hdata. split; [done |]. split.
    + rewrite length_app, length_object_bytes, Hlen. cbn [length]. lia.
    + eapply appends_ext; [| exact (appends_then _ _ _ _ _
                                      (appends_serialize (object_bytes host (sizeof e) b)) A)].
      intros a. cbn [save_each]. by destruct e.
Qed.

(** X8. A container of scalars is written in the same bytes by the
    per-element overload and by the contiguous overload (while its
    elements take less than [2^32] bytes), for two containers whose saving
    calls compile: the bytes of a [std::vector<int>] are those of a
    [std::list<int>] of the same elements. A [std::vector<bool>] is no such
    container: its call resolves to the per-element overload, whose loop
    does not compile. *)
Theorem resizable_overloads_agree (host : byte_order) (sr : registry.t ty)
    (c1 c2 : container_traits) (e : ty) (vs : list value) (output : list Z) :
  resizable_call saving c1 e = Some contiguous_fundamental ->
  resizable_call saving c2 e = Some per_element ->
  Forall (fun v => exists b, v = scalar b) vs ->
  Z.of_nat (length vs) < 2 ^ 32 ->
  Z.of_nat (length vs) * Z.of_nat (sizeof e) < 2 ^ 32 ->
  fst (memory_output_archive_call host sr [(resizable c1 e, items vs)] (lvmoa.make output))
  = normal /\
  memory_output_archive_call host sr [(resizable c1 e, items vs)] (lvmoa.make output)
  = memory_output_archive_call host sr [(resizable c2 e, items vs)] (lvmoa.make output).
Proof.
  intros Hc1 Hc2 Hvs Hlen Hbytes.
  apply resizable_call_compiles in Hc1 as [Hc1 _].
  apply resizable_call_compiles in Hc2 as [Hc2 Hlvalue]. specialize (Hlvalue eq_refl).
  pose proof (select_contiguous_scalar _ _ _ Hc1) as He.
  destruct (save_each_scalars host sr e vs He Hvs) as (data & Hdata & Hdlen & A).
  set (w := object_bytes host 4 (size_type (Z.of_nat (length vs))) ++ data).
  assert (A2 : appends (save host sr (resizable c2 e) (items vs)) normal w).
  { eapply appends_ext; [| exact (appends_after _ _ _ _ A)].
    intros a. cbn [save]. by rewrite Hc2, Hlvalue. }
  assert (A1 : appends (save host sr (resizable c1 e) (items vs)) normal w).
  { destruct (Z.eqb_spec (size_type (Z.of_nat (length vs))) 0) as [Hzero | Hpos].
    - rewrite size_type_small in Hzero by lia.
      assert (vs = []) as -> by (destruct vs; [done | cbn [length] in Hzero; lia]).
      cbn [storage_bytes] in Hdata. injection Hdata as <-. subst w. rewrite app_nil_r.
      eapply appends_ext; [| apply appends_serialize].
      intros a. cbn [save]. by rewrite Hc1.
    - eapply appends_ext; [| exact (appends_after _ _ _ _ (appends_serialize data))].
      intros a. cbn [save]. rewrite Hc1, Hdata.
      destruct (Z.eqb_spec (size_type (Z.of_nat (length vs))) 0); [done |].
      unfold lvmoa.serialize_binary, size_in_bytes.
      rewrite (size_type_small (Z.of_nat (length vs))) by lia.
      rewrite size_type_small by lia.
      rewrite <- Nat2Z.inj_mul, Nat2Z.id, <- Hdlen. by rewrite firstn_all. }
  rewrite (memory_output_archive_call_single host sr _ _ _ _ output A1).
  by rewrite (memory_output_archive_call_single host sr _ _ _ _ output A2).
Qed.

(** A [std::string] and a [std::list<char>] of the same characters. *)
Lemma resizable_overloads_agree_witness :
  memory_output_archive_call little_endian registry.empty
    [(example.std_string, example.text "1337")] (lvmoa.make [])
  = memory_output_archive_call little_endian registry.empty
      [(resizable {| random_access := false; has_data := false; lvalue_items := true |} (fundamental 1),
        example.text "1337")] (lvmoa.make []).
Proof.
  refine (proj2 (resizable_overloads_agree little_endian registry.empty
                   {| random_access := true; has_data := true; lvalue_items := true |}
                   {| random_access := false; has_data := false; lvalue_items := true |}
                   (fundamental 1) _ [] _ _ _ _ _)); try by vm_compute.
  repeat constructor; eauto.
Defined.

(** ** Loading into an associative container *)

Lemma container_insert_sublist (less : value -> value -> bool) (c : associative_traits)
    (x : value) (l : list value) :
  sublist l (container_insert less c x l).
Proof.
  induction l as [| y l IH]; cbn [container_insert].
  - apply sublist_nil_l.
  - destruct (less (key_of c x) (key_of c y)); [by apply sublist_cons |].
    destruct (unique_keys c && negb (less (key_of c y) (key_of c x))); [done |].
    by apply sublist_skip.
Qed.

Lemma load_inserting_sublist (load_item : mvia.t -> load_result)
    (less : value -> value -> bool) (c : associative_traits) (count : nat)
    (container : list value) (a : mvia.t) :
  sublist container
    (snd (fst (load_inserting load_item (container_insert less c) count container a))).
Proof.
  revert container a. induction count as [| count IH]; intros container a;
    cbn [load_inserting]; [done |].
  destruct (load_item a) as [[o item] a1]. destruct o; try done.
  etrans; [apply (container_insert_sublist less c item) | apply IH].
Qed.

(** X9. The loading overload for associative containers never clears the
    container: the elements it held before the call are still in it, in
    their order, when the call ends - with the loaded elements inserted
    among them. *)
Theorem associative_load_keeps_elements (host : byte_order)
    (key_less : ty -> value -> value -> bool)
    (unordered_insert : ty -> associative_traits -> value -> list value -> list value)
    (lr : registry.t ty) (fuel : nat)
    (c : associative_traits) (e : ty) (xs : list value) (a : mvia.t) :
  exists xs',
    snd (fst (load host key_less unordered_insert lr fuel (associative c e) (items xs) a))
    = items xs' /\
    sublist xs xs'.
Proof.
  destruct fuel as [| fuel]; cbn [load]; [by exists xs |].
  destruct (load_scalar host 4 (scalar 0) a) as [[o v] a1].
  destruct o; try by exists xs. destruct v as [size | | |]; try by exists xs.
  pose proof (load_inserting_sublist (load host key_less unordered_insert lr fuel e (default e))
                (key_less e) c (Z.to_nat size) xs a1) as H.
  destruct (load_inserting _ _ _ _ a1) as [[o xs'] a2]. by exists xs'.
Qed.

(** ** Types of fixed size *)

Definition sum_sizes (sizes : list (option nat)) : option nat :=
  fold_right (fun size total =>
                match size, total with
                | Some s, Some r => Some (s + r)%nat
                | _, _ => None
                end) (Some 0%nat) sizes.

(** The number of bytes of a type that holds no resizable or associative
    container and no polymorphic handle: the sizes of its scalars, added
    up. *)
Fixpoint fixed_size (t : ty) : option nat :=
  match t with
  | fundamental n | enumeration n => Some n
  | resizable _ _ | associative _ _ | unordered _ _ => None
  | array _ n e =>
      match fixed_size e with
      | Some s => Some (n * s)%nat
      | None => None
      end
  | pair t1 t2 => sum_sizes [fixed_size t1; fixed_size t2]
  | tuple ts => sum_sizes (map fixed_size ts)
  | handle _ type => if is_base_of polymorphic type then None else fixed_size type
  | class_ _ _ ms => sum_sizes (map fixed_size ms)
  end.

Section fixed_sizes.

Variable host : byte_order.
Variable saving_registry : registry.t ty.

Local Abbreviation sv := (save host saving_registry).

(** Saving [v] at a type of fixed size writes that many bytes, if it
    returns. *)
Definition sized (v : value) : Prop :=
  forall t n w, fixed_size t = Some n -> appends (sv t v) normal w -> length w = n.

(** What a step followed by the rest appends, from what they append. *)
Lemma appends_split (f g : lvmoa.t -> outcome * lvmoa.t) (w : list Z) :
  (exists o1 w1, appends f o1 w1) ->
  (exists o2 w2, appends g o2 w2) ->
  appends (fun a => match f a with (normal, a') => g a' | r => r end) normal w ->
  exists w1 w2, appends f normal w1 /\ appends g normal w2 /\ w = w1 ++ w2.
Proof.
  intros (o1 & w1 & A1) (o2 & w2 & A2) A.
  destruct (decide (o1 = normal)) as [-> | Hne].
  - destruct (appends_unique _ _ _ _ _ A (appends_then _ _ _ _ _ A1 A2)) as [<- ->].
    by exists w1, w2.
  - destruct (appends_unique _ _ _ _ _ A (appends_stop _ g _ _ A1 Hne)) as [<- _]. done.
Qed.

Lemma not_appends_normal (o : outcome) (w : list Z) :
  o <> normal -> ~ appends (fun a => (o, a)) normal w.
Proof.
  intros Ho A. by destruct (appends_unique _ _ _ _ _ A (appends_ret o)) as [<- _].
Qed.

Lemma save_each_sized (e : ty) (s : nat) (vs : list value) (w : list Z) :
  Forall sized vs -> fixed_size e = Some s ->
  appends (save_each (sv e) vs) normal w -> length w = (length vs * s)%nat.
Proof.
  intros Hvs He. revert w. induction Hvs as [| v vs Hv _ IH]; intros w A.
  - by destruct (appends_unique _ _ _ _ _ A (appends_ret normal)) as [_ ->].
  - destruct (appends_split (sv e v) (save_each (sv e) vs) w) as (w1 & w2 & A1 & A2 & ->).
    + apply save_appends.
    + apply save_each_appends, Forall_forall. intros x _. apply save_appends.
    + eapply appends_ext; [| exact A]. reflexivity.
    + rewrite length_app, (Hv e s w1 He A1), (IH w2 A2). cbn [length]. lia.
Qed.

Lemma save_items_sized (vs : list value) :
  Forall sized vs ->
  forall ts n w, sum_sizes (map fixed_size ts) = Some n ->
    (appends (save_items sv ts vs) normal w -> length w = n) /\
    (appends (save_members sv ts vs) normal w -> length w = n).
Proof.
  induction 1 as [| v vs Hv Hvs IH]; intros [| t ts] n w Hn; cbn [map sum_sizes fold_right] in Hn.
  - injection Hn as <-.
    split; intros A; by destruct (appends_unique _ _ _ _ _ A (appends_ret normal)) as [_ ->].
  - split; intros A; by apply not_appends_normal in A.
  - injection Hn as <-. split; intros A.
    + by apply not_appends_normal in A.
    + by destruct (appends_unique _ _ _ _ _ A (appends_ret normal)) as [_ ->].
  - destruct (fixed_size t) as [s |] eqn:Ht; [| done].
    fold (sum_sizes (map fixed_size ts)) in Hn.
    destruct (sum_sizes (map fixed_size ts)) as [r |] eqn:Hr; [| done].
    injection Hn as <-.
    assert (Hrest : forall ts', exists o2 w2, appends (save_items sv ts' vs) o2 w2).
    { intros ts'. apply save_items_appends, Forall_forall. intros x _ t'. apply save_appends. }
    assert (Hrest' : forall ts', exists o2 w2, appends (save_members sv ts' vs) o2 w2).
    { intros ts'. apply save_members_appends, Forall_forall. intros x _ t'. apply save_appends. }
    split; intros A.
    + destruct (appends_split (sv t v) (save_items sv ts vs) w) as (w1 & w2 & A1 & A2 & ->);
        [apply save_appends | apply Hrest | eapply appends_ext; [| exact A]; reflexivity |].
      rewrite length_app, (Hv t s w1 Ht A1). f_equal. exact (proj1 (IH ts r w2 Hr) A2).
    + destruct (appends_split (sv t v) (save_members sv ts vs) w) as (w1 & w2 & A1 & A2 & ->);
        [apply save_appends | apply Hrest' | eapply appends_ext; [| exact A]; reflexivity |].
      rewrite length_app, (Hv t s w1 Ht A1). f_equal. exact (proj2 (IH ts r w2 Hr) A2).
Qed.

Lemma value_sized (v : value) : sized v.
Proof.
  induction v as [x | vs IH | | obj IH | dyn mvs IH] using value_ind'; intros t n w Hn A.
  - destruct t as [m | m | | | | | | | |]; try (by apply not_appends_normal in A);
      injection Hn as <-;
      destruct (appends_unique _ _ _ _ _ A (appends_serialize (object_bytes host m x)))
        as [_ ->]; apply length_object_bytes.
  - destruct t as [| | c e | c e | c e | k m e | t1 t2 | ts | |]; try discriminate;
      try (by apply not_appends_normal in A).
    + cbn [fixed_size] in Hn. destruct (fixed_size e) as [s |] eqn:He; [| done].
      injection Hn as <-. cbn [save] in A.
      destruct (Nat.eqb_spec (length vs) m) as [<- |]; [| by apply not_appends_normal in A].
      by apply (save_each_sized e s vs w).
    + exact (proj1 (save_items_sized vs IH [t1; t2] n w Hn) A).
    + exact (proj1 (save_items_sized vs IH ts n w Hn) A).
  - destruct t; try (by apply not_appends_normal in A).
  - destruct t as [| | | | | | | | k type |]; try (by apply not_appends_normal in A).
    cbn [fixed_size] in Hn. cbn [save] in A.
    destruct (is_base_of polymorphic type); [done |]. by apply (IH type n w).
  - destruct t as [| | | | | | | | | name bases ms]; try (by apply not_appends_normal in A).
    exact (proj2 (save_items_sized mvs IH ms n w Hn) A).
Qed.

(** X10. The encoding has no framing and no padding: a save that returns,
    of an item whose type holds no resizable or associative container and
    no polymorphic handle, adds to the vector exactly the bytes of the
    scalars of the type - a number that the type alone determines. *)
Theorem fixed_size_encoding (t : ty) (v : value) (n : nat) (output : list Z)
    (a' : lvmoa.t) :
  fixed_size t = Some n ->
  memory_output_archive_call host saving_registry [(t, v)] (lvmoa.make output)
  = (normal, a') ->
  length (lvmoa.m_output a') = (length output + n)%nat.
Proof.
  intros Hn E. destruct (save_appends host saving_registry v t) as (o & w & A).
  rewrite (memory_output_archive_call_single host saving_registry t v o w output A) in E.
  injection E as -> <-. cbn [lvmoa.make lvmoa.m_output].
  by rewrite length_app, (value_sized v t n w Hn A).
Qed.

End fixed_sizes.

(** A [point] takes eight bytes. *)
Lemma fixed_size_encoding_witness :
  length (lvmoa.m_output
            (snd (memory_output_archive_call little_endian registry.empty
                    [(example.point, object example.point [scalar 1337; scalar 1338])]
                    (lvmoa.make [7]))))
  = (length [7] + 8)%nat.
Proof.
  apply (fixed_size_encoding little_endian registry.empty example.point
           (object example.point [scalar 1337; scalar 1338]) 8 [7]); by vm_compute.
Defined.

(** ** The order of the registrations of [register_types] *)

(** What [register_types] does to one registry: the types are added from
    the last to the first. *)
Definition add_types (types : list (ty * Z)) (r : registry.t ty) : registry.t ty :=
  fold_right (fun '(type, id) r =>
                match class_name type with
                | Some info => registry.add id info type r
                | None => r
                end) r types.

Lemma register_builtin (type : ty) (id : Z) (rs rs' : registries) :
  register_type_to_archives builtin_archives type id rs = Some rs' ->
  exists info,
    class_name type = Some info /\
    loading_instance rs' = registry.add id info type (loading_instance rs) /\
    saving_instance rs' = registry.add id info type (saving_instance rs).
Proof.
  cbn [register_type_to_archives builtin_archives]. unfold register_type_to_archive.
  destruct (class_name type) as [info |]; [| done].
  destruct (is_base_of polymorphic type); [| done]. intros [= <-]. by exists info.
Qed.

Lemma register_types_builtin (types : list (ty * Z)) (rs rs' : registries) :
  register_types builtin_archives types rs = Some rs' ->
  loading_instance rs' = add_types types (loading_instance rs) /\
  saving_instance rs' = add_types types (saving_instance rs).
Proof.
  revert rs'. induction types as [| [type id] types IH]; intros rs' E.
  - by injection E as <-.
  - cbn [register_types] in E.
    destruct (register_types builtin_archives types rs) as [rs1 |]; [| done].
    destruct (IH rs1 eq_refl) as [IH1 IH2].
    destruct (register_builtin _ _ _ _ E) as (info & Hinfo & -> & ->).
    cbn [add_types fold_right]. fold (add_types types (loading_instance rs)).
    fold (add_types types (saving_instance rs)). by rewrite Hinfo, IH1, IH2.
Qed.

Lemma emplace_lookup {K : Type} `{Countable K} {V : Type} (k k' : K) (v : V) (m : gmap K V) :
  registry.emplace k v m !! k'
  = match m !! k' with
    | Some x => Some x
    | None => if decide (k' = k) then Some v else None
    end.
Proof.
  unfold registry.emplace. destruct (m !! k) as [x |] eqn:Hk.
  - destruct (m !! k') eqn:Hk'; [done |]. destruct (decide (k' = k)) as [-> |]; congruence.
  - destruct (decide (k' = k)) as [-> |].
    + by rewrite lookup_insert_eq, Hk.
    + rewrite lookup_insert_ne by done. by destruct (m !! k').
Qed.

Lemma add_types_absent (types : list (ty * Z)) (r : registry.t ty) (id : Z) :
  id ∉ types.*2 ->
  registry.m_serialization_id_to_method r !! id = None ->
  registry.m_serialization_id_to_method (add_types types r) !! id = None.
Proof.
  induction types as [| [type id'] types IH]; intros Hid Hr; [done |].
  apply not_elem_of_cons in Hid as [Hne Hid]. cbn [add_types fold_right].
  fold (add_types types r). destruct (class_name type); [| by apply IH].
  cbn. rewrite emplace_lookup, IH by done. by destruct (decide (id = id')).
Qed.

Lemma add_types_absent_info (types : list (ty * Z)) (r : registry.t ty) (info : string) :
  Some info ∉ (class_name ∘ fst) <$> types ->
  registry.m_type_information_to_serialization_id r !! info = None ->
  registry.m_type_information_to_serialization_id (add_types types r) !! info = None.
Proof.
  induction types as [| [type id'] types IH]; intros Hinfo Hr; [done |].
  apply not_elem_of_cons in Hinfo as [Hne Hinfo]. cbn [add_types fold_right].
  fold (add_types types r). cbn in Hne.
  destruct (class_name type) as [info' |]; [| by apply IH].
  cbn. rewrite emplace_lookup, IH by done.
  destruct (decide (info = info')) as [-> |]; done.
Qed.

Lemma add_types_keeps (types : list (ty * Z)) (r : registry.t ty) :
  (forall k m, registry.m_serialization_id_to_method r !! k = Some m ->
     registry.m_serialization_id_to_method (add_types types r) !! k = Some m) /\
  (forall s i, registry.m_type_information_to_serialization_id r !! s = Some i ->
     registry.m_type_information_to_serialization_id (add_types types r) !! s = Some i).
Proof.
  induction types as [| [type id] types [IH1 IH2]]; [done |].
  cbn [add_types fold_right]. fold (add_types types r).
  destruct (class_name type) as [info |]; [| done].
  destruct (add_keeps id info type (add_types types r)) as [H1 H2].
  split; intros; [apply H1, IH1 | apply H2, IH2]; done.
Qed.

Lemma add_types_app (before after : list (ty * Z)) (r : registry.t ty) :
  add_types (before ++ after) r = add_types before (add_types after r).
Proof. apply foldr_app. Qed.

(** The entry of a type that no later type of the list contends with. *)
Lemma add_types_last (before after : list (ty * Z)) (type : ty) (id : Z) (info : string)
    (r : registry.t ty) :
  class_name type = Some info ->
  (id ∉ after.*2 ->
   registry.m_serialization_id_to_method r !! id = None ->
   registry.m_serialization_id_to_method (add_types (before ++ (type, id) :: after) r) !! id
   = Some type) /\
  (Some info ∉ (class_name ∘ fst) <$> after ->
   registry.m_type_information_to_serialization_id r !! info = None ->
   registry.m_type_information_to_serialization_id
     (add_types (before ++ (type, id) :: after) r) !! info
   = Some id).
Proof.
  intros Hinfo. rewrite add_types_app.
  destruct (add_types_keeps before (add_types ((type, id) :: after) r)) as [K1 K2].
  split; intros Hafter Hr; [apply K1 | apply K2];
    cbn [add_types fold_right]; fold (add_types after r); rewrite Hinfo; cbn;
    rewrite emplace_lookup.
  - rewrite add_types_absent by done. by rewrite decide_True.
  - rewrite add_types_absent_info by done. by rewrite decide_True.
Qed.

(** A type that [register_types] accepts is a class. *)
Lemma register_types_class (before after : list (ty * Z)) (type : ty) (id : Z)
    (rs rs' : registries) :
  register_types builtin_archives (before ++ (type, id) :: after) rs = Some rs' ->
  exists info, class_name type = Some info.
Proof.
  revert rs'. induction before as [| [t i] before IH]; intros rs' E.
  - cbn [app register_types] in E.
    destruct (register_types builtin_archives after rs) as [rs1 |]; [| done].
    destruct (register_builtin _ _ _ _ E) as (info & Hinfo & _). by exists info.
  - cbn [app register_types] in E.
    destruct (register_types builtin_archives (before ++ (type, id) :: after) rs)
      as [rs1 |]; [| done].
    by apply (IH rs1).
Qed.

(** X11. [register_types] registers its types from the last to the first -
    the base class, which holds the later types, is constructed before the
    body of the constructor runs - so of two types listed with one
    identifier it is the later one that gets it, in the registries of both
    built-in archives. *)
Theorem register_types_last_wins (before after : list (ty * Z)) (type : ty) (id : Z)
    (rs rs' : registries) :
  register_types builtin_archives (before ++ (type, id) :: after) rs = Some rs' ->
  id ∉ after.*2 ->
  registry.m_serialization_id_to_method (loading_instance rs) !! id = None ->
  registry.m_serialization_id_to_method (saving_instance rs) !! id = None ->
  registry.m_serialization_id_to_method (loading_instance rs') !! id = Some type /\
  registry.m_serialization_id_to_method (saving_instance rs') !! id = Some type.
Proof.
  intros E Hafter Hl Hs. destruct (register_types_class _ _ _ _ _ _ E) as [info Hinfo].
  destruct (register_types_builtin _ _ _ E) as [-> ->].
  split; by apply (add_types_last before after type id info).
Qed.

(** [person] and [student] are listed with one identifier. *)
Lemma register_types_last_wins_witness :
  registry.m_serialization_id_to_method
    (loading_instance
       {| loading_instance := add_types [(example.person, 1); (example.student, 1)]
                                registry.empty;
          saving_instance := add_types [(example.person, 1); (example.student, 1)]
                               registry.empty |}) !! 1
  = Some example.student /\
  registry.m_serialization_id_to_method
    (saving_instance
       {| loading_instance := add_types [(example.person, 1); (example.student, 1)]
                                registry.empty;
          saving_instance := add_types [(example.person, 1); (example.student, 1)]
                               registry.empty |}) !! 1
  = Some example.student.
Proof.
  apply (register_types_last_wins [(example.person, 1)] [] example.student 1
           {| loading_instance := registry.empty; saving_instance := registry.empty |}).
  - by vm_compute.
  - apply not_elem_of_nil.
  - done.
  - done.
Defined.

(** X12. Types listed with identifiers of their own, and of distinct
    classes, are all registered: after [register_types] on fresh
    registries, the descriptor of each type resolves to its identifier and
    the identifier to the method of the type, for saving and for loading
    alike. *)
Theorem register_types_registers_all (types : list (ty * Z)) (rs' : registries)
    (type : ty) (id : Z) :
  register_types builtin_archives types
    {| loading_instance := registry.empty; saving_instance := registry.empty |}
  = Some rs' ->
  NoDup types.*2 ->
  NoDup ((class_name ∘ fst) <$> types) ->
  (type, id) ∈ types ->
  exists info,
    class_name type = Some info /\
    registry.m_type_information_to_serialization_id (saving_instance rs') !! info = Some id /\
    registry.m_serialization_id_to_method (saving_instance rs') !! id = Some type /\
    registry.m_type_information_to_serialization_id (loading_instance rs') !! info = Some id /\
    registry.m_serialization_id_to_method (loading_instance rs') !! id = Some type.
Proof.
  intros E Hids Hnames Hin.
  apply list_elem_of_split in Hin as (before & after & ->).
  destruct (register_types_class _ _ _ _ _ _ E) as [info Hinfo].
  destruct (register_types_builtin _ _ _ E) as [El Es]. cbn in El, Es.
  assert (Hid : id ∉ after.*2).
  { rewrite fmap_app, fmap_cons in Hids. apply NoDup_app in Hids as (_ & _ & Hids).
    by apply NoDup_cons in Hids as [Hids _]. }
  assert (Hafter : Some info ∉ (class_name ∘ fst) <$> after).
  { rewrite fmap_app, fmap_cons in Hnames. apply NoDup_app in Hnames as (_ & _ & Hnames).
    apply NoDup_cons in Hnames as [Hnames _]. cbn in Hnames. by rewrite Hinfo in Hnames. }
  destruct (add_types_last before after type id info registry.empty Hinfo) as [Hm Hn].
  specialize (Hm Hid eq_refl). specialize (Hn Hafter eq_refl).
  exists info. by rewrite El, Es.
Qed.

(** The two classes of [examples/archive.cpp], as the example lists them. *)
Lemma register_types_registers_all_witness :
  exists info,
    class_name example.student = Some info /\
    registry.m_type_information_to_serialization_id example.registered_types !! info
    = Some (make_id false "v1::student") /\
    registry.m_serialization_id_to_method example.registered_types
      !! make_id false "v1::student" = Some example.student /\
    registry.m_type_information_to_serialization_id example.registered_types !! info
    = Some (make_id false "v1::student") /\
    registry.m_serialization_id_to_method example.registered_types
      !! make_id false "v1::student" = Some example.student.
Proof.
  apply (register_types_registers_all
           [(example.person, make_id false "v1::person");
            (example.student, make_id false "v1::student")]
           {| loading_instance := example.registered_types;
              saving_instance := example.registered_types |}
           example.student (make_id false "v1::student")).
  - by vm_compute.
  - apply (bool_decide_unpack _). by vm_compute.
  - apply (bool_decide_unpack _). by vm_compute.
  - apply elem_of_cons. right. apply elem_of_cons. by left.
Defined.

(** ** Saving by reference with [as_polymorphic] *)

Lemma save_polymorphic_wrapper_handle (host : byte_order) (sr : registry.t ty)
    (k : handle_kind) (type base : ty) (obj : value) (a : lvmoa.t) :
  is_base_of polymorphic type = true ->
  is_base_of polymorphic base = true ->
  save_polymorphic_wrapper host sr type obj a
  = save host sr (handle k base) (pointer (Some obj)) a.
Proof.
  intros Htype Hbase. unfold save_polymorphic_wrapper, registry_save. cbn [save].
  rewrite Htype, Hbase. by destruct obj.
Qed.



(** ** The trace of a save *)

(** The [serialize] calls of a save, applied in order. *)
Definition run (ws : list (list Z)) (a : lvmoa.t) : lvmoa.t :=
  fold_left (fun a bs => lvmoa.serialize bs a) ws a.

(** [f] ends with outcome [o] after the [serialize] calls [ws], whatever
    the archive. *)
Definition emits (f : lvmoa.t -> outcome * lvmoa.t) (o : outcome) (ws : list (list Z)) : Prop :=
  forall a, f a = (o, run ws a).

Lemma emits_ret (o : outcome) : emits (fun a => (o, a)) o [].
Proof. done. Qed.

Lemma emits_then (f g : lvmoa.t -> outcome * lvmoa.t) (o : outcome) (ws1 ws2 : list (list Z)) :
  emits f normal ws1 -> emits g o ws2 ->
  emits (fun a => match f a with (normal, a') => g a' | r => r end) o (ws1 ++ ws2).
Proof. intros Hf Hg a. unfold run. by rewrite Hf, Hg, fold_left_app. Qed.

Lemma emits_stop (f g : lvmoa.t -> outcome * lvmoa.t) (o : outcome) (ws : list (list Z)) :
  emits f o ws -> o <> normal ->
  emits (fun a => match f a with (normal, a') => g a' | r => r end) o ws.
Proof. intros Hf Ho a. rewrite Hf. by destruct o. Qed.

Lemma emits_after (bs : list Z) (g : lvmoa.t -> outcome * lvmoa.t) (o : outcome)
    (ws : list (list Z)) :
  emits g o ws -> emits (fun a => g (lvmoa.serialize bs a)) o (bs :: ws).
Proof. intros Hg a. by rewrite Hg. Qed.

Lemma emits_ext (f g : lvmoa.t -> outcome * lvmoa.t) (o : outcome) (ws : list (list Z)) :
  (forall a, g a = f a) -> emits f o ws -> emits g o ws.
Proof. intros E Hf a. rewrite E. apply Hf. Qed.

Lemma emits_step (f g : lvmoa.t -> outcome * lvmoa.t) :
  (exists o ws, emits f o ws) ->
  (exists o ws, emits g o ws) ->
  exists o ws, emits (fun a => match f a with (normal, a') => g a' | r => r end) o ws.
Proof.
  intros (o1 & ws1 & H1) (o2 & ws2 & H2).
  destruct (decide (o1 = normal)) as [-> | Hne].
  - exists o2, (ws1 ++ ws2). by apply emits_then.
  - exists o1, ws1. by apply emits_stop.
Qed.

Section save_trace.

Variable host : byte_order.
Variable saving_registry : registry.t ty.

Local Abbreviation sv := (save host saving_registry).

Lemma save_each_emits (f : value -> lvmoa.t -> outcome * lvmoa.t) (vs : list value) :
  Forall (fun v => exists o ws, emits (f v) o ws) vs ->
  exists o ws, emits (save_each f vs) o ws.
Proof.
  induction 1 as [| v vs Hv _ IH].
  - exists normal, []. apply emits_ret.
  - destruct (emits_step _ _ Hv IH) as (o & ws & H). exists o, ws.
    eapply emits_ext; [| exact H]. reflexivity.
Qed.

Lemma save_items_emits (f : ty -> value -> lvmoa.t -> outcome * lvmoa.t) (vs : list value) :
  Forall (fun v => forall t, exists o ws, emits (f t v) o ws) vs ->
  forall ts,
    (exists o ws, emits (save_items f ts vs) o ws) /\
    (exists o ws, emits (save_members f ts vs) o ws).
Proof.
  induction 1 as [| v vs Hv _ IH]; intros [| t ts];
    try (split; eexists _, []; apply emits_ret).
  destruct (IH ts) as [IH1 IH2]. split.
  - destruct (emits_step _ _ (Hv t) IH1) as (o & ws & H). exists o, ws.
    eapply emits_ext; [| exact H]. reflexivity.
  - destruct (emits_step _ _ (Hv t) IH2) as (o & ws & H). exists o, ws.
    eapply emits_ext; [| exact H]. reflexivity.
Qed.

(** Every save is a sequence of [serialize] calls that the item alone
    determines. *)
Lemma save_emits (v : value) : forall t, exists o ws, emits (sv t v) o ws.
Proof.
  induction v as [x | vs IH | | obj IH | dyn mvs IH] using value_ind'; intros t.
  - destruct t; try (eexists _, []; apply emits_ret);
      (eexists normal, [_]; intros a; reflexivity).
  - assert (Heach : forall e, exists o ws, emits (save_each (sv e) vs) o ws).
    { intros e. apply save_each_emits. eapply Forall_impl; [exact IH |]. intros v Hv. apply Hv. }
    pose proof (save_items_emits sv vs IH) as Hitems.
    destruct t as [n | n | c e | c e | c e | k n e | t1 t2 | ts | k type | name bases ms];
      try (eexists _, []; apply emits_ret).
    + cbn [save]. destruct (select_resizable saving c e) as [[|] |].
      * destruct (lvalue_items c); [| eexists _, []; apply emits_ret].
        destruct (Heach e) as (o & ws & H). eexists o, (_ :: ws).
        eapply emits_ext; [| exact (emits_after _ _ _ _ H)]. reflexivity.
      * destruct (size_type (Z.of_nat (length vs)) =? 0).
        { eexists normal, [_]. intros a. reflexivity. }
        destruct (storage_bytes host (sizeof e) vs) as [data |].
        -- eexists normal, [_; _]. intros a. reflexivity.
        -- eexists ill_formed, [_]. intros a. reflexivity.
      * eexists _, []. apply emits_ret.
    + cbn [save]. destruct (Heach e) as (o & ws & H). eexists o, (_ :: ws).
      eapply emits_ext; [| exact (emits_after _ _ _ _ H)]. reflexivity.
    + cbn [save]. destruct (Heach e) as (o & ws & H). eexists o, (_ :: ws).
      eapply emits_ext; [| exact (emits_after _ _ _ _ H)]. reflexivity.
    + cbn [save]. destruct (length vs =? n)%nat; [apply Heach |].
      eexists _, []. apply emits_ret.
    + apply Hitems.
    + apply Hitems.
  - destruct t; eexists _, []; apply emits_ret.
  - destruct t as [n | n | c e | c e | c e | k n e | t1 t2 | ts | k type | name bases ms];
      try (eexists _, []; apply emits_ret).
    cbn [save]. destruct (is_base_of polymorphic type); [| apply IH].
    destruct obj as [x | vs | p | dyn mvs]; try (eexists _, []; apply emits_ret).
    destruct (class_name dyn) as [info |]; [| eexists _, []; apply emits_ret].
    destruct (registry.m_type_information_to_serialization_id saving_registry !! info)
      as [id |]; [| eexists _, []; apply emits_ret].
    destruct (registry.m_serialization_id_to_method saving_registry !! id)
      as [method_type |]; [| eexists _, []; apply emits_ret].
    destruct (dynamic_cast_ok method_type (object dyn mvs)).
    + destruct (IH method_type) as (o & ws & H). eexists o, (_ :: ws).
      eapply emits_ext; [| exact (emits_after _ _ _ _ H)]. reflexivity.
    + eexists (thrown bad_cast), [_]. intros a. reflexivity.
  - destruct t as [n | n | c e | c e | c e | k n e | t1 t2 | ts | k type | name bases ms];
      try (eexists _, []; apply emits_ret).
    cbn [save]. apply (save_items_emits sv mvs IH ms).
Qed.

Lemma save_call_emits (args : list (ty * value)) :
  exists o ws, emits (save_call host saving_registry args) o ws.
Proof.
  unfold save_call. apply save_items_emits, Forall_forall. intros v _ t. apply save_emits.
Qed.

End save_trace.

(** ** The output archive from any state *)

(** What [fit_vector] leaves in the vector. *)
Definition fit_view (a : lvmoa.t) : list Z :=
  vector_resize 0 (lvmoa.m_size a) (lvmoa.m_output a).

Lemma take_repeat {A : Type} (d : A) (k n : nat) :
  (k <= n)%nat -> firstn k (repeat d n) = repeat d k.
Proof.
  revert n. induction k as [| k IH]; intros [| n] Hk; cbn; try done; [lia |].
  f_equal. apply IH. lia.
Qed.

Lemma take_vector_resize {A : Type} (d : A) (m n : nat) (v : list A) :
  (m <= n)%nat -> firstn m (vector_resize d n v) = vector_resize d m v.
Proof.
  intros Hm. unfold vector_resize. destruct (Nat.le_gt_cases m (length v)) as [Hle | Hgt].
  - rewrite take_app_le by (rewrite length_take; lia).
    rewrite take_take, Nat.min_l by lia.
    replace (m - length v)%nat with 0%nat by lia. cbn. by rewrite app_nil_r.
  - rewrite !(take_ge v) by lia. rewrite take_app_ge by lia.
    f_equal. apply take_repeat. lia.
Qed.

(** A [serialize] call, whatever the count [m_size] is: the vector is
    first grown with zeros up to the count, if it is shorter. *)
Lemma serialize_view (bs : list Z) (a : lvmoa.t) :
  within (lvmoa.serialize bs a) /\
  fit_view (lvmoa.serialize bs a) = fit_view a ++ bs /\
  lvmoa.m_size (lvmoa.serialize bs a) = (lvmoa.m_size a + length bs)%nat.
Proof.
  destruct a as [out m]. unfold within, fit_view, lvmoa.serialize.
  cbn [lvmoa.m_output lvmoa.m_size].
  assert (Hgrow : (m + length bs <= (m + length bs) * 3 / 2)%nat)
    by (apply Nat.div_le_lower_bound; lia).
  set (out' := if (length out <? m + length bs)%nat
               then vector_resize 0 ((m + length bs) * 3 / 2)%nat out else out).
  assert (Hout' : (m + length bs <= length out')%nat /\
                  firstn m out' = vector_resize 0 m out).
  { subst out'. destruct (Nat.ltb_spec (length out) (m + length bs)).
    - rewrite vector_resize_length. split; [done |]. apply take_vector_resize. lia.
    - split; [done |]. symmetry. apply vector_resize_prefix. lia. }
  destruct Hout' as [Hlen Hpre]. unfold copy_n_at.
  assert (Hsize : length (firstn m out' ++ bs ++ skipn (m + length bs) out')
                  = length out').
  { rewrite !length_app, length_take, length_drop. lia. }
  split; [lia |]. split; [| done].
  rewrite vector_resize_prefix by lia.
  rewrite app_assoc, take_app_le by (rewrite length_app, length_take; lia).
  rewrite take_ge by (rewrite length_app, length_take; lia). by rewrite Hpre.
Qed.

Lemma run_view (ws : list (list Z)) (a : lvmoa.t) :
  fit_view (run ws a) = fit_view a ++ concat ws /\
  lvmoa.m_size (run ws a) = (lvmoa.m_size a + length (concat ws))%nat.
Proof.
  revert a. induction ws as [| bs ws IH]; intros a; cbn [run fold_left concat].
  - by rewrite app_nil_r, Nat.add_0_r.
  - destruct (IH (lvmoa.serialize bs a)) as [IH1 IH2].
    destruct (serialize_view bs a) as (_ & H1 & H2). unfold run in IH1, IH2.
    rewrite IH1, IH2, H1, H2, length_app. split; [by rewrite app_assoc | lia].
Qed.

(** The top-level call from any state of the archive. *)
Lemma memory_output_archive_call_emits (host : byte_order) (sr : registry.t ty)
    (args : list (ty * value)) (o : outcome) (ws : list (list Z)) (a : lvmoa.t) :
  emits (save_call host sr args) o ws ->
  memory_output_archive_call host sr args a
  = (o, lvmoa.make (fit_view a ++ concat ws)).
Proof.
  intros Hws. unfold memory_output_archive_call. rewrite Hws.
  destruct (run_view ws a) as [H1 H2]. unfold lvmoa.fit_vector, lvmoa.make.
  fold (fit_view (run ws a)). rewrite H1, H2. f_equal. f_equal.
  unfold fit_view. by rewrite length_app, vector_resize_length.
Qed.

Section shared.

Variable host : byte_order.
Variable key_less : ty -> value -> value -> bool.
Variable unordered_insert : ty -> associative_traits -> value -> list value -> list value.
Variable saving_registry : registry.t ty.
Variable loading_registry : registry.t ty.

(** [out(items...)] when the vector is [k] bytes shorter than the output
    archive counts. *)
Lemma out_call_short (args : list (ty * value)) (o : outcome) (ws : list (list Z))
    (data : list Z) (k : nat) :
  emits (save_call host saving_registry args) o ws ->
  shared_vector.out_call host saving_registry args
    (shared_vector.mk data (length data + k))
  = (o, shared_vector.make (data ++ repeat 0 k ++ concat ws)).
Proof.
  intros Hws. unfold shared_vector.out_call.
  cbn [shared_vector.data shared_vector.out_m_size].
  rewrite (memory_output_archive_call_emits host saving_registry args o ws _ Hws).
  unfold fit_view, vector_resize. cbn [lvmoa.m_output lvmoa.m_size lvmoa.make].
  rewrite take_ge by lia. replace (length data + k - length data)%nat with k by lia.
  by rewrite <- app_assoc.
Qed.

(** X14. The output archive does not see what the input archive erases.
    With both archives on one vector, [in(...)] erases the bytes it has
    consumed from the front of the vector, while the count [m_size] of the
    output archive stays as it was. The next [out(...)] then writes at the
    old count: the vector ends up holding what was left in it, as many
    zero bytes as [in(...)] had consumed, and only then the bytes of the
    items - those that an output archive constructed on what was left
    would have written right after it. *)
Theorem out_call_after_in_call (fuel : nat) (targets : list (ty * value))
    (data : list Z) (args : list (ty * value)) :
  let s := snd (shared_vector.in_call host key_less unordered_insert loading_registry fuel targets
                  (shared_vector.make data)) in
  exists consumed o w,
    data = consumed ++ shared_vector.data s /\
    shared_vector.out_call host saving_registry args
      (shared_vector.make (shared_vector.data s))
    = (o, shared_vector.make (shared_vector.data s ++ w)) /\
    shared_vector.out_call host saving_registry args s
    = (o, shared_vector.make
            (shared_vector.data s ++ repeat 0 (length consumed) ++ w)).
Proof.
  cbv zeta. unfold shared_vector.in_call, memory_input_archive_call.
  cbn [shared_vector.data shared_vector.out_m_size shared_vector.make
       memory_input_archive_make mia_input].
  pose proof (load_call_advances host key_less unordered_insert loading_registry fuel targets
                (mvia.make data)) as (Hsame & _ & Hin).
  destruct (load_call host key_less unordered_insert loading_registry fuel targets (mvia.make data))
    as [[o1 xs] view'].
  cbn [snd shared_vector.data mvia.make mvia.m_input mvia.m_offset mvia.get_offset] in *.
  unfold mvia.m_size in Hin. rewrite Hsame in Hin. specialize (Hin ltac:(lia)).
  destruct (save_call_emits host saving_registry args) as (o & ws & Hws).
  exists (firstn (mvia.m_offset view') data), o, (concat ws).
  unfold vector_erase_front, mvia.get_offset. split; [symmetry; apply take_drop |]. split.
  - pose proof (out_call_short args o ws (skipn (mvia.m_offset view') data) 0 Hws) as H.
    rewrite Nat.add_0_r in H. exact H.
  - pose proof (out_call_short args o ws (skipn (mvia.m_offset view') data)
                  (mvia.m_offset view') Hws) as H.
    rewrite length_drop in H.
    replace (length data - mvia.m_offset view' + mvia.m_offset view')%nat
      with (length data) in H by lia.
    rewrite length_take, Nat.min_l by lia. exact H.
Qed.

End shared.

(** [foo()] of [examples/archive.cpp], continued: after [out(point(1337,
    1338))] and [in(my_point)], a second [out(point(1, 2))] leaves eight
    zero bytes before the point, and a second [in(my_point)] loads
    [point(0, 0)]. *)
Example stale_count_after_round_trip :
  let p1 := object example.point [scalar 1337; scalar 1338] in
  let p2 := object example.point [scalar 1; scalar 2] in
  let out := shared_vector.out_call little_endian registry.empty in
  let in_ := shared_vector.in_call little_endian example.less example.link_front registry.empty 3 in
  let s1 := snd (out [(example.point, p1)] (shared_vector.make [])) in
  let s2 := snd (in_ [(example.point, default example.point)] s1) in
  let s3 := snd (out [(example.point, p2)] s2) in
  shared_vector.data s1 = [57; 5; 0; 0; 58; 5; 0; 0] /\
  in_ [(example.point, default example.point)] s1
  = (normal, [p1], shared_vector.mk [] 8) /\
  shared_vector.data s3 = [0; 0; 0; 0; 0; 0; 0; 0; 1; 0; 0; 0; 2; 0; 0; 0] /\
  fst (in_ [(example.point, default example.point)] s3)
  = (normal, [object example.point [scalar 0; scalar 0]]).
Proof. by vm_compute. Qed.

(** ** First in, first out *)

Section fifo.

Variable host : byte_order.
Variable key_less : ty -> value -> value -> bool.
Variable unordered_insert : ty -> associative_traits -> value -> list value -> list value.
Variable saving_registry : registry.t ty.
Variable loading_registry : registry.t ty.

(** [out(item)] for each item, in order, up to the first that throws. *)
Fixpoint out_each (args : list (ty * value)) (s : shared_vector.t)
    : outcome * shared_vector.t :=
  match args with
  | [] => (normal, s)
  | arg :: args' =>
      match shared_vector.out_call host saving_registry [arg] s with
      | (normal, s') => out_each args' s'
      | r => r
      end
  end.

(** [in(item)] for a value-initialised item of each type, in order, up to
    the first that throws. *)
Fixpoint in_each (fuel : nat) (ts : list ty) (s : shared_vector.t)
    : outcome * list value * shared_vector.t :=
  match ts with
  | [] => (normal, [], s)
  | t :: ts' =>
      match shared_vector.in_call host key_less unordered_insert loading_registry fuel [(t, default t)] s with
      | (normal, xs, s') =>
          let '(o, xs', s'') := in_each fuel ts' s' in (o, xs ++ xs', s'')
      | r => r
      end
  end.

Lemma out_call_single (t : ty) (v : value) (w data : list Z) :
  appends (save host saving_registry t v) normal w ->
  shared_vector.out_call host saving_registry [(t, v)] (shared_vector.make data)
  = (normal, shared_vector.make (data ++ w)).
Proof.
  intros A. unfold shared_vector.out_call, shared_vector.make.
  cbn [shared_vector.data shared_vector.out_m_size].
  change (lvmoa.mk data (length data)) with (lvmoa.make data).
  by rewrite (memory_output_archive_call_single host saving_registry t v normal w data A).
Qed.

Lemma in_call_single (fuel m : nat) (t : ty) (v : value) (w rest : list Z) :
  reads (load host key_less unordered_insert loading_registry fuel t (default t)) w v ->
  shared_vector.in_call host key_less unordered_insert loading_registry fuel [(t, default t)]
    (shared_vector.mk (w ++ rest) m)
  = (normal, [v], shared_vector.mk rest m).
Proof.
  intros R. unfold shared_vector.in_call. cbn [shared_vector.data shared_vector.out_m_size].
  by rewrite (memory_input_archive_call_single host key_less unordered_insert loading_registry fuel t v
                (default t) w rest R).
Qed.


End fifo.


(** * Further properties of the integer helpers and of the identifier *)

(** ** [swap_byte_order] reverses the bytes *)

Lemma nth_rev_le_bytes (n k : nat) (x : Z) :
  (k < n)%nat ->
  nth k (rev (le_bytes n x)) 0 = (Z.shiftr x (8 * Z.of_nat (n - 1 - k))) mod 2 ^ 8.
Proof. apply nth_be_bytes. Qed.

Local Ltac byte_of_swapped bits_lemma :=
  rewrite nth_le_bytes, nth_rev_le_bytes by lia;
  cbn [Nat.sub Nat.mul Nat.add Z.of_nat Pos.of_succ_nat Pos.succ Z.mul Pos.mul Pos.add];
  apply Z.bits_inj'; intros ?i ?Hi; bits_of_ops; rewrite bits_lemma; bits_cases.

(** X16. [detail::swap_byte_order] reverses the bytes of its argument, for
    the three widths it has an overload for; applied twice it gives the
    argument back. *)
Theorem swap_byte_order_reverses (x : Z) :
  le_bytes 2 (swap_byte_order16 x) = rev (le_bytes 2 x) /\
  le_bytes 4 (swap_byte_order32 x) = rev (le_bytes 4 x) /\
  le_bytes 8 (swap_byte_order64 x) = rev (le_bytes 8 x) /\
  swap_byte_order16 (swap_byte_order16 x) = u16 x /\
  swap_byte_order32 (swap_byte_order32 x) = u32 x /\
  swap_byte_order64 (swap_byte_order64 x) = u64 x.
Proof.
  split; [| split; [| split; [| split; [| split]]]].
  - apply (nth_ext _ _ 0 0); [by rewrite length_rev, !length_le_bytes |].
    rewrite length_le_bytes. intros k Hk.
    destruct k as [| [| k]]; [| | lia]; byte_of_swapped swap_byte_order16_bits.
  - apply (nth_ext _ _ 0 0); [by rewrite length_rev, !length_le_bytes |].
    rewrite length_le_bytes. intros k Hk.
    destruct k as [| [| [| [| k]]]]; [| | | | lia]; byte_of_swapped swap_byte_order32_bits.
  - apply (nth_ext _ _ 0 0); [by rewrite length_rev, !length_le_bytes |].
    rewrite length_le_bytes. intros k Hk.
    destruct k as [| [| [| [| [| [| [| [| k]]]]]]]]; [| | | | | | | | lia];
      byte_of_swapped swap_byte_order64_bits.
  - apply Z.bits_inj'. intros i Hi. rewrite !swap_byte_order16_bits.
    unfold u16. bits_of_ops. bits_cases.
  - apply swap_byte_order32_involutive.
  - apply Z.bits_inj'. intros i Hi. rewrite !swap_byte_order64_bits.
    unfold u64. bits_of_ops. bits_cases.
Qed.

(** ** [rotate_left] rotates *)

(** X17. [detail::rotate_left] on a 32-bit number, for a count between 0
    and 32: bit [i] of the result is bit [i - count] of the number, counted
    modulo 32; rotating on by what is left of the 32 bits gives the number
    back. *)
Theorem rotate_left_rotates (x n : Z) :
  in_u32 x -> 0 < n < 32 ->
  in_u32 (rotate_left x n) /\
  (forall i, 0 <= i < 32 ->
     Z.testbit (rotate_left x n) i = Z.testbit x ((i - n) mod 32)) /\
  rotate_left (rotate_left x n) (32 - n) = x.
Proof.
  intros Hx Hn.
  assert (Hbits : forall i, 0 <= i ->
            Z.testbit (rotate_left x n) i
            = (i <? 32) && Z.testbit x ((i - n) mod 32)).
  { intros i Hi. unfold rotate_left, u32. bits_of_ops.
    destruct (Z.ltb_spec i 32) as [Hlt | Hge]; cbn [andb].
    - destruct (Z.leb_spec n i) as [Hle | Hgt]; cbn [andb orb].
      + rewrite (in_u32_high x (i + (4 * 8 - n))) by (done || lia).
        rewrite andb_false_r, orb_false_r. apply testbit_index.
        symmetry. apply Z.mod_small. lia.
      + destruct (Z.leb_spec 0 i); [| lia]. cbn [andb]. apply testbit_index.
        apply (Z.mod_unique _ _ (-1)); lia.
    - rewrite (in_u32_high x (i + (4 * 8 - n))) by (done || lia).
      by rewrite andb_false_r. }
  assert (Hrange : in_u32 (rotate_left x n)).
  { apply in_u32_bits.
    - unfold rotate_left, u32. apply Z.lor_nonneg. split.
      + apply Z.mod_pos_bound. lia.
      + apply Z.shiftr_nonneg. unfold in_u32 in Hx. lia.
    - intros i Hi. rewrite Hbits by lia. destruct (Z.ltb_spec i 32); [lia | done]. }
  split; [exact Hrange |]. split.
  - intros i Hi. rewrite Hbits by lia. destruct (Z.ltb_spec i 32); [done | lia].
  - apply Z.bits_inj'. intros i Hi. unfold rotate_left at 1. unfold u32. bits_of_ops.
    destruct (Z.ltb_spec i 32) as [Hlt | Hge]; cbn [andb].
    + destruct (Z.leb_spec (32 - n) i) as [Hle | Hgt]; cbn [andb orb].
      * rewrite Hbits by lia. destruct (Z.ltb_spec (i - (32 - n)) 32); [| lia].
        rewrite (in_u32_high _ (i + (4 * 8 - (32 - n)))) by (done || lia).
        rewrite andb_false_r, orb_false_r. cbn [andb]. apply testbit_index.
        symmetry. apply (Z.mod_unique _ _ (-1)); lia.
      * destruct (Z.leb_spec 0 i); [| lia]. cbn [andb]. rewrite Hbits by lia.
        destruct (Z.ltb_spec (i + (4 * 8 - (32 - n))) 32); [| lia].
        cbn [andb]. apply testbit_index.
        symmetry. apply (Z.mod_unique _ _ 0); lia.
    + rewrite (in_u32_high _ (i + (4 * 8 - (32 - n)))) by (done || lia).
      rewrite andb_false_r. cbn [orb]. symmetry. by apply in_u32_high.
Qed.

Lemma rotate_left_rotates_witness :
  rotate_left (rotate_left 0x80000001 5) (32 - 5) = 0x80000001.
Proof.
  refine (proj2 (proj2 (rotate_left_rotates 0x80000001 5 _ _))).
  - unfold in_u32. lia.
  - lia.
Defined.

(** ** The identifier where plain [char] is unsigned *)

Lemma ascii_bytes_bytes (name : string) : Forall is_byte (ascii_bytes name).
Proof.
  unfold ascii_bytes. apply Forall_forall. intros b Hb.
  apply list_elem_of_In, in_map_iff in Hb as (c & <- & _).
  pose proof (N_ascii_bounded c). unfold is_byte. lia.
Qed.

(** X18. Where plain [char] is unsigned, [make_id] is the SHA-1 prefix for
    every name, ASCII or not: the value [(h0 << 32) | h1] of the final
    state of SHA-1 on the bytes of the name, with its bytes swapped; its
    eight bytes, least significant first, are the first eight bytes of the
    digest. *)
Theorem make_id_unsigned_char (name : string) :
  let '(h0, h1, _, _, _) := SHA1.final_state (ascii_bytes name) in
  make_id false name = swap_byte_order64 (Z.lor (Z.shiftl h0 32) h1) /\
  le_bytes 8 (make_id false name) = firstn 8 (SHA1.digest (ascii_bytes name)).
Proof.
  unfold make_id. cbv zeta. change (literal_chars false name) with (ascii_bytes name).
  destruct (make_id_state (ascii_bytes name) (ascii_bytes_bytes name)) as [E Hs].
  unfold make_id_impl.hash_state, SHA1.state in *. rewrite E. unfold SHA1.digest.
  destruct (SHA1.final_state (ascii_bytes name)) as [[[[h0 h1] h2] h3] h4].
  destruct Hs as (H0 & H1 & _). rewrite shift_high_word by done.
  split; [reflexivity |]. rewrite le_bytes_swap_byte_order64 by done.
  rewrite (app_assoc (SHA1.be_bytes 4 h0)).
  rewrite take_app_length'; [done |]. by rewrite length_app, !length_be_bytes.
Qed.

(** Where plain [char] is signed, a character above 127 is sign-extended
    by [std::uint32_t(name[i])] and the identifier of such a name can be
    another one: here for the two characters 97 and 200. *)
Example make_id_signed_char :
  make_id true (String "a" (String (ascii_of_nat 200) ""))
  <> make_id false (String "a" (String (ascii_of_nat 200) "")).
Proof. vm_compute. discriminate. Qed.

(** * Which exceptions a call can throw *)

(** How a save can end. *)
Definition save_outcome (o : outcome) : Prop :=
  match o with
  | thrown out_of_range | thrown polymorphic_type_mismatch_error | out_of_fuel => False
  | _ => True
  end.

(** How a load can end. *)
Definition load_outcome (o : outcome) : Prop :=
  match o with
  | thrown attempt_to_serialize_null_pointer_error | thrown bad_cast => False
  | _ => True
  end.

Section outcomes.

Variable host : byte_order.
Variable key_less : ty -> value -> value -> bool.
Variable unordered_insert : ty -> associative_traits -> value -> list value -> list value.
Variable saving_registry : registry.t ty.
Variable loading_registry : registry.t ty.

Local Abbreviation sv := (save host saving_registry).
Local Abbreviation ld := (load host key_less unordered_insert loading_registry).

Lemma save_each_outcome (f : value -> lvmoa.t -> outcome * lvmoa.t) (vs : list value) :
  Forall (fun v => forall a, save_outcome (fst (f v a))) vs ->
  forall a, save_outcome (fst (save_each f vs a)).
Proof.
  induction 1 as [| v vs Hv _ IH]; intros a; cbn [save_each]; [done |].
  specialize (Hv a). destruct (f v a) as [o a1]. destruct o; try done; apply IH.
Qed.

Lemma save_items_outcome (f : ty -> value -> lvmoa.t -> outcome * lvmoa.t) (vs : list value) :
  Forall (fun v => forall t a, save_outcome (fst (f t v a))) vs ->
  forall ts a,
    save_outcome (fst (save_items f ts vs a)) /\
    save_outcome (fst (save_members f ts vs a)).
Proof.
  induction 1 as [| v vs Hv _ IH]; intros [| t ts] a; cbn [save_items save_members];
    try done.
  specialize (Hv t a). destruct (f t v a) as [o a1]. destruct o; try done; apply IH.
Qed.

Lemma save_outcomes (v : value) : forall t a, save_outcome (fst (sv t v a)).
Proof.
  induction v as [x | vs IH | | obj IH | dyn mvs IH] using value_ind'; intros t a.
  - by destruct t.
  - assert (Heach : forall e a, save_outcome (fst (save_each (sv e) vs a))).
    { intros e. apply save_each_outcome. eapply Forall_impl; [exact IH |].
      intros v Hv. apply Hv. }
    pose proof (save_items_outcome sv vs IH) as Hitems.
    destruct t as [n | n | c e | c e | c e | k n e | t1 t2 | ts | k type | name bases ms];
      try done; cbn [save].
    + destruct (select_resizable saving c e) as [[|] |];
        [destruct (lvalue_items c); [apply Heach | done] | | done].
      destruct (size_type (Z.of_nat (length vs)) =? 0); [done |].
      by destruct (storage_bytes host (sizeof e) vs).
    + apply Heach.
    + apply Heach.
    + destruct (length vs =? n)%nat; [apply Heach | done].
    + apply Hitems.
    + apply Hitems.
  - by destruct t.
  - destruct t as [n | n | c e | c e | c e | k n e | t1 t2 | ts | k type | name bases ms];
      try done; cbn [save].
    destruct (is_base_of polymorphic type); [| apply IH].
    destruct obj as [x | vs | p | dyn mvs]; try done.
    destruct (class_name dyn) as [info |]; [| done].
    destruct (registry.m_type_information_to_serialization_id saving_registry !! info)
      as [id |]; [| done].
    destruct (registry.m_serialization_id_to_method saving_registry !! id)
      as [method_type |]; [| done].
    destruct (dynamic_cast_ok method_type (object dyn mvs)); [apply IH | done].
  - destruct t as [n | n | c e | c e | c e | k n e | t1 t2 | ts | k type | name bases ms];
      try done; cbn [save].
    apply (save_items_outcome sv mvs IH ms a).
Qed.

Lemma load_scalar_outcome (n : nat) (target : value) (a : mvia.t) :
  fst (fst (load_scalar host n target a)) = normal \/
  fst (fst (load_scalar host n target a)) = thrown out_of_range.
Proof.
  unfold load_scalar, mvia.serialize.
  destruct (mvia.m_size a <? n + mvia.m_offset a)%nat; cbn; auto.
Qed.

Lemma load_each_outcome (f : value -> mvia.t -> load_result) (targets : list value) :
  (forall x a, load_outcome (fst (fst (f x a)))) ->
  forall a, load_outcome (fst (fst (load_each f targets a))).
Proof.
  intros Hf. induction targets as [| x xs IH]; intros a; cbn [load_each]; [done |].
  specialize (Hf x a). destruct (f x a) as [[o x'] a1]. destruct o; try done.
  specialize (IH a1). by destruct (load_each f xs a1) as [[o2 xs'] a2].
Qed.

Lemma load_items_outcome (f : ty -> value -> mvia.t -> load_result) (targets : list value) :
  (forall t x a, load_outcome (fst (fst (f t x a)))) ->
  forall ts a,
    load_outcome (fst (fst (load_items f ts targets a))) /\
    load_outcome (fst (fst (load_members f ts targets a))).
Proof.
  intros Hf. induction targets as [| x xs IH]; intros [| t ts] a;
    cbn [load_items load_members]; try done.
  specialize (Hf t x a). destruct (f t x a) as [[o x'] a1]. destruct o; try done.
  destruct (IH ts a1) as [IH1 IH2].
  destruct (load_items f ts xs a1) as [[o2 xs'] a2].
  by destruct (load_members f ts xs a1) as [[o3 xs''] a3].
Qed.

Lemma load_inserting_outcome (load_item : mvia.t -> load_result)
    (insert_item : value -> list value -> list value) (count : nat) :
  (forall a, load_outcome (fst (fst (load_item a)))) ->
  forall container a,
    load_outcome (fst (fst (load_inserting load_item insert_item count container a))).
Proof.
  intros Hf. induction count as [| count IH]; intros container a; cbn [load_inserting];
    [done |].
  specialize (Hf a). destruct (load_item a) as [[o x'] a1]. destruct o; try done; apply IH.
Qed.

Lemma load_new_object_outcome (f : ty -> value -> mvia.t -> load_result)
    (type : ty) (object : option value) (a : mvia.t) :
  (forall t x a, load_outcome (fst (fst (f t x a)))) ->
  load_outcome (hl_outcome (load_new_object f type object a)).
Proof.
  intros Hf. unfold load_new_object. specialize (Hf type (default type) a).
  destruct (f type (default type) a) as [[o x'] a1]. by destruct o.
Qed.

Lemma registry_load_outcome (f : ty -> value -> mvia.t -> load_result)
    (object : option value) (a : mvia.t) :
  (forall t x a, load_outcome (fst (fst (f t x a)))) ->
  load_outcome (hl_outcome (registry_load host loading_registry f object a)).
Proof.
  intros Hf. unfold registry_load.
  pose proof (load_scalar_outcome 8 (scalar 0) a) as H.
  destruct (load_scalar host 8 (scalar 0) a) as [[o v] a1]. cbn [fst] in H.
  destruct H as [-> | ->]; [| done]. destruct v as [id | | |]; try done.
  destruct (registry.m_serialization_id_to_method loading_registry !! id); [| done].
  by apply load_new_object_outcome.
Qed.

Lemma load_polymorphic_outcome (f : ty -> value -> mvia.t -> load_result)
    (type : ty) (object : option value) (a : mvia.t) :
  (forall t x a, load_outcome (fst (fst (f t x a)))) ->
  load_outcome (hl_outcome (load_polymorphic host loading_registry f type object a)).
Proof.
  intros Hf. unfold load_polymorphic.
  pose proof (registry_load_outcome f None a Hf) as H.
  destruct (registry_load host loading_registry f None a) as [o obj destroyed a1].
  cbn [hl_outcome hl_object hl_destroyed hl_archive] in *.
  destruct o; try done. destruct obj as [loaded |]; [| done].
  by destruct (dynamic_cast_ok type loaded).
Qed.

Lemma load_outcomes (fuel : nat) :
  forall t target a, load_outcome (fst (fst (ld fuel t target a))).
Proof.
  induction fuel as [| fuel IH]; intros t target a; cbn [load]; [done |].
  destruct t as [n | n | c e | c e | c e | k n e | t1 t2 | ts | k type | name bases ms];
    destruct target as [x | xs | p | dyn mvs]; try done.
  - by destruct (load_scalar_outcome n (scalar x) a) as [-> | ->].
  - by destruct (load_scalar_outcome n (scalar x) a) as [-> | ->].
  - destruct (select_resizable loading c e) as [[|] |];
      [destruct (lvalue_items c); [| done] | | done];
      pose proof (load_scalar_outcome 4 (scalar 0) a) as H;
      destruct (load_scalar host 4 (scalar 0) a) as [[o v] a1]; cbn [fst] in H;
      (destruct H as [-> | ->]; [| done]); destruct v as [size | | |]; try done.
    + pose proof (load_each_outcome (ld fuel e)
                    (vector_resize (default e) (Z.to_nat size) xs) (IH e) a1) as H.
      by destruct (load_each _ _ a1) as [[o2 xs'] a2].
    + destruct (size =? 0); [done |]. destruct (storage_bytes _ _ _); [| done].
      unfold mvia.serialize_binary, mvia.serialize.
      by destruct (mvia.m_size a1 <? _ + mvia.m_offset a1)%nat.
  - pose proof (load_scalar_outcome 4 (scalar 0) a) as H.
    destruct (load_scalar host 4 (scalar 0) a) as [[o v] a1]; cbn [fst] in H.
    destruct H as [-> | ->]; [| done]. destruct v as [size | | |]; try done.
    pose proof (load_inserting_outcome (ld fuel e (default e))
                  (container_insert (key_less e) c) (Z.to_nat size)
                  (IH e (default e)) xs a1) as H.
    by destruct (load_inserting _ _ _ _ a1) as [[o2 xs'] a2].
  - pose proof (load_scalar_outcome 4 (scalar 0) a) as H.
    destruct (load_scalar host 4 (scalar 0) a) as [[o v] a1]; cbn [fst] in H.
    destruct H as [-> | ->]; [| done]. destruct v as [size | | |]; try done.
    pose proof (load_inserting_outcome (ld fuel e (default e))
                  (unordered_insert e c) (Z.to_nat size)
                  (IH e (default e)) xs a1) as H.
    by destruct (load_inserting _ _ _ _ a1) as [[o2 xs'] a2].
  - destruct (length xs =? n)%nat; [| done].
    pose proof (load_each_outcome (ld fuel e) xs (IH e) a) as H.
    by destruct (load_each _ _ a) as [[o2 xs'] a2].
  - destruct (load_items_outcome (ld fuel) xs IH [t1; t2] a) as [H _].
    by destruct (load_items _ _ _ a) as [[o2 xs'] a2].
  - destruct (load_items_outcome (ld fuel) xs IH ts a) as [H _].
    by destruct (load_items _ _ _ a) as [[o2 xs'] a2].
  - cbn [fst]. destruct (is_base_of polymorphic type).
    + by apply load_polymorphic_outcome.
    + by apply load_new_object_outcome.
  - destruct (load_items_outcome (ld fuel) mvs IH ms a) as [_ H].
    by destruct (load_members _ _ _ a) as [[o2 xs'] a2].
Qed.

(** X19. The exceptions of the two directions (a failed allocation
    apart, which the model does not have). A call of
    [memory_output_archive] throws nothing but
    [attempt_to_serialize_null_pointer_error],
    [undeclared_polymorphic_type_error] and [std::bad_cast]; a call of
    [memory_input_archive] throws nothing but [out_of_range],
    [undeclared_polymorphic_type_error] and
    [polymorphic_type_mismatch_error]. *)
Theorem exceptions_of_calls (args : list (ty * value)) :
  (forall a e,
     fst (memory_output_archive_call host saving_registry args a) = thrown e ->
     e = attempt_to_serialize_null_pointer_error \/
     e = undeclared_polymorphic_type_error \/ e = bad_cast) /\
  (forall fuel a e,
     fst (fst (memory_input_archive_call host key_less unordered_insert loading_registry fuel args a))
     = thrown e ->
     e = out_of_range \/ e = undeclared_polymorphic_type_error \/
     e = polymorphic_type_mismatch_error).
Proof.
  split.
  - intros a e. unfold memory_output_archive_call, save_call.
    assert (H : save_outcome (fst (save_items sv (map fst args) (map snd args) a))).
    { apply save_items_outcome, Forall_forall. intros v _. apply save_outcomes. }
    destruct (save_items sv (map fst args) (map snd args) a) as [o a1]. cbn [fst] in *.
    intros ->. destruct e; try done; auto.
  - intros fuel a e. unfold memory_input_archive_call, load_call.
    destruct (load_items_outcome (ld fuel) (map snd args) (load_outcomes fuel)
                (map fst args) (mvia.make (mia_input a))) as [H _].
    destruct (load_items _ _ _ _) as [[o xs] a1]. cbn [fst] in *.
    intros ->. destruct e; try done; auto.
Qed.

End outcomes.

(** * Loading does not depend on where the bytes lie *)

(** [f] does the same from offset [off] of a buffer as from the offset
    [off - base] of the buffer without its first [base] bytes, and stays
    within the buffer. *)
Definition shifts {A : Type} (f : mvia.t -> outcome * A * mvia.t) : Prop :=
  forall input off, (off <= length input)%nat ->
    exists o x off',
      (off <= off' <= length input)%nat /\
      forall base, (base <= off)%nat ->
        f (mvia.mk (skipn base input) (off - base))
        = (o, x, mvia.mk (skipn base input) (off' - base)).

(** The same, for the loading of a handle. *)
Definition shifts_handle (f : mvia.t -> handle_load) : Prop :=
  forall input off, (off <= length input)%nat ->
    exists o obj destroyed off',
      (off <= off' <= length input)%nat /\
      forall base, (base <= off)%nat ->
        f (mvia.mk (skipn base input) (off - base))
        = {| hl_outcome := o; hl_object := obj; hl_destroyed := destroyed;
             hl_archive := mvia.mk (skipn base input) (off' - base) |}.

Lemma shifts_ret {A : Type} (o : outcome) (x : A) : shifts (fun a => (o, x, a)).
Proof. intros input off Hoff. exists o, x, off. split; [lia | done]. Qed.

Lemma serialize_shift (n : nat) (input : list Z) (off base : nat) :
  (base <= off <= length input)%nat ->
  mvia.serialize n (mvia.mk (skipn base input) (off - base))
  = if (length input <? n + off)%nat
    then (inl out_of_range, mvia.mk (skipn base input) (off - base))
    else (inr (firstn n (skipn off input)),
          mvia.mk (skipn base input) (off + n - base)).
Proof.
  intros Hoff. unfold mvia.serialize, mvia.m_size. cbn [mvia.m_input mvia.m_offset].
  rewrite length_drop.
  destruct (Nat.ltb_spec (length input) (n + off)),
           (Nat.ltb_spec (length input - base) (n + (off - base))); try lia; [done |].
  rewrite drop_drop. replace (base + (off - base))%nat with off by lia.
  by replace (off - base + n)%nat with (off + n - base)%nat by lia.
Qed.

Section shift.

Variable host : byte_order.
Variable key_less : ty -> value -> value -> bool.
Variable unordered_insert : ty -> associative_traits -> value -> list value -> list value.
Variable loading_registry : registry.t ty.

Local Abbreviation ld := (load host key_less unordered_insert loading_registry).

Lemma load_scalar_shifts (n : nat) (target : value) :
  shifts (load_scalar host n target).
Proof.
  intros input off Hoff. unfold load_scalar.
  destruct (Nat.ltb_spec (length input) (n + off)) as [Hshort | Hlong].
  - exists (thrown out_of_range), target, off. split; [lia |]. intros base Hbase.
    rewrite serialize_shift by lia.
    by destruct (Nat.ltb_spec (length input) (n + off)); [| lia].
  - exists normal, (scalar (object_value host (firstn n (skipn off input)))), (off + n)%nat.
    split; [lia |]. intros base Hbase. rewrite serialize_shift by lia.
    by destruct (Nat.ltb_spec (length input) (n + off)); [lia |].
Qed.

Lemma load_each_shifts (f : value -> mvia.t -> load_result) (targets : list value) :
  (forall x, shifts (f x)) -> shifts (load_each f targets).
Proof.
  intros Hf. induction targets as [| x xs IH]; [apply shifts_ret |].
  intros input off Hoff. destruct (Hf x input off Hoff) as (o & x' & off1 & Hb1 & E1).
  destruct (decide (o = normal)) as [-> | Hne].
  - destruct (IH input off1 ltac:(lia)) as (o2 & xs' & off2 & Hb2 & E2).
    exists o2, (x' :: xs'), off2. split; [lia |]. intros base Hbase.
    cbn [load_each]. by rewrite E1, E2 by lia.
  - exists o, (x' :: xs), off1. split; [lia |]. intros base Hbase.
    cbn [load_each]. rewrite E1 by lia. by destruct o.
Qed.

Lemma load_items_shifts (f : ty -> value -> mvia.t -> load_result) (targets : list value) :
  (forall t x, shifts (f t x)) ->
  forall ts, shifts (load_items f ts targets) /\ shifts (load_members f ts targets).
Proof.
  intros Hf. induction targets as [| x xs IH]; intros [| t ts];
    try (split; apply shifts_ret).
  destruct (IH ts) as [IH1 IH2].
  split; intros input off Hoff;
    destruct (Hf t x input off Hoff) as (o & x' & off1 & Hb1 & E1);
    (destruct (decide (o = normal)) as [-> | Hne];
     [| exists o, (x' :: xs), off1; split; [lia |]; intros base Hbase;
        cbn [load_items load_members]; rewrite E1 by lia; by destruct o]).
  - destruct (IH1 input off1 ltac:(lia)) as (o2 & xs' & off2 & Hb2 & E2).
    exists o2, (x' :: xs'), off2. split; [lia |]. intros base Hbase.
    cbn [load_items]. by rewrite E1, E2 by lia.
  - destruct (IH2 input off1 ltac:(lia)) as (o2 & xs' & off2 & Hb2 & E2).
    exists o2, (x' :: xs'), off2. split; [lia |]. intros base Hbase.
    cbn [load_members]. by rewrite E1, E2 by lia.
Qed.

Lemma load_inserting_shifts (load_item : mvia.t -> load_result)
    (insert_item : value -> list value -> list value) (count : nat) :
  shifts load_item ->
  forall container, shifts (load_inserting load_item insert_item count container).
Proof.
  intros Hf. induction count as [| count IH]; intros container; [apply shifts_ret |].
  intros input off Hoff. destruct (Hf input off Hoff) as (o & x' & off1 & Hb1 & E1).
  destruct (decide (o = normal)) as [-> | Hne].
  - destruct (IH (insert_item x' container) input off1 ltac:(lia))
      as (o2 & xs' & off2 & Hb2 & E2).
    exists o2, xs', off2. split; [lia |]. intros base Hbase.
    cbn [load_inserting]. by rewrite E1, E2 by lia.
  - exists o, container, off1. split; [lia |]. intros base Hbase.
    cbn [load_inserting]. rewrite E1 by lia. by destruct o.
Qed.

Lemma load_new_object_shifts (f : ty -> value -> mvia.t -> load_result)
    (type : ty) (object : option value) :
  (forall t x, shifts (f t x)) -> shifts_handle (load_new_object f type object).
Proof.
  intros Hf input off Hoff.
  destruct (Hf type (default type) input off Hoff) as (o & x' & off1 & Hb1 & E1).
  destruct (decide (o = normal)) as [-> | Hne].
  - exists normal, (Some x'), (option_list object), off1. split; [lia |].
    intros base Hbase. unfold load_new_object. by rewrite E1 by lia.
  - exists o, object, [x'], off1. split; [lia |].
    intros base Hbase. unfold load_new_object. rewrite E1 by lia. by destruct o.
Qed.

Lemma registry_load_shifts (f : ty -> value -> mvia.t -> load_result)
    (object : option value) :
  (forall t x, shifts (f t x)) ->
  shifts_handle (registry_load host loading_registry f object).
Proof.
  intros Hf input off Hoff.
  destruct (load_scalar_shifts 8 (scalar 0) input off Hoff) as (o & v & off1 & Hb1 & E1).
  assert (Hstop : forall o', o' <> normal \/ (forall id, v <> scalar id) ->
            (forall base, (base <= off)%nat ->
               registry_load host loading_registry f object
                 (mvia.mk (skipn base input) (off - base))
               = {| hl_outcome := o'; hl_object := object; hl_destroyed := [];
                    hl_archive := mvia.mk (skipn base input) (off1 - base) |}) ->
            exists o obj destroyed off',
              (off <= off' <= length input)%nat /\
              forall base, (base <= off)%nat ->
                registry_load host loading_registry f object
                  (mvia.mk (skipn base input) (off - base))
                = {| hl_outcome := o; hl_object := obj; hl_destroyed := destroyed;
                     hl_archive := mvia.mk (skipn base input) (off' - base) |}).
  { intros o' _ H. exists o', object, [], off1. split; [lia | exact H]. }
  destruct (decide (o = normal)) as [-> | Hne].
  - destruct v as [id | vs | p | dyn mvs].
    + destruct (registry.m_serialization_id_to_method loading_registry !! id)
        as [method_type |] eqn:Hid.
      * destruct (load_new_object_shifts f method_type object Hf input off1 ltac:(lia))
          as (o2 & obj & destroyed & off2 & Hb2 & E2).
        exists o2, obj, destroyed, off2. split; [lia |]. intros base Hbase.
        unfold registry_load. rewrite E1, Hid by lia. apply E2. lia.
      * apply (Hstop (thrown undeclared_polymorphic_type_error)); [by left |].
        intros base Hbase. unfold registry_load. by rewrite E1, Hid by lia.
    + apply (Hstop normal); [by right |].
      intros base Hbase. unfold registry_load. by rewrite E1 by lia.
    + apply (Hstop normal); [by right |].
      intros base Hbase. unfold registry_load. by rewrite E1 by lia.
    + apply (Hstop normal); [by right |].
      intros base Hbase. unfold registry_load. by rewrite E1 by lia.
  - apply (Hstop o); [by left |].
    intros base Hbase. unfold registry_load. rewrite E1 by lia. by destruct o.
Qed.

Lemma load_polymorphic_shifts (f : ty -> value -> mvia.t -> load_result)
    (type : ty) (object : option value) :
  (forall t x, shifts (f t x)) ->
  shifts_handle (load_polymorphic host loading_registry f type object).
Proof.
  intros Hf input off Hoff.
  destruct (registry_load_shifts f None Hf input off Hoff)
    as (o & obj & destroyed & off1 & Hb1 & E1).
  eexists _, _, _, off1. split; [lia |]. intros base Hbase.
  unfold load_polymorphic. rewrite E1 by lia.
  cbn [hl_outcome hl_object hl_destroyed hl_archive].
  instantiate (1 := hl_destroyed
    (load_polymorphic host loading_registry f type object (mvia.mk input off))).
  instantiate (1 := hl_object
    (load_polymorphic host loading_registry f type object (mvia.mk input off))).
  instantiate (1 := hl_outcome
    (load_polymorphic host loading_registry f type object (mvia.mk input off))).
  unfold load_polymorphic. pose proof (E1 0%nat ltac:(lia)) as E0.
  rewrite drop_0, Nat.sub_0_r in E0. rewrite E0.
  cbn [hl_outcome hl_object hl_destroyed hl_archive].
  destruct o; try done. destruct obj as [loaded |]; [| done].
  by destruct (dynamic_cast_ok type loaded).
Qed.

End shift.

Section shift_of_load.

Variable host : byte_order.
Variable key_less : ty -> value -> value -> bool.
Variable unordered_insert : ty -> associative_traits -> value -> list value -> list value.
Variable loading_registry : registry.t ty.

Local Abbreviation ld := (load host key_less unordered_insert loading_registry).

(** A wrapper that turns the list a loop returns into a value. *)
Lemma shifts_wrapped (g : mvia.t -> outcome * list value * mvia.t)
    (k : list value -> value) (f : mvia.t -> load_result) :
  shifts g ->
  (forall a, f a = let '(o, xs, a') := g a in (o, k xs, a')) ->
  shifts f.
Proof.
  intros Hg Hf input off Hoff. destruct (Hg input off Hoff) as (o & xs & off1 & Hb & E).
  exists o, (k xs), off1. split; [lia |]. intros base Hbase. by rewrite Hf, E.
Qed.

(** After the length prefix. *)
Lemma shifts_prefixed (target : value) (g : Z -> mvia.t -> load_result)
    (f : mvia.t -> load_result) :
  (forall size, shifts (g size)) ->
  (forall a, f a = match load_scalar host 4 (scalar 0) a with
                   | (normal, scalar size, a1) => g size a1
                   | (o, _, a1) => (o, target, a1)
                   end) ->
  shifts f.
Proof.
  intros Hg Hf input off Hoff.
  destruct (load_scalar_shifts host 4 (scalar 0) input off Hoff)
    as (o & v & off1 & Hb1 & E1).
  assert (Hstop : forall o', (forall base, (base <= off)%nat ->
              f (mvia.mk (skipn base input) (off - base))
              = (o', target, mvia.mk (skipn base input) (off1 - base))) ->
            exists o x off', (off <= off' <= length input)%nat /\
              forall base, (base <= off)%nat ->
                f (mvia.mk (skipn base input) (off - base))
                = (o, x, mvia.mk (skipn base input) (off' - base))).
  { intros o' H. exists o', target, off1. split; [lia | exact H]. }
  destruct (decide (o = normal)) as [-> | Hne].
  - destruct v as [size | vs | p | dyn mvs];
      try (apply (Hstop normal); intros base Hbase; by rewrite Hf, E1 by lia).
    destruct (Hg size input off1 ltac:(lia)) as (o2 & x & off2 & Hb2 & E2).
    exists o2, x, off2. split; [lia |]. intros base Hbase.
    rewrite Hf, E1 by lia. apply E2. lia.
  - apply (Hstop o). intros base Hbase. rewrite Hf, E1 by lia. by destruct o.
Qed.

Lemma serialize_binary_shifts (size : Z) (xs : list value) (k : list Z -> list value) :
  shifts (fun a => match mvia.serialize_binary size a with
                   | (inl e', a2) => (thrown e', items xs, a2)
                   | (inr bs, a2) => (normal, items (k bs), a2)
                   end).
Proof.
  intros input off Hoff. unfold mvia.serialize_binary.
  destruct (Nat.ltb_spec (length input) (Z.to_nat size + off)) as [Hshort | Hlong].
  - exists (thrown out_of_range), (items xs), off. split; [lia |]. intros base Hbase.
    rewrite serialize_shift by lia.
    by destruct (Nat.ltb_spec (length input) (Z.to_nat size + off)); [| lia].
  - eexists normal, _, (off + Z.to_nat size)%nat. split; [lia |]. intros base Hbase.
    rewrite serialize_shift by lia.
    by destruct (Nat.ltb_spec (length input) (Z.to_nat size + off)); [lia |].
Qed.

Lemma shifts_of_handle (f : mvia.t -> handle_load) (g : mvia.t -> load_result) :
  shifts_handle f ->
  (forall a, g a = (hl_outcome (f a), pointer (hl_object (f a)), hl_archive (f a))) ->
  shifts g.
Proof.
  intros Hf Hg input off Hoff.
  destruct (Hf input off Hoff) as (o & obj & destroyed & off1 & Hb & E).
  exists o, (pointer obj), off1. split; [lia |]. intros base Hbase.
  by rewrite Hg, E by lia.
Qed.

Lemma load_shifts (fuel : nat) : forall t target, shifts (ld fuel t target).
Proof.
  induction fuel as [| fuel IH]; intros t target; [apply shifts_ret |].
  destruct t as [n | n | c e | c e | c e | k n e | t1 t2 | ts | k type | name bases ms];
    destruct target as [x | xs | p | dyn mvs]; try apply shifts_ret.
  - apply load_scalar_shifts.
  - apply load_scalar_shifts.
  - (* resizable *)
    destruct (select_resizable loading c e) as [[|] |] eqn:Hsel.
    + destruct (lvalue_items c) eqn:Hlvalue.
      2: { eapply shifts_wrapped with (g := fun a => (ill_formed, xs, a)) (k := items);
             [apply shifts_ret |]. intros a. cbn [load]. by rewrite Hsel, Hlvalue. }
      eapply (shifts_prefixed (items xs)
                (fun size a1 =>
                   let '(o, xs', a2) :=
                     load_each (ld fuel e)
                       (vector_resize (default e) (Z.to_nat size) xs) a1 in
                   (o, items xs', a2))).
      * intros size. eapply shifts_wrapped; [apply load_each_shifts, IH | reflexivity].
      * intros a. cbn [load]. by rewrite Hsel, Hlvalue.
    + eapply (shifts_prefixed (items xs)
                (fun size a1 =>
                   let xs1 := vector_resize (default e) (Z.to_nat size) xs in
                   if size =? 0 then (normal, items xs1, a1)
                   else
                     match storage_bytes host (sizeof e) xs1 with
                     | Some storage =>
                         match mvia.serialize_binary
                                 (size_in_bytes (size_type (Z.of_nat (length xs1)))
                                    (sizeof e)) a1 with
                         | (inl e', a2) => (thrown e', items xs1, a2)
                         | (inr bs, a2) =>
                             (normal,
                              items (storage_values host (sizeof e) (length xs1)
                                       (bs ++ skipn (length bs) storage)), a2)
                         end
                     | None => (ill_formed, items xs1, a1)
                     end)).
      * intros size. cbv zeta. destruct (size =? 0); [apply shifts_ret |].
        destruct (storage_bytes _ _ _) as [storage |]; [| apply shifts_ret].
        apply (serialize_binary_shifts _ _
                 (fun bs => storage_values host (sizeof e) _ (bs ++ skipn (length bs) storage))).
      * intros a. cbn [load]. by rewrite Hsel.
    + eapply shifts_wrapped with (g := fun a => (ill_formed, xs, a)) (k := items);
        [apply shifts_ret |]. intros a. cbn [load]. by rewrite Hsel.
  - (* associative *)
    eapply (shifts_prefixed (items xs)
              (fun size a1 =>
                 let '(o, xs', a2) :=
                   load_inserting (ld fuel e (default e))
                     (container_insert (key_less e) c) (Z.to_nat size) xs a1 in
                 (o, items xs', a2))).
    + intros size. eapply shifts_wrapped; [apply load_inserting_shifts, IH | reflexivity].
    + intros a. reflexivity.
  - (* unordered *)
    eapply (shifts_prefixed (items xs)
              (fun size a1 =>
                 let '(o, xs', a2) :=
                   load_inserting (ld fuel e (default e))
                     (unordered_insert e c) (Z.to_nat size) xs a1 in
                 (o, items xs', a2))).
    + intros size. eapply shifts_wrapped; [apply load_inserting_shifts, IH | reflexivity].
    + intros a. reflexivity.
  - (* array *)
    destruct (Nat.eqb_spec (length xs) n) as [Hn | Hn].
    + eapply shifts_wrapped; [apply (load_each_shifts (ld fuel e) xs), IH |].
      intros a. cbn [load]. by destruct (Nat.eqb_spec (length xs) n).
    + eapply shifts_wrapped with (g := fun a => (ill_formed, xs, a)) (k := items);
        [apply shifts_ret |]. intros a. cbn [load].
      by destruct (Nat.eqb_spec (length xs) n).
  - eapply shifts_wrapped;
      [exact (proj1 (load_items_shifts (ld fuel) xs IH [t1; t2])) |]. reflexivity.
  - eapply shifts_wrapped; [exact (proj1 (load_items_shifts (ld fuel) xs IH ts)) |].
    reflexivity.
  - destruct (is_base_of polymorphic type) eqn:Hpoly.
    + eapply shifts_of_handle; [apply (load_polymorphic_shifts host loading_registry
                                         (ld fuel) type p IH) |].
      intros a. cbn [load]. by rewrite Hpoly.
    + eapply shifts_of_handle; [apply (load_new_object_shifts (ld fuel) type p IH) |].
      intros a. cbn [load]. by rewrite Hpoly.
  - eapply shifts_wrapped with (k := object dyn);
      [exact (proj2 (load_items_shifts (ld fuel) mvs IH ms)) |]. reflexivity.
Qed.

End shift_of_load.

Lemma load_items_app (f : ty -> value -> mvia.t -> load_result)
    (args1 args2 : list (ty * value)) (a : mvia.t) :
  load_items f (map fst (args1 ++ args2)) (map snd (args1 ++ args2)) a
  = match load_items f (map fst args1) (map snd args1) a with
    | (normal, xs1, a1) =>
        let '(o, xs2, a2) := load_items f (map fst args2) (map snd args2) a1 in
        (o, xs1 ++ xs2, a2)
    | (o, xs1, a1) => (o, xs1 ++ map snd args2, a1)
    end.
Proof.
  revert a. induction args1 as [| [t v] args1 IH]; intros a;
    cbn [app map fst snd load_items].
  - by destruct (load_items f (map fst args2) (map snd args2) a) as [[o xs2] a2].
  - destruct (f t v a) as [[o x'] a1].
    destruct o; try (by rewrite map_app). rewrite IH.
    destruct (load_items f (map fst args1) (map snd args1) a1) as [[o1 xs1] a1'].
    destruct o1; try done.
    by destruct (load_items f (map fst args2) (map snd args2) a1') as [[o xs2] a2].
Qed.

(** X20. Loading several items in one call is loading them in consecutive
    calls: [in(items1..., items2...)] leaves the outcome, the items and the
    vector that [in(items1...)] followed - if it returns - by
    [in(items2...)] leaves; the bytes are read the same at an offset of the
    vector as at the front of what is left of it. *)
Theorem in_call_app (host : byte_order) (key_less : ty -> value -> value -> bool)
    (unordered_insert : ty -> associative_traits -> value -> list value -> list value)
    (lr : registry.t ty) (fuel : nat) (args1 args2 : list (ty * value))
    (s : shared_vector.t) :
  shared_vector.in_call host key_less unordered_insert lr fuel (args1 ++ args2) s
  = match shared_vector.in_call host key_less unordered_insert lr fuel args1 s with
    | (normal, xs1, s1) =>
        let '(o, xs2, s2) := shared_vector.in_call host key_less unordered_insert lr fuel args2 s1 in
        (o, xs1 ++ xs2, s2)
    | (o, xs1, s1) => (o, xs1 ++ map snd args2, s1)
    end.
Proof.
  destruct s as [data m].
  unfold shared_vector.in_call, memory_input_archive_call, load_call,
    memory_input_archive_make, mvia.make, mvia.get_offset, vector_erase_front.
  cbn [shared_vector.data shared_vector.out_m_size mia_input].
  rewrite load_items_app.
  pose proof (fun args => proj1 (load_items_shifts (load host key_less unordered_insert lr fuel)
                                   (map snd args) (load_shifts host key_less unordered_insert lr fuel)
                                   (map fst args))) as Hshift.
  destruct (Hshift args1 data 0%nat ltac:(lia)) as (o1 & xs1 & off1 & Hb1 & E1).
  pose proof (E1 0%nat ltac:(lia)) as E10. rewrite !drop_0, !Nat.sub_0_r in E10.
  rewrite E10. cbn [mvia.m_offset].
  destruct (decide (o1 = normal)) as [-> | Hne]; [| by destruct o1].
  cbv beta iota. cbn [shared_vector.data shared_vector.out_m_size mia_input].
  destruct (Hshift args2 data off1 ltac:(lia)) as (o2 & xs2 & off2 & Hb2 & E2).
  pose proof (E2 0%nat ltac:(lia)) as E20. rewrite !drop_0, !Nat.sub_0_r in E20.
  pose proof (E2 off1 ltac:(lia)) as E21. rewrite Nat.sub_diag in E21.
  rewrite E20, E21. cbn [mvia.m_offset]. rewrite drop_drop.
  by replace (off1 + (off2 - off1))%nat with off2 by lia.
Qed.

(** * The loader returns *)

(** The nesting depth of a type. *)
Fixpoint height (t : ty) : nat :=
  match t with
  | fundamental _ | enumeration _ => 1
  | resizable _ e | associative _ e | unordered _ e | array _ _ e => S (height e)
  | pair t1 t2 => S (Nat.max (height t1) (height t2))
  | tuple ts | class_ _ _ ts => S (max_list (map height ts))
  | handle _ type => S (height type)
  end.

(** The greatest nesting depth among the types of the registered methods. *)
Definition registry_height (r : registry.t ty) : nat :=
  max_list (height <$> (map_to_list (registry.m_serialization_id_to_method r)).*2).

(** A recursion budget that suffices to load an item of type [t] when
    [remaining] bytes are left: every registered method that runs has
    first consumed the eight bytes of its identifier. *)
Definition enough_fuel (r : registry.t ty) (t : ty) (remaining : nat) : nat :=
  (height t + remaining / 8 * S (registry_height r))%nat.

(** At most [r] bytes remain in the view. *)
Definition fits (r : nat) (a : mvia.t) : Prop :=
  (mvia.m_offset a <= mvia.m_size a)%nat /\ (mvia.m_size a - mvia.m_offset a <= r)%nat.

Lemma fits_advances (r : nat) (a a' : mvia.t) : advances a a' -> fits r a -> fits r a'.
Proof.
  unfold advances, fits, mvia.m_size. intros (E & Hle & Hin) [H1 H2].
  rewrite E in *. split; [apply Hin; lia | lia].
Qed.

Lemma height_positive (t : ty) : (1 <= height t)%nat.
Proof. destruct t; cbn; lia. Qed.

Lemma registry_height_lookup (r : registry.t ty) (id : Z) (t : ty) :
  registry.m_serialization_id_to_method r !! id = Some t ->
  (height t <= registry_height r)%nat.
Proof.
  intros Hid. apply max_list_elem_of_le. apply list_elem_of_fmap. exists t.
  split; [done |]. apply list_elem_of_fmap. exists (id, t). split; [done |].
  by apply elem_of_map_to_list.
Qed.

Lemma height_member (t : ty) (ts : list ty) :
  t ∈ ts -> (height t <= max_list (map height ts))%nat.
Proof.
  intros Hin. apply max_list_elem_of_le. apply list_elem_of_In, in_map.
  by apply list_elem_of_In.
Qed.

Section enough.

Variable host : byte_order.
Variable key_less : ty -> value -> value -> bool.
Variable unordered_insert : ty -> associative_traits -> value -> list value -> list value.
Variable loading_registry : registry.t ty.

Local Abbreviation ld := (load host key_less unordered_insert loading_registry).

(** [f] never runs out of fuel while at most [r] bytes remain. *)
Definition returns {A : Type} (r : nat) (f : mvia.t -> outcome * A * mvia.t) : Prop :=
  forall a, fits r a -> fst (fst (f a)) <> out_of_fuel.

Lemma load_each_returns (r : nat) (f : value -> mvia.t -> load_result)
    (targets : list value) :
  (forall x, returns r (f x)) -> (forall x a, advances a (snd (f x a))) ->
  returns r (load_each f targets).
Proof.
  intros Hf Hadv. induction targets as [| x xs IH]; intros a Ha; cbn [load_each]; [done |].
  pose proof (Hf x a Ha) as H1. pose proof (Hadv x a) as H2.
  destruct (f x a) as [[o x'] a1]. cbn [fst snd] in *.
  destruct o; try done.
  pose proof (IH a1 (fits_advances _ _ _ H2 Ha)) as H3.
  by destruct (load_each f xs a1) as [[o2 xs'] a2].
Qed.

Lemma load_items_returns (r : nat) (f : ty -> value -> mvia.t -> load_result)
    (targets : list value) (ts : list ty) :
  (forall t x, t ∈ ts -> returns r (f t x)) ->
  (forall t x a, advances a (snd (f t x a))) ->
  returns r (load_items f ts targets) /\ returns r (load_members f ts targets).
Proof.
  intros Hf Hadv. revert targets Hf.
  induction ts as [| t ts IH]; intros [| x xs] Hf; try (split; by intros a Ha).
  destruct (IH xs) as [IH1 IH2].
  { intros t' x' Ht'. apply Hf. by apply elem_of_cons; right. }
  assert (Ht : t ∈ t :: ts) by (by apply elem_of_cons; left).
  split; intros a Ha; cbn [load_items load_members];
    pose proof (Hf t x Ht a Ha) as H1; pose proof (Hadv t x a) as H2;
    destruct (f t x a) as [[o x'] a1]; cbn [fst snd] in *;
    destruct o; try done.
  - pose proof (IH1 a1 (fits_advances _ _ _ H2 Ha)) as H3.
    by destruct (load_items f ts xs a1) as [[o2 xs'] a2].
  - pose proof (IH2 a1 (fits_advances _ _ _ H2 Ha)) as H3.
    by destruct (load_members f ts xs a1) as [[o2 xs'] a2].
Qed.

Lemma load_inserting_returns (r : nat) (load_item : mvia.t -> load_result)
    (insert_item : value -> list value -> list value) (count : nat) :
  returns r load_item -> (forall a, advances a (snd (load_item a))) ->
  forall container, returns r (load_inserting load_item insert_item count container).
Proof.
  intros Hf Hadv. induction count as [| count IH]; intros container a Ha;
    cbn [load_inserting]; [done |].
  pose proof (Hf a Ha) as H1. pose proof (Hadv a) as H2.
  destruct (load_item a) as [[o x'] a1]. cbn [fst snd] in *.
  destruct o; try done. apply IH. exact (fits_advances _ _ _ H2 Ha).
Qed.

Lemma load_scalar_returns (n : nat) (target : value) (a : mvia.t) :
  fst (fst (load_scalar host n target a)) <> out_of_fuel.
Proof. by destruct (load_scalar_outcome host n target a) as [-> | ->]. Qed.

(** After the length prefix, or after the identifier. *)
Lemma load_scalar_then (n : nat) (a : mvia.t) (r : nat) :
  fits r a ->
  match load_scalar host n (scalar 0) a with
  | (normal, _, a1) => fits (r - n) a1 /\ (n <= r)%nat
  | (o, _, a1) => o <> out_of_fuel
  end.
Proof.
  intros [H1 H2]. unfold load_scalar, mvia.serialize.
  destruct (Nat.ltb_spec (mvia.m_size a) (n + mvia.m_offset a)); [done |].
  unfold fits, mvia.m_size in *. cbn [mvia.m_input mvia.m_offset]. lia.
Qed.

Lemma enough_fuel_sub (t t' : ty) (r r' fuel : nat) :
  (height t' < height t)%nat -> (r' <= r)%nat ->
  (enough_fuel loading_registry t r <= S fuel)%nat ->
  (enough_fuel loading_registry t' r' <= fuel)%nat.
Proof.
  unfold enough_fuel. intros Ht Hr Hfuel.
  pose proof (Nat.Div0.div_le_mono r' r 8 Hr) as Hdiv.
  pose proof (Nat.mul_le_mono_r _ _ (S (registry_height loading_registry)) Hdiv). lia.
Qed.

Lemma enough_fuel_method (t method_type : ty) (id : Z) (r fuel : nat) :
  registry.m_serialization_id_to_method loading_registry !! id = Some method_type ->
  (8 <= r)%nat ->
  (enough_fuel loading_registry t r <= S fuel)%nat ->
  (enough_fuel loading_registry method_type (r - 8) <= fuel)%nat.
Proof.
  unfold enough_fuel. intros Hid Hr Hfuel.
  pose proof (registry_height_lookup _ _ _ Hid). pose proof (height_positive t).
  assert (Hdiv : (r / 8 = S ((r - 8) / 8))%nat).
  { replace r with ((r - 8) + 1 * 8)%nat at 1 by lia. rewrite Nat.div_add by lia. lia. }
  rewrite Hdiv in Hfuel. lia.
Qed.

Lemma load_returns (fuel : nat) :
  forall t target r,
    (enough_fuel loading_registry t r <= fuel)%nat -> returns r (ld fuel t target).
Proof.
  induction fuel as [| fuel IH]; intros t target r Hfuel a Ha.
  { unfold enough_fuel in Hfuel. pose proof (height_positive t). lia. }
  pose proof (load_advances host key_less unordered_insert loading_registry fuel) as Hadv.
  assert (Hsub : forall t' target' r', (height t' < height t)%nat -> (r' <= r)%nat ->
            returns r' (ld fuel t' target')).
  { intros t' target' r' Ht Hr. apply IH. by apply (enough_fuel_sub t t' r r'). }
  cbn [load].
  destruct t as [n | n | c e | c e | c e | k n e | t1 t2 | ts | k type | name bases ms];
    destruct target as [x | xs | p | dyn mvs]; try done.
  - apply load_scalar_returns.
  - apply load_scalar_returns.
  - destruct (select_resizable loading c e) as [[|] |];
      [destruct (lvalue_items c); [| done] | | done];
      pose proof (load_scalar_then 4 a r Ha) as H1;
      destruct (load_scalar host 4 (scalar 0) a) as [[o v] a1];
      (destruct o; try done); destruct H1 as [H1 _]; destruct v as [size | | |]; try done.
    + pose proof (load_each_returns (r - 4) (ld fuel e)
                    (vector_resize (default e) (Z.to_nat size) xs)
                    (fun x => Hsub e x (r - 4)%nat ltac:(cbn; lia) ltac:(lia))
                    (Hadv e) a1 H1) as H2.
      by destruct (load_each _ _ a1) as [[o2 xs'] a2].
    + destruct (size =? 0); [done |]. destruct (storage_bytes _ _ _); [| done].
      by destruct (mvia.serialize_binary _ a1) as [[e' | bs] a2].
  - pose proof (load_scalar_then 4 a r Ha) as H1.
    destruct (load_scalar host 4 (scalar 0) a) as [[o v] a1].
    destruct o; try done. destruct H1 as [H1 _]. destruct v as [size | | |]; try done.
    pose proof (load_inserting_returns (r - 4) (ld fuel e (default e))
                  (container_insert (key_less e) c) (Z.to_nat size)
                  (Hsub e (default e) (r - 4)%nat ltac:(cbn; lia) ltac:(lia))
                  (Hadv e (default e)) xs a1 H1) as H2.
    by destruct (load_inserting _ _ _ _ a1) as [[o2 xs'] a2].
  - pose proof (load_scalar_then 4 a r Ha) as H1.
    destruct (load_scalar host 4 (scalar 0) a) as [[o v] a1].
    destruct o; try done. destruct H1 as [H1 _]. destruct v as [size | | |]; try done.
    pose proof (load_inserting_returns (r - 4) (ld fuel e (default e))
                  (unordered_insert e c) (Z.to_nat size)
                  (Hsub e (default e) (r - 4)%nat ltac:(cbn; lia) ltac:(lia))
                  (Hadv e (default e)) xs a1 H1) as H2.
    by destruct (load_inserting _ _ _ _ a1) as [[o2 xs'] a2].
  - destruct (length xs =? n)%nat; [| done].
    pose proof (load_each_returns r (ld fuel e) xs
                  (fun x => Hsub e x r ltac:(cbn; lia) ltac:(lia)) (Hadv e) a Ha) as H2.
    by destruct (load_each _ _ a) as [[o2 xs'] a2].
  - destruct (load_items_returns r (ld fuel) xs [t1; t2]) as [H2 _]; [| exact Hadv |].
    { intros t' x' Ht'. apply Hsub; [| lia].
      apply elem_of_cons in Ht' as [-> | Ht']; [cbn; lia |].
      apply elem_of_cons in Ht' as [-> | Ht']; [cbn; lia |]. by apply elem_of_nil in Ht'. }
    specialize (H2 a Ha). by destruct (load_items _ _ _ a) as [[o2 xs'] a2].
  - destruct (load_items_returns r (ld fuel) xs ts) as [H2 _]; [| exact Hadv |].
    { intros t' x' Ht'. apply Hsub; [| lia]. pose proof (height_member t' ts Ht'). cbn. lia. }
    specialize (H2 a Ha). by destruct (load_items _ _ _ a) as [[o2 xs'] a2].
  - cbn [fst]. destruct (is_base_of polymorphic type).
    + unfold load_polymorphic, registry_load.
      pose proof (load_scalar_then 8 a r Ha) as H1.
      destruct (load_scalar host 8 (scalar 0) a) as [[o v] a1].
      destruct o; try done. destruct H1 as [H1 Hr].
      destruct v as [id | | |]; try done.
      destruct (registry.m_serialization_id_to_method loading_registry !! id)
        as [method_type |] eqn:Hid; [| done].
      unfold load_new_object.
      pose proof (IH method_type (default method_type) (r - 8)%nat
                    (enough_fuel_method _ _ _ _ _ Hid Hr Hfuel) a1 H1) as H2.
      destruct (ld fuel method_type (default method_type) a1) as [[o2 x'] a2].
      cbn [fst] in H2. destruct o2; try done.
      cbn [hl_outcome hl_object]. by destruct (dynamic_cast_ok type x').
    + unfold load_new_object.
      pose proof (Hsub type (default type) r ltac:(cbn; lia) ltac:(lia) a Ha) as H2.
      destruct (ld fuel type (default type) a) as [[o2 x'] a2]. by destruct o2.
  - destruct (load_items_returns r (ld fuel) mvs ms) as [_ H2]; [| exact Hadv |].
    { intros t' x' Ht'. apply Hsub; [| lia]. pose proof (height_member t' ms Ht'). cbn. lia. }
    specialize (H2 a Ha). by destruct (load_members _ _ _ a) as [[o2 xs'] a2].
Qed.

End enough.

(** ** More fuel changes nothing *)

(** Where [f] does not run out of fuel, [g] does what [f] does. *)
Definition extends {A : Type} (f g : mvia.t -> outcome * A * mvia.t) : Prop :=
  forall a, fst (fst (f a)) <> out_of_fuel -> g a = f a.

Definition extends_handle (f g : mvia.t -> handle_load) : Prop :=
  forall a, hl_outcome (f a) <> out_of_fuel -> g a = f a.

Lemma load_each_extends (f g : value -> mvia.t -> load_result) (targets : list value) :
  (forall x, extends (f x) (g x)) -> extends (load_each f targets) (load_each g targets).
Proof.
  intros Hfg. induction targets as [| x xs IH]; intros a Ha; cbn [load_each] in *; [done |].
  specialize (Hfg x a). destruct (f x a) as [[o x'] a1]. cbn [fst] in Hfg.
  destruct o; try (by rewrite Hfg).
  rewrite Hfg by done. specialize (IH a1).
  destruct (load_each f xs a1) as [[o2 xs'] a2]. by rewrite IH.
Qed.

Lemma load_items_extends (f g : ty -> value -> mvia.t -> load_result)
    (targets : list value) :
  (forall t x, extends (f t x) (g t x)) ->
  forall ts,
    extends (load_items f ts targets) (load_items g ts targets) /\
    extends (load_members f ts targets) (load_members g ts targets).
Proof.
  intros Hfg. induction targets as [| x xs IH]; intros [| t ts];
    try (split; by intros a Ha).
  destruct (IH ts) as [IH1 IH2].
  split; intros a Ha; cbn [load_items load_members] in *;
    specialize (Hfg t x a); destruct (f t x a) as [[o x'] a1]; cbn [fst] in Hfg;
    (destruct o; try (by rewrite Hfg)); rewrite Hfg by done.
  - specialize (IH1 a1). destruct (load_items f ts xs a1) as [[o2 xs'] a2]. by rewrite IH1.
  - specialize (IH2 a1). destruct (load_members f ts xs a1) as [[o2 xs'] a2]. by rewrite IH2.
Qed.

Lemma load_inserting_extends (f g : mvia.t -> load_result)
    (insert_item : value -> list value -> list value) (count : nat) :
  extends f g ->
  forall container,
    extends (load_inserting f insert_item count container)
            (load_inserting g insert_item count container).
Proof.
  intros Hfg. induction count as [| count IH]; intros container a Ha;
    cbn [load_inserting] in *; [done |].
  specialize (Hfg a). destruct (f a) as [[o x'] a1]. cbn [fst] in Hfg.
  destruct o; try (by rewrite Hfg). rewrite Hfg by done. by apply IH.
Qed.

Lemma load_new_object_extends (f g : ty -> value -> mvia.t -> load_result)
    (type : ty) (object : option value) :
  (forall t x, extends (f t x) (g t x)) ->
  extends_handle (load_new_object f type object) (load_new_object g type object).
Proof.
  intros Hfg a Ha. unfold load_new_object in *. specialize (Hfg type (default type) a).
  destruct (f type (default type) a) as [[o x'] a1]. cbn [fst] in Hfg.
  destruct o; by rewrite Hfg.
Qed.

Lemma registry_load_extends (host : byte_order) (lr : registry.t ty)
    (f g : ty -> value -> mvia.t -> load_result) (object : option value) :
  (forall t x, extends (f t x) (g t x)) ->
  extends_handle (registry_load host lr f object) (registry_load host lr g object).
Proof.
  intros Hfg a Ha. unfold registry_load in *.
  destruct (load_scalar host 8 (scalar 0) a) as [[o v] a1].
  destruct o; try done. destruct v as [id | | |]; try done.
  destruct (registry.m_serialization_id_to_method lr !! id); [| done].
  by apply load_new_object_extends.
Qed.

Lemma load_polymorphic_extends (host : byte_order) (lr : registry.t ty)
    (f g : ty -> value -> mvia.t -> load_result) (type : ty) (object : option value) :
  (forall t x, extends (f t x) (g t x)) ->
  extends_handle (load_polymorphic host lr f type object)
                 (load_polymorphic host lr g type object).
Proof.
  intros Hfg a Ha. unfold load_polymorphic in *.
  rewrite (registry_load_extends host lr f g None Hfg a); [done |].
  destruct (registry_load host lr f None a) as [o obj destroyed a1].
  cbn [hl_outcome hl_object hl_destroyed hl_archive] in *. by intros ->.
Qed.

Section more_fuel.

Variable host : byte_order.
Variable key_less : ty -> value -> value -> bool.
Variable unordered_insert : ty -> associative_traits -> value -> list value -> list value.
Variable loading_registry : registry.t ty.

Local Abbreviation ld := (load host key_less unordered_insert loading_registry).

Lemma load_extends_step (fuel fuel' : nat) :
  (forall t x, extends (ld fuel t x) (ld fuel' t x)) ->
  forall t x, extends (ld (S fuel) t x) (ld (S fuel') t x).
Proof.
  intros IH t target a Ha. cbn [load] in *.
  destruct t as [n | n | c e | c e | c e | k n e | t1 t2 | ts | k type | name bases ms];
    destruct target as [x | xs | p | dyn mvs]; try done.
  - destruct (select_resizable loading c e) as [[|] |]; [| done | done].
    destruct (lvalue_items c); [| done].
    destruct (load_scalar host 4 (scalar 0) a) as [[o v] a1].
    destruct o; try done. destruct v as [size | | |]; try done.
    rewrite (load_each_extends (ld fuel e) (ld fuel' e) _ (IH e) a1); [done |].
    by destruct (load_each (ld fuel e) _ a1) as [[o2 xs'] a2].
  - destruct (load_scalar host 4 (scalar 0) a) as [[o v] a1].
    destruct o; try done. destruct v as [size | | |]; try done.
    rewrite (load_inserting_extends (ld fuel e (default e)) (ld fuel' e (default e))
               _ _ (IH e (default e)) xs a1); [done |].
    by destruct (load_inserting (ld fuel e (default e)) _ _ _ a1) as [[o2 xs'] a2].
  - destruct (load_scalar host 4 (scalar 0) a) as [[o v] a1].
    destruct o; try done. destruct v as [size | | |]; try done.
    rewrite (load_inserting_extends (ld fuel e (default e)) (ld fuel' e (default e))
               _ _ (IH e (default e)) xs a1); [done |].
    by destruct (load_inserting (ld fuel e (default e)) _ _ _ a1) as [[o2 xs'] a2].
  - destruct (length xs =? n)%nat; [| done].
    rewrite (load_each_extends (ld fuel e) (ld fuel' e) _ (IH e) a); [done |].
    by destruct (load_each (ld fuel e) _ a) as [[o2 xs'] a2].
  - rewrite (proj1 (load_items_extends (ld fuel) (ld fuel') xs IH [t1; t2]) a); [done |].
    by destruct (load_items (ld fuel) _ _ a) as [[o2 xs'] a2].
  - rewrite (proj1 (load_items_extends (ld fuel) (ld fuel') xs IH ts) a); [done |].
    by destruct (load_items (ld fuel) _ _ a) as [[o2 xs'] a2].
  - cbn [fst] in Ha. destruct (is_base_of polymorphic type).
    + by rewrite (load_polymorphic_extends host loading_registry (ld fuel) (ld fuel')
                    type p IH a).
    + by rewrite (load_new_object_extends (ld fuel) (ld fuel') type p IH a).
  - rewrite (proj2 (load_items_extends (ld fuel) (ld fuel') mvs IH ms) a); [done |].
    by destruct (load_members (ld fuel) _ _ a) as [[o2 xs'] a2].
Qed.

Lemma load_extends (fuel : nat) :
  forall fuel', (fuel <= fuel')%nat -> forall t x, extends (ld fuel t x) (ld fuel' t x).
Proof.
  induction fuel as [| fuel IH]; intros fuel' Hle t x.
  - by intros a Ha.
  - destruct fuel' as [| fuel']; [lia |]. apply load_extends_step, IH. lia.
Qed.


End more_fuel.

